(** * find_cars.py: heatmap fusion and region extraction of the car finder

    A shallow embedding of [src/find_cars.py].  Heat values are Python
    floats in the source; they are modelled by the rationals [Q], so sums,
    products and comparisons are exact.  Pixel coordinates are Python
    integers ([Z]); arrays are lists of rows. *)

From Stdlib Require Import Ascii String List ZArith QArith Qround Lia Bool Arith.
Import ListNotations.

Set Implicit Arguments.
Open Scope Z_scope.

(** ** Python and numpy primitives *)

(** [Rectangle = Tuple[Tuple[int, int], Tuple[int, int]]]: a pair of (x, y)
    vertices. *)
Definition Point : Type := (Z * Z)%type.
Definition Rectangle : Type := (Point * Point)%type.

Definition rx0 (r : Rectangle) : Z := fst (fst r).   (* rec[0][0] *)
Definition ry0 (r : Rectangle) : Z := snd (fst r).   (* rec[0][1] *)
Definition rx1 (r : Rectangle) : Z := fst (snd r).   (* rec[1][0] *)
Definition ry1 (r : Rectangle) : Z := snd (snd r).   (* rec[1][1] *)

(** A 2-D float array, row major: [a[y, x]] is column [x] of row [y]. *)
Definition Heatmap : Type := list (list Q).

(** [np.zeros((h, w))] *)
Definition np_zeros (h w : nat) : Heatmap := repeat (repeat 0%Q w) h.

(** [a[y, x]] for an index inside the array. *)
Definition cell (hm : Heatmap) (y x : nat) : option Q :=
  match nth_error hm y with
  | Some row => nth_error row x
  | None => None
  end.

(** Map with the element's index, used for every masked or sliced update. *)
Fixpoint mapi_from {A B : Type} (i : nat) (f : nat -> A -> B) (l : list A) : list B :=
  match l with
  | [] => []
  | a :: l' => f i a :: mapi_from (S i) f l'
  end.

Definition mapi {A B : Type} (f : nat -> A -> B) (l : list A) : list B :=
  mapi_from 0 f l.

(** A bound [i] of the slice [a[i:j]] over an axis of length [n]: a negative
    bound counts from the end, and both are clipped to the axis. *)
Definition slice_bound (i n : Z) : Z :=
  if i <? 0 then Z.max (i + n) 0 else Z.min i n.

(** Whether index [k] of an axis of length [n] belongs to the slice [lo:hi]. *)
Definition in_slice (lo hi : Z) (n k : nat) : bool :=
  (slice_bound lo (Z.of_nat n) <=? Z.of_nat k) &&
  (Z.of_nat k <? slice_bound hi (Z.of_nat n)).

(** [a[lo:hi] += s] on one row. *)
Definition row_slice_add (lo hi : Z) (s : Q) (row : list Q) : list Q :=
  mapi (fun x v => if in_slice lo hi (length row) x then (v + s)%Q else v) row.

(** [heatmap[y0:y1, x0:x1] += s] *)
Definition slice_add (y0 y1 x0 x1 : Z) (s : Q) (hm : Heatmap) : Heatmap :=
  mapi (fun y row => if in_slice y0 y1 (length hm) y
                     then row_slice_add x0 x1 s row else row) hm.

(** ** gen_heatmap *)

Definition gen_heatmap (rectangles : list Rectangle) (rectangle_heat : list Q)
    (img_shape : nat * nat) : Heatmap :=
  fold_left
    (fun heatmap (rs : Rectangle * Q) =>
       let (rec, score) := rs in
       slice_add (ry0 rec) (ry1 rec) (rx0 rec) (rx1 rec) score heatmap)
    (combine rectangles rectangle_heat)
    (np_zeros (fst img_shape) (snd img_shape)).

(** ** Masked assignments of find_cars *)

(** [a > b], [a < b] and [a >= b] on floats, as booleans. *)
Definition Qgtb (a b : Q) : bool := negb (Qle_bool a b).
Definition Qltb (a b : Q) : bool := negb (Qle_bool b a).
Definition Qgeb (a b : Q) : bool := Qle_bool b a.

Fixpoint map2 {A B C : Type} (f : A -> B -> C) (l : list A) (l' : list B) : list C :=
  match l, l' with
  | a :: t, b :: t' => f a b :: map2 f t t'
  | _, _ => []
  end.

(** [target[mask_src ? bound] = v]: the boolean mask is computed from
    [mask_src], the assignment goes to [target].  Every call of find_cars
    uses two arrays of one shape. *)
Definition masked_set (p : Q -> bool) (v : Q) (mask_src target : Heatmap) : Heatmap :=
  map2 (map2 (fun m t => if p m then v else t)) mask_src target.

(** [current_heatmap[current_heatmap > max_frame_heat] = max_frame_heat] *)
Definition cap_heat (max_frame_heat : Q) (hm : Heatmap) : Heatmap :=
  masked_set (fun m => Qgtb m max_frame_heat) max_frame_heat hm hm.

(** [heatmap_thresh[heatmap < heat_thresh_low] = 0], [heatmap_thresh] being
    a copy of [heatmap]. *)
Definition zero_below (heat_thresh_low : Q) (heatmap heatmap_thresh : Heatmap) : Heatmap :=
  masked_set (fun m => Qltb m heat_thresh_low) 0%Q heatmap heatmap_thresh.

(** [a + b] on two arrays of one shape (all frames of a run have one
    resolution). *)
Definition heat_add (a b : Heatmap) : Heatmap := map2 (map2 Qplus) a b.

(** [sum(heatmaps)], that is [0 + h1 + h2 + ...].  The list is empty only
    for a negative history capacity: Python's [sum] is the integer [0]
    then, which numpy treats as an array without axes.  The array without
    cells stands for it; whether OpenCV accepts it is left to the
    collaborators ([cv2_normalize_error] and the like). *)
Definition py_sum (heatmaps : list Heatmap) : Heatmap :=
  match heatmaps with
  | [] => []
  | h :: t => fold_left heat_add t (map (map (Qplus 0)) h)
  end.

(** [l[i:]] on a list. *)
Definition py_slice_from {A : Type} (i : Z) (l : list A) : list A :=
  skipn (Z.to_nat (slice_bound i (Z.of_nat (length l)))) l.

(** [int(q)]: truncation toward zero. *)
Definition py_int (q : Q) : Z :=
  if Qle_bool 0 q then Qfloor q else Qceiling q.

(** ** hot_label_regions *)

(** The integer array of [scipy.ndimage.label] and its number of labels. *)
Definition Labels : Type := (list (list Z) * Z)%type.

(** [(labels[0] == label_id).nonzero()]: the (y, x) positions holding
    [label_id], in row-major order. *)
Definition pixel_locs (arr : list (list Z)) (label_id : Z) : list (nat * nat) :=
  concat (mapi (fun y row =>
            concat (mapi (fun x v => if v =? label_id then [(y, x)] else []) row)) arr).

(** [np.min] and [np.max] of an index array; both raise on an empty one. *)
Definition np_min (l : list nat) : option nat :=
  match l with [] => None | a :: t => Some (fold_left Nat.min t a) end.
Definition np_max (l : list nat) : option nat :=
  match l with [] => None | a :: t => Some (fold_left Nat.max t a) end.

(** The bounding box of one label, [((min x, min y), (max x, max y))]. *)
Definition label_bbox (arr : list (list Z)) (label_id : Z) : option Rectangle :=
  let locs := pixel_locs arr label_id in
  let pixels_y := map fst locs in
  let pixels_x := map snd locs in
  match np_min pixels_x, np_min pixels_y, np_max pixels_x, np_max pixels_y with
  | Some x0, Some y0, Some x1, Some y1 =>
      Some ((Z.of_nat x0, Z.of_nat y0), (Z.of_nat x1, Z.of_nat y1))
  | _, _, _, _ => None
  end.

(** The cell of the core test, [((y0 + y1) // 2, (x0 + x1) // 2)]. *)
Definition bbox_core (bbox : Rectangle) : Z * Z :=
  ((ry0 bbox + ry1 bbox) / 2, (rx0 bbox + rx1 bbox) / 2).

(** [a[y, x]] with Python integers: a negative index counts from the end. *)
Definition heat_at (hm : Heatmap) (y x : Z) : option Q :=
  let h := Z.of_nat (length hm) in
  let y' := if y <? 0 then y + h else y in
  if (y' <? 0) || (h <=? y') then None else
  match nth_error hm (Z.to_nat y') with
  | None => None
  | Some row =>
      let w := Z.of_nat (length row) in
      let x' := if x <? 0 then x + w else x in
      if (x' <? 0) || (w <=? x') then None else nth_error row (Z.to_nat x')
  end.

(** The exceptions of the program; [CvError] is [cv2.error]. *)
Inductive exn : Type :=
  ZeroDivisionError | IndexError | ValueError | TypeError | CvError.

Inductive res (A : Type) : Type :=
| Ok (a : A)
| Raise (e : exn).
Arguments Ok {A} a.
Arguments Raise {A} e.

(** [range(1, n + 1)] *)
Definition label_ids (n : Z) : list Z :=
  map (fun k => Z.of_nat (S k)) (seq 0 (Z.to_nat n)).

(** One iteration of the loop of hot_label_regions. *)
Definition hot_label_step (arr : list (list Z)) (heatmap : Heatmap) (threshold : Q)
    (acc : res (list Rectangle)) (label_id : Z) : res (list Rectangle) :=
  match acc with
  | Raise e => Raise e
  | Ok bboxes =>
      match label_bbox arr label_id with
      | None => Raise ValueError
      | Some bbox =>
          match heat_at heatmap (fst (bbox_core bbox)) (snd (bbox_core bbox)) with
          | None => Raise IndexError
          | Some v => if Qgeb v threshold then Ok (bboxes ++ [bbox]) else Ok bboxes
          end
      end
  end.

Definition hot_label_regions (labels : Labels) (heatmap : Heatmap) (threshold : Q)
    : res (list Rectangle) :=
  fold_left (hot_label_step (fst labels) heatmap threshold)
            (label_ids (snd labels)) (Ok []).

(** ** External collaborators

    numpy, OpenCV, scipy, the feature-vector builder ([self.fvb]) and the
    classifier ([self.clf]) are not part of the program.  Images are only
    passed between these calls, so their type is left to the interface. *)

Definition Color : Type := (Z * Z * Z)%type.
Definition Gray : Type := list (list Z).

Class Collaborators : Type := {
  Image : Type;
  Hog : Type;
  Features : Type;
  (* numpy on images *)
  img_shape : Image -> nat * nat;                      (* img.shape[:2] *)
  img_crop : Image -> Z -> Z -> Z -> Z -> Image;       (* img[y0:y1, x0:x1, :] *)
  (* cv2 *)
  cv2_resize : Image -> Z * Z -> Image;
  cv2_rectangle : Image -> Point -> Point -> Color -> Z -> Image;
  cv2_normalize_minmax : Heatmap -> Q -> Q -> Heatmap;
  astype_uint8 : Heatmap -> Gray;
  cv2_merge : Gray -> Gray -> Gray -> Image;
  cv2_addWeighted : Image -> Q -> Image -> Q -> Q -> Image;
  (* the exception of a cv2 call that rejects its arguments, if it does;
     the functions above give the result of a call that returns *)
  cv2_normalize_error : Heatmap -> option exn;
  cv2_merge_error : Gray -> Gray -> Gray -> option exn;
  cv2_addWeighted_error : Image -> Image -> option exn;
  (* scipy.ndimage.measurements *)
  label : Heatmap -> Labels;
  (* self.fvb *)
  hog_features : Image -> Hog;
  hog_nblocks_x : Hog -> Z;                            (* hog_channels[0].shape[1] *)
  hog_nblocks_y : Hog -> Z;                            (* hog_channels[0].shape[0] *)
  hog_window : Hog -> Z -> Z -> Z -> Z -> list Q;      (* hog_channels[:, yb:ye, xb:xe].ravel() *)
  input_img_shape : Z * Z;
  pixels_per_cell_edge : Z;
  cells_per_block_edge : Z;
  get_features : list (Image * list Q) -> Features;
  (* self.clf *)
  decision_function : Features -> list Q
}.

(** ** Window search: the block grid *)

(** [a // b] *)
Definition py_floordiv (a b : Z) : res Z :=
  if b =? 0 then Raise ZeroDivisionError else Ok (a / b).

(** [a / b] on Python numbers. *)
Definition py_truediv (a b : Q) : res Q :=
  if Qeq_bool b 0 then Raise ZeroDivisionError else Ok (a / b)%Q.

(** Lines 175-176: [(int(img_w / window_scale), int(img_h / window_scale))],
    the width first. *)
Definition scaled_size (img_h img_w : nat) (window_scale : Q) : res (Z * Z) :=
  match py_truediv (inject_Z (Z.of_nat img_w)) window_scale with
  | Raise e => Raise e
  | Ok w =>
      match py_truediv (inject_Z (Z.of_nat img_h)) window_scale with
      | Raise e => Raise e
      | Ok h => Ok (py_int w, py_int h)
      end
  end.

(** [range(n)] *)
Definition py_range (n : Z) : list Z := map Z.of_nat (seq 0 (Z.to_nat n)).

(** [cells_per_window_edge - cells_per_block_edge + 1] *)
Definition blocks_per_window_edge (cells_per_window_edge cells_per_block : Z) : Z :=
  cells_per_window_edge - cells_per_block + 1.

(** [int((1 - window_overlap) * cells_per_window_edge)] *)
Definition cells_per_window_step (window_overlap : Q) (cells_per_window_edge : Z) : Z :=
  py_int ((1 - window_overlap) * inject_Z cells_per_window_edge)%Q.

(** [range((nblocks - blocks_per_window_edge) // cells_per_window_step)] *)
Definition block_steps (nblocks blocks_per_window cells_per_step : Z) : res (list Z) :=
  match py_floordiv (nblocks - blocks_per_window) cells_per_step with
  | Ok n => Ok (py_range n)
  | Raise e => Raise e
  end.

(** The two nested loops: every (x_block_step, y_block_step), x outermost. *)
Definition window_grid (nblocks_x nblocks_y blocks_per_window cells_per_step : Z)
    : res (list (Z * Z)) :=
  match block_steps nblocks_x blocks_per_window cells_per_step with
  | Raise e => Raise e
  | Ok xs =>
      match xs with
      | [] => Ok []
      | _ :: _ =>
          match block_steps nblocks_y blocks_per_window cells_per_step with
          | Raise e => Raise e
          | Ok ys => Ok (flat_map (fun x => map (fun y => (x, y)) ys) xs)
          end
      end
  end.

(** Selection of the windows the classifier scored above [min_score = 0]. *)
Fixpoint select_windows (window_positions : list Rectangle) (i : nat) (scores : list Q)
    : res (list Rectangle * list Q) :=
  match scores with
  | [] => Ok ([], [])
  | score :: rest =>
      if Qgtb score 0 then
        match nth_error window_positions i with
        | None => Raise IndexError
        | Some w =>
            match select_windows window_positions (S i) rest with
            | Ok (ws, mags) => Ok (w :: ws, score :: mags)
            | Raise e => Raise e
            end
        end
      else select_windows window_positions (S i) rest
  end.

(** The body of window_search_cars after [img = np.copy(img)[...]], on the
    cropped copy. *)
Definition window_search_crop `{Collaborators} (crop : Image) (x_range y_range : Z * Z)
    (window_scale window_overlap : Q) : res (list Rectangle * list Q) :=
  let (img_h, img_w) := img_shape crop in
  match (if Qeq_bool window_scale 1 then Ok crop
         else match scaled_size img_h img_w window_scale with
              | Raise e => Raise e
              | Ok size => Ok (cv2_resize crop size)
              end) with
  | Raise e => Raise e
  | Ok img =>
  let hog_channels := hog_features img in
  let nblocks_x := hog_nblocks_x hog_channels in
  let nblocks_y := hog_nblocks_y hog_channels in
  let window_size := fst input_img_shape in
  match py_floordiv window_size pixels_per_cell_edge with
  | Raise e => Raise e
  | Ok cells_per_window_edge =>
      let bpw := blocks_per_window_edge cells_per_window_edge cells_per_block_edge in
      let step := cells_per_window_step window_overlap cells_per_window_edge in
      match window_grid nblocks_x nblocks_y bpw step with
      | Raise e => Raise e
      | Ok grid =>
          let window (xy : Z * Z) :=
            let xb_begin := fst xy * step in
            let yb_begin := snd xy * step in
            let xb_end := xb_begin + bpw in
            let yb_end := yb_begin + bpw in
            let x_px_begin := xb_begin * pixels_per_cell_edge in
            let y_px_begin := yb_begin * pixels_per_cell_edge in
            let x_px_end := x_px_begin + window_size in
            let y_px_end := y_px_begin + window_size in
            let x_rec_left := py_int (inject_Z x_px_begin * window_scale) + fst x_range in
            let y_rec_top := py_int (inject_Z y_px_begin * window_scale) + fst y_range in
            let draw_size := py_int (inject_Z window_size * window_scale) in
            (cv2_resize (img_crop img y_px_begin y_px_end x_px_begin x_px_end)
                        input_img_shape,
             hog_window hog_channels yb_begin yb_end xb_begin xb_end,
             ((x_rec_left, y_rec_top),
              (x_rec_left + draw_size, y_rec_top + draw_size)) : Rectangle) in
          let found := map window grid in
          let window_imgs_hogs := map fst found in
          let window_positions := map snd found in
          let X := get_features window_imgs_hogs in
          let classification_scores := decision_function X in
          select_windows window_positions 0 classification_scores
      end
  end
  end.

(** ** The CarFinder object and the heap of arrays *)


(** numpy arrays are shared mutable objects: the heap maps a location to
    the array stored there. *)
Definition loc : Type := nat.

Inductive ndarray `{Collaborators} : Type :=
| AImg (i : Image)
| AHeat (h : Heatmap)
| AGray (g : Gray).

Record CarFinder : Type := mkCarFinder {
  search_settings : list (Z * Z * Q * Q);   (* ystart, ystop, window_scale, window_overlap *)
  x_range : Z * Z;
  max_frame_heat : Q;
  thresh_low : Q;
  thresh_high : Q;
  heatmap_history : Z;
  nlast_heatmaps : list loc;
  viz : string
}.

(** [CarFinder.__init__]; [clf] and [car_feature_vector_builder] are the
    collaborators. *)
Definition CarFinder_init (visualization : string) (history : Z)
    (thresh_low thresh_high : Q) : CarFinder :=
  {| search_settings := [(380, 500, 1%Q, (6 # 8)%Q);
                         (380, 550, (13 # 10)%Q, (5 # 8)%Q);
                         (380, 600, (22 # 10)%Q, (6 # 8)%Q)];
     x_range := (0, 1280);
     max_frame_heat := (thresh_high * (15 # 10))%Q;
     thresh_low := thresh_low;
     thresh_high := thresh_high;
     heatmap_history := history;
     nlast_heatmaps := [];
     viz := visualization |}.

(** The outcome of the call [CarFinder(clf, fvb, visualization, history,
    thresh_low, thresh_high)]: the initializer has no [raise]. *)
Definition construct (visualization : string) (history : Z)
    (thresh_low thresh_high : Q) : res CarFinder :=
  Ok (CarFinder_init visualization history thresh_low thresh_high).

Record World `{Collaborators} : Type := mkWorld {
  self : CarFinder;
  heap : list ndarray
}.

(** Computations that read and write the world and may raise. *)
Definition M `{Collaborators} (A : Type) : Type := World -> res A * World.

Definition ret `{Collaborators} {A : Type} (a : A) : M A := fun w => (Ok a, w).

Definition bind `{Collaborators} {A B : Type} (m : M A) (k : A -> M B) : M B :=
  fun w => match m w with
           | (Ok a, w') => k a w'
           | (Raise e, w') => (Raise e, w')
           end.

Declare Scope monad_scope.
Delimit Scope monad_scope with monad.
Notation "x <- m ;; k" := (bind m (fun x => k))
  (at level 61, m at next level, right associativity) : monad_scope.
Notation "' p <- m ;; k" := (bind m (fun x => match x with p => k end))
  (at level 61, p pattern, m at next level, right associativity) : monad_scope.
Notation "m ;;; k" := (bind m (fun _ => k))
  (at level 61, right associativity) : monad_scope.
Open Scope monad_scope.

Definition lift `{Collaborators} {A : Type} (r : res A) : M A := fun w => (r, w).

(** A call of a collaborator that raises [e] when it rejects its
    arguments. *)
Definition raising `{Collaborators} (o : option exn) : M unit :=
  lift (match o with Some e => Raise e | None => Ok tt end).

Definition gets `{Collaborators} {A : Type} (f : CarFinder -> A) : M A :=
  fun w => (Ok (f (self w)), w).

(** [self.nlast_heatmaps = l] *)
Definition set_nlast_heatmaps `{Collaborators} (l : list loc) : M unit :=
  fun w =>
    let s := self w in
    (Ok tt,
     mkWorld (mkCarFinder (search_settings s) (x_range s) (max_frame_heat s)
                (thresh_low s) (thresh_high s) (heatmap_history s) l (viz s))
             (heap w)).

(** A new array object. *)
Definition alloc `{Collaborators} (a : ndarray) : M loc :=
  fun w => (Ok (length (heap w)), mkWorld (self w) (heap w ++ [a])).

Definition read `{Collaborators} (l : loc) : M ndarray :=
  fun w => match nth_error (heap w) l with
           | Some a => (Ok a, w)
           | None => (Raise ValueError, w)
           end.

Fixpoint list_set {A : Type} (l : list A) (i : nat) (a : A) : list A :=
  match l, i with
  | [], _ => []
  | _ :: t, O => a :: t
  | b :: t, S j => b :: list_set t j a
  end.

(** In-place update of the array at [l]. *)
Definition write `{Collaborators} (l : loc) (a : ndarray) : M unit :=
  fun w => if (l <? length (heap w))%nat
           then (Ok tt, mkWorld (self w) (list_set (heap w) l a))
           else (Raise ValueError, w).

Definition read_img `{Collaborators} (l : loc) : M Image :=
  a <- read l ;;
  match a with AImg i => ret i | _ => lift (Raise TypeError) end.

Definition read_heat `{Collaborators} (l : loc) : M Heatmap :=
  a <- read l ;;
  match a with AHeat h => ret h | _ => lift (Raise TypeError) end.

(** [np.copy(a)] *)
Definition np_copy `{Collaborators} (l : loc) : M loc :=
  a <- read l ;; alloc a.

Fixpoint mapM `{Collaborators} {A B : Type} (f : A -> M B) (l : list A) : M (list B) :=
  match l with
  | [] => ret []
  | a :: t => b <- f a ;; bs <- mapM f t ;; ret (b :: bs)
  end.

(** [cv2.rectangle(img, pt1, pt2, color, thickness)] draws into [img] and
    returns it. *)
Definition cv2_rectangle_at `{Collaborators} (l : loc) (bbox : Rectangle)
    (color : Color) (thick : Z) : M loc :=
  a <- read_img l ;;
  write l (AImg (cv2_rectangle a (fst bbox) (snd bbox) color thick)) ;;;
  ret l.

Fixpoint draw_each `{Collaborators} (l : loc) (rectangles : list Rectangle)
    (color : Color) (thick : Z) : M loc :=
  match rectangles with
  | [] => ret l
  | bbox :: rest =>
      l' <- cv2_rectangle_at l bbox color thick ;;
      draw_each l' rest color thick
  end.

(** ** draw_rectangles *)
Definition draw_rectangles `{Collaborators} (img : loc) (rectangles : list Rectangle)
    (color : Color) (thick : Z) : M loc :=
  imcopy <- np_copy img ;;
  draw_each imcopy rectangles color thick ;;;
  ret imcopy.

(** ** CarFinder.window_search_cars *)

Definition window_search_cars `{Collaborators} (img : loc) (x_range y_range : Z * Z)
    (window_scale window_overlap : Q) : M (list Rectangle * list Q) :=
  c <- np_copy img ;;
  a <- read_img c ;;
  lift (window_search_crop
          (img_crop a (fst y_range) (snd y_range) (fst x_range) (snd x_range))
          x_range y_range window_scale window_overlap).

(** ** CarFinder.find_cars *)

(** The search over all scales: [windows += w; window_scores += ws]. *)
Fixpoint search_scales `{Collaborators} (img : loc) (x_range : Z * Z)
    (settings : list (Z * Z * Q * Q)) : M (list Rectangle * list Q) :=
  match settings with
  | [] => ret ([], [])
  | (ystart, ystop, scale, overlap) :: rest =>
      ' (w, ws) <- window_search_cars img x_range (ystart, ystop) scale overlap ;;
      ' (windows, window_scores) <- search_scales img x_range rest ;;
      ret (w ++ windows, ws ++ window_scores)
  end.

(** What the search returns for a frame with pixels [a]: the copy only
    protects the frame, the result depends on its contents alone. *)
Definition window_search_pure `{Collaborators} (a : Image) (x_range y_range : Z * Z)
    (window_scale window_overlap : Q) : res (list Rectangle * list Q) :=
  window_search_crop
    (img_crop a (fst y_range) (snd y_range) (fst x_range) (snd x_range))
    x_range y_range window_scale window_overlap.

Fixpoint search_scales_pure `{Collaborators} (a : Image) (x_range : Z * Z)
    (settings : list (Z * Z * Q * Q)) : res (list Rectangle * list Q) :=
  match settings with
  | [] => Ok ([], [])
  | (ystart, ystop, scale, overlap) :: rest =>
      match window_search_pure a x_range (ystart, ystop) scale overlap with
      | Raise e => Raise e
      | Ok (w, ws) =>
          match search_scales_pure a x_range rest with
          | Raise e => Raise e
          | Ok (windows, window_scores) => Ok (w ++ windows, ws ++ window_scores)
          end
      end
  end.

(** The capped heatmap of a frame with pixels [a]. *)
Definition frame_heatmap `{Collaborators} (cf : CarFinder) (a : Image) : res Heatmap :=
  match search_scales_pure a (x_range cf) (search_settings cf) with
  | Raise e => Raise e
  | Ok (windows, window_scores) =>
      Ok (cap_heat (max_frame_heat cf)
                   (gen_heatmap windows window_scores (img_shape a)))
  end.

(** [len(self.nlast_heatmaps) * thresh] *)
Definition scaled_thresh (nlast : list loc) (thresh : Q) : Q :=
  (inject_Z (Z.of_nat (length nlast)) * thresh)%Q.

(** The history update of streaming mode: append, then keep the last
    [heatmap_history] entries when there are more. *)
Definition push_history (heatmap_history : Z) (nlast : list loc) (current : loc) : list loc :=
  let appended := nlast ++ [current] in
  if Z.of_nat (length appended) >? heatmap_history
  then py_slice_from (- heatmap_history) appended
  else appended.

Record Detection : Type := mkDetection {
  det_windows : list Rectangle;
  det_heatmap : loc;
  det_thresh_low : Q;
  det_thresh_high : Q;
  det_bboxes : list Rectangle
}.

(** Lines 110-119: the search over the scales and this frame's capped
    heatmap. *)
Definition make_heatmap `{Collaborators} (img : loc) : M (list Rectangle * loc) :=
  settings <- gets search_settings ;;
  xr <- gets x_range ;;
  ' (windows, window_scores) <- search_scales img xr settings ;;
  a <- read_img img ;;
  current_heatmap <- alloc (AHeat (gen_heatmap windows window_scores (img_shape a))) ;;
  cap <- gets max_frame_heat ;;
  h <- read_heat current_heatmap ;;
  write current_heatmap (AHeat (cap_heat cap h)) ;;;
  ret (windows, current_heatmap).

(** Lines 120-128: the fused heatmap. *)
Definition fuse `{Collaborators} (current_heatmap : loc) (single : bool) : M loc :=
  if single then ret current_heatmap
  else
    (* Add heatmap to history *)
    nlast <- gets nlast_heatmaps ;;
    capacity <- gets heatmap_history ;;
    set_nlast_heatmaps (push_history capacity nlast current_heatmap) ;;;
    (* Integrate over history *)
    nlast <- gets nlast_heatmaps ;;
    hs <- mapM read_heat nlast ;;
    alloc (AHeat (py_sum hs)).

(** Lines 130-138: thresholds, labels, regions hot enough at their center. *)
Definition extract_regions `{Collaborators} (heatmap : loc) : M (Q * Q * list Rectangle) :=
  nlast <- gets nlast_heatmaps ;;
  tl <- gets thresh_low ;;
  th <- gets thresh_high ;;
  let heat_thresh_low := scaled_thresh nlast tl in
  let heat_thresh_high := scaled_thresh nlast th in
  heatmap_thresh <- np_copy heatmap ;;
  hm <- read_heat heatmap ;;
  ht <- read_heat heatmap_thresh ;;
  write heatmap_thresh (AHeat (zero_below heat_thresh_low hm ht)) ;;;
  ht <- read_heat heatmap_thresh ;;
  let labels := label ht in
  bboxes <- lift (hot_label_regions labels ht heat_thresh_high) ;;
  ret (heat_thresh_low, heat_thresh_high, bboxes).

(** Lines 110-138 together. *)
Definition detect `{Collaborators} (img : loc) (single : bool) : M Detection :=
  ' (windows, current_heatmap) <- make_heatmap img ;;
  heatmap <- fuse current_heatmap single ;;
  ' (heat_thresh_low, heat_thresh_high, bboxes) <- extract_regions heatmap ;;
  ret (mkDetection windows heatmap heat_thresh_low heat_thresh_high bboxes).

Definition read_gray `{Collaborators} (l : loc) : M Gray :=
  a <- read l ;;
  match a with AGray g => ret g | _ => lift (Raise TypeError) end.

(** [np.zeros_like(a)] *)
Definition zeros_like (g : Gray) : Gray := map (map (fun _ => 0)) g.

(** Lines 140-153: the returned image. *)
Definition visualize `{Collaborators} (img : loc) (d : Detection) : M loc :=
  ret_img <- np_copy img ;;
  ret_img <- draw_each ret_img (det_bboxes d) (0, 255, 0) 6 ;;
  v <- gets viz ;;
  if String.eqb v "windows" then
    let heatmap := det_heatmap d in
    let heat_thresh_high := det_thresh_high d in
    heatmap_limtd <- np_copy heatmap ;;
    hm <- read_heat heatmap ;;
    hl <- read_heat heatmap_limtd ;;
    write heatmap_limtd
      (AHeat (masked_set (fun m => Qgtb m heat_thresh_high) heat_thresh_high hm hl)) ;;;
    hl <- read_heat heatmap_limtd ;;
    raising (cv2_normalize_error hl) ;;;
    write heatmap_limtd (AHeat (cv2_normalize_minmax hl 0 255)) ;;;
    hl <- read_heat heatmap_limtd ;;
    heatmap_limtd <- alloc (AGray (astype_uint8 hl)) ;;
    g <- read_gray heatmap_limtd ;;
    z1 <- alloc (AGray (zeros_like g)) ;;
    z2 <- alloc (AGray (zeros_like g)) ;;
    g1 <- read_gray z1 ;;
    g2 <- read_gray z2 ;;
    raising (cv2_merge_error g g1 g2) ;;;
    heatmap_limtd <- alloc (AImg (cv2_merge g g1 g2)) ;;
    r <- read_img ret_img ;;
    m <- read_img heatmap_limtd ;;
    raising (cv2_addWeighted_error r m) ;;;
    heatmap_overlay <- alloc (AImg (cv2_addWeighted r (4 # 10) m (6 # 10) 0)) ;;
    draw_rectangles heatmap_overlay (det_windows d) (0, 0, 180) 1
  else ret ret_img.

(** find_cars together with the detections it drew. *)
Definition find_cars_detections `{Collaborators} (img : loc) (single : bool)
    : M (Detection * loc) :=
  d <- detect img single ;;
  ret_img <- visualize img d ;;
  ret (d, ret_img).

Definition find_cars `{Collaborators} (img : loc) (single : bool) : M loc :=
  ' (_, ret_img) <- find_cars_detections img single ;;
  ret ret_img.

(** ** A small executable instance of the collaborators

    Grayscale images, one HOG block per pixel, a classifier that scores a
    window by the brightness of its patch, and connected-component
    labelling with the default (4-connected) structure of
    [scipy.ndimage.label], labels numbered in row-major order of their
    first pixel.  The instance runs find_cars on concrete frames. *)

Module Toy.

Definition TImage : Type := list (list Z).

Definition crop (a : TImage) (y0 y1 x0 x1 : Z) : TImage :=
  let rows := firstn (Z.to_nat (slice_bound y1 (Z.of_nat (length a)))) a in
  let rows := skipn (Z.to_nat (slice_bound y0 (Z.of_nat (length a)))) rows in
  map (fun row =>
         skipn (Z.to_nat (slice_bound x0 (Z.of_nat (length row))))
               (firstn (Z.to_nat (slice_bound x1 (Z.of_nat (length row)))) row)) rows.

Definition shape (a : TImage) : nat * nat := (length a, length (hd [] a)).

(** Paints the outline cells of the box with the first colour channel. *)
Definition rectangle (a : TImage) (p0 p1 : Point) (color : Color) (thick : Z) : TImage :=
  mapi (fun y row =>
    mapi (fun x v =>
      let yz := Z.of_nat y in
      let xz := Z.of_nat x in
      if ((snd p0 <=? yz) && (yz <=? snd p1) && (fst p0 <=? xz) && (xz <=? fst p1)) &&
         ((yz =? snd p0) || (yz =? snd p1) || (xz =? fst p0) || (xz =? fst p1))
      then fst (fst color) + snd (fst color) + snd color else v) row) a.

Definition nonzero (hm : Heatmap) (y x : nat) : bool :=
  match cell hm y x with
  | Some v => negb (Qeq_bool v 0)
  | None => false
  end.

Definition lab_get (lab : list (list Z)) (y x : nat) : Z := nth x (nth y lab []) 0.

Definition lab_set (lab : list (list Z)) (y x : nat) (v : Z) : list (list Z) :=
  mapi (fun yy row => if (yy =? y)%nat then list_set row x v else row) lab.

(** Flood fill of one component from a work list, 4-connected. *)
Fixpoint flood (fuel : nat) (hm : Heatmap) (id : Z) (work : list (nat * nat))
    (lab : list (list Z)) : list (list Z) :=
  match fuel with
  | O => lab
  | S fuel' =>
      match work with
      | [] => lab
      | (y, x) :: rest =>
          if nonzero hm y x && (lab_get lab y x =? 0)
          then flood fuel' hm id
                 ((S y, x) :: (y, S x) :: (Nat.pred y, x) :: (y, Nat.pred x) :: rest)
                 (lab_set lab y x id)
          else flood fuel' hm id rest lab
      end
  end.

Definition positions (hm : Heatmap) : list (nat * nat) :=
  concat (mapi (fun y row => mapi (fun x _ => (y, x)) row) hm).

Definition ccl (hm : Heatmap) : Labels :=
  let fuel := (5 * length (positions hm) + 5)%nat in
  fold_left
    (fun (st : Labels) (p : nat * nat) =>
       let (lab, n) := st in
       if nonzero hm (fst p) (snd p) && (lab_get lab (fst p) (snd p) =? 0)
       then (flood fuel hm (n + 1) [p] lab, n + 1)
       else st)
    (positions hm)
    (map (map (fun _ => 0)) hm, 0).

Definition brightness (a : TImage) : Z := fold_left Z.add (concat a) 0.

#[export] Instance toy : Collaborators := {|
  Image := TImage;
  Hog := TImage;
  Features := list Z;
  img_shape := shape;
  img_crop := crop;
  cv2_resize := fun a _ => a;
  cv2_rectangle := rectangle;
  cv2_normalize_minmax := fun h _ _ => h;
  astype_uint8 := map (map Qfloor);
  cv2_merge := fun g _ _ => g;
  cv2_addWeighted := fun a _ b _ _ => map2 (map2 Z.add) a b;
  cv2_normalize_error := fun h => match h with [] => Some CvError | _ :: _ => None end;
  cv2_merge_error := fun _ _ _ => None;
  cv2_addWeighted_error := fun _ _ => None;
  label := ccl;
  hog_features := fun a => a;
  hog_nblocks_x := fun a => Z.of_nat (snd (shape a));
  hog_nblocks_y := fun a => Z.of_nat (fst (shape a));
  hog_window := fun _ _ _ _ _ => [];
  input_img_shape := (2, 2);
  pixels_per_cell_edge := 1;
  cells_per_block_edge := 1;
  get_features := map (fun p => brightness (fst p));
  decision_function := map (fun b => inject_Z b - (1 # 2))%Q
|}.

(** A finder over 5x5 frames: one scale, windows of 2x2 pixels stepping by
    one pixel. *)
Definition finder (visualization : string) (history : Z) (tl th : Q) : CarFinder :=
  {| search_settings := [(0, 5, 1%Q, (1 # 2)%Q)];
     x_range := (0, 5);
     max_frame_heat := (th * (15 # 10))%Q;
     thresh_low := tl;
     thresh_high := th;
     heatmap_history := history;
     nlast_heatmaps := [];
     viz := visualization |}.

(** A dark frame with one bright pixel at (x, y) = (2, 2). *)
Definition frame : TImage :=
  [[0;0;0;0;0]; [0;0;0;0;0]; [0;0;1;0;0]; [0;0;0;0;0]; [0;0;0;0;0]].

(** A fresh finder in diagnostic mode and the frame, as the caller's array
    at location 0. *)
Definition frame_array : ndarray := AImg frame.
Definition world (visualization : string) (history : Z) : World :=
  mkWorld (finder visualization history (1 # 10) (1 # 4)) [frame_array].

(** A frame whose bright pixels run down column 3 and along row 3, with a
    dim pixel at (2, 2), and a finder whose low threshold is above its high
    threshold. *)
Definition hook_frame : TImage :=
  [[0;0;0;2;0]; [0;0;0;2;0]; [0;0;1;2;0]; [2;2;2;2;0]; [0;0;0;0;0]].
Definition hook_world : World :=
  mkWorld (finder "cars" 16 (3 # 4) (1 # 2)) [AImg hook_frame].

(** The detection of the first streamed frame of a fresh finder. *)
Definition first_detection : Detection :=
  match fst (detect 0%nat false (world "cars" 16)) with
  | Ok d => d
  | Raise _ => mkDetection [] 0%nat 0%Q 0%Q []
  end.
Definition first_world : World := snd (detect 0%nat false (world "cars" 16)).

(** Two overlapping boxes and their scores. *)
Definition boxes : list Rectangle := [((0, 0), (2, 2)); ((1, 1), (3, 3))].
Definition box_scores : list Q := [1%Q; 2%Q].
Definition box_b : Rectangle := ((1, 1), (3, 3)).

(** Two boxes side by side and their scores. *)
Definition tiles : list Rectangle := [((0, 0), (2, 2)); ((2, 0), (3, 2))].
Definition tile_scores : list Q := [1%Q; 2%Q].

End Toy.

(** ** Vocabulary of the properties *)

(** A cell (x, y) is covered by a rectangle when it lies in the half-open
    box [x0 <= x < x1], [y0 <= y < y1]. *)
Definition coversb (r : Rectangle) (x y : nat) : bool :=
  (rx0 r <=? Z.of_nat x) && (Z.of_nat x <? rx1 r) &&
  (ry0 r <=? Z.of_nat y) && (Z.of_nat y <? ry1 r).

(** Rectangles in image pixel coordinates: no negative coordinate. *)
Definition pixel_rect (r : Rectangle) : Prop :=
  0 <= rx0 r /\ 0 <= ry0 r /\ 0 <= rx1 r /\ 0 <= ry1 r.

(** The sum of the scores of the rectangles covering (x, y). *)
Fixpoint covering_sum (x y : nat) (l : list (Rectangle * Q)) : Q :=
  match l with
  | [] => 0%Q
  | (r, s) :: t =>
      if coversb r x y then (s + covering_sum x y t)%Q else covering_sum x y t
  end.

(** No cell is covered by two entries of the list. *)
Fixpoint non_overlapping (l : list (Rectangle * Q)) : Prop :=
  match l with
  | [] => True
  | (r, _) :: t =>
      (forall r' s' x y, In (r', s') t -> coversb r x y = true -> coversb r' x y = false)
      /\ non_overlapping t
  end.

(** A run of streaming-mode calls, one per frame, as [fl_image] makes them. *)
Definition stream `{Collaborators} (imgs : list loc) : M (list loc) :=
  mapM (fun img => find_cars img false) imgs.

(** The same finder with another visualization option. *)
Definition with_viz `{Collaborators} (v : string) (w : World) : World :=
  let s := self w in
  mkWorld (mkCarFinder (search_settings s) (x_range s) (max_frame_heat s)
             (thresh_low s) (thresh_high s) (heatmap_history s)
             (nlast_heatmaps s) v)
          (heap w).

Definition res_map {A B : Type} (f : A -> B) (r : res A) : res B :=
  match r with
  | Ok a => Ok (f a)
  | Raise e => Raise e
  end.

(** The same finder with another history. *)
Definition with_history (s : CarFinder) (l : list loc) : CarFinder :=
  mkCarFinder (search_settings s) (x_range s) (max_frame_heat s)
    (thresh_low s) (thresh_high s) (heatmap_history s) l (viz s).

(** The last [c] elements of a list. *)
Definition lastn {A : Type} (c : nat) (l : list A) : list A :=
  skipn (length l - c) l.

(** Every heatmap of the history is a live array. *)
Definition history_live `{Collaborators} (w : World) : Prop :=
  Forall (fun l => (l < length (heap w))%nat) (nlast_heatmaps (self w)).

(** The core test of hot_label_regions on a bounding box. *)
Definition core_hot (heatmap : Heatmap) (threshold : Q) (bbox : Rectangle) : bool :=
  match heat_at heatmap (fst (bbox_core bbox)) (snd (bbox_core bbox)) with
  | Some v => Qgeb v threshold
  | None => false
  end.

(** No cell of the heatmap is negative. *)
Definition heat_nonneg (hm : Heatmap) : Prop :=
  Forall (Forall (fun v => (0 <= v)%Q)) hm.

(** [m] leaves the first [n] arrays of the heap as they are, whether it
    returns or raises, and a result it returns satisfies [Q]. *)
Definition keeps `{Collaborators} {A : Type} (n : nat) (m : M A) (Q : A -> Prop) : Prop :=
  forall w, (n <= length (heap w))%nat ->
    firstn n (heap (snd (m w))) = firstn n (heap w) /\
    (n <= length (heap (snd (m w))))%nat /\
    forall a, fst (m w) = Ok a -> Q a.

(** [m] does not assign to a field of [self]. *)
Definition keeps_self `{Collaborators} {A : Type} (m : M A) : Prop :=
  forall w, self (snd (m w)) = self w.

(** Two finders that differ at most in their visualization option, and two
    worlds that differ at most there. *)
Definition same_but_viz (c1 c2 : CarFinder) : Prop :=
  search_settings c1 = search_settings c2 /\ x_range c1 = x_range c2 /\
  max_frame_heat c1 = max_frame_heat c2 /\ thresh_low c1 = thresh_low c2 /\
  thresh_high c1 = thresh_high c2 /\ heatmap_history c1 = heatmap_history c2 /\
  nlast_heatmaps c1 = nlast_heatmaps c2.

Definition sim `{Collaborators} (w1 w2 : World) : Prop :=
  same_but_viz (self w1) (self w2) /\ heap w1 = heap w2.

(** [m] neither reads nor writes the visualization option. *)
Definition viz_blind `{Collaborators} {A : Type} (m : M A) : Prop :=
  forall w1 w2, sim w1 w2 ->
    fst (m w1) = fst (m w2) /\ sim (snd (m w1)) (snd (m w2)).

(** The body of the loop of gen_heatmap. *)
Definition heat_step (heatmap : Heatmap) (rs : Rectangle * Q) : Heatmap :=
  let (rec, score) := rs in
  slice_add (ry0 rec) (ry1 rec) (rx0 rec) (rx1 rec) score heatmap.

(** [round(q)] as the specification words it: the nearest integer, a tie
    going to the even one. *)
Definition spec_round (q : Q) : Z :=
  let f := Qfloor q in
  let d := (q - inject_Z f)%Q in
  if Qltb d (1 # 2) then f
  else if Qgtb d (1 # 2) then f + 1
  else if Z.even f then f else f + 1.

(** ** Vocabulary of the further properties *)

(** An [h] x [w] array: [h] rows of [w] columns. *)
Definition heat_shape (h w : nat) (hm : Heatmap) : Prop :=
  length hm = h /\ Forall (fun row => length row = w) hm.

(** Whether the slice [y0:y1, x0:x1] of an [h] x [w] array contains the
    cell (x, y), under Python's reading of the bounds. *)
Definition slice_covers (h w : nat) (r : Rectangle) (x y : nat) : bool :=
  in_slice (ry0 r) (ry1 r) h y && in_slice (rx0 r) (rx1 r) w x.

(** The sum of the scores of the rectangles whose slice contains (x, y). *)
Fixpoint slice_sum (h w x y : nat) (l : list (Rectangle * Q)) : Q :=
  match l with
  | [] => 0%Q
  | (r, s) :: t =>
      if slice_covers h w r x y then (s + slice_sum h w x y t)%Q
      else slice_sum h w x y t
  end.

(** Example data of the further properties. *)
Module Samples.

(** A box with a negative top-left vertex and a bottom-right vertex beyond
    a 4 x 4 image. *)
Definition wrap_box : Rectangle := ((-2, -1), (9, 9)).

(** The search of the toy instance over the whole 5 x 5 frame, and what it
    returns. *)
Definition toy_settings : list (Z * Z * Q * Q) := [(0, 5, 1%Q, (1 # 2)%Q)].
Definition toy_search : res (list Rectangle * list Q) :=
  @window_search_crop Toy.toy Toy.frame (0, 5) (0, 5) 1%Q (1 # 2)%Q.
Definition toy_search_scales : res (list Rectangle * list Q) :=
  @search_scales_pure Toy.toy Toy.frame (0, 5) toy_settings.
Definition toy_windows : list Rectangle :=
  [((1, 1), (3, 3)); ((1, 2), (3, 4)); ((2, 1), (4, 3)); ((2, 2), (4, 4))].
Definition toy_scores : list Q := [(1 # 2)%Q; (1 # 2)%Q; (1 # 2)%Q; (1 # 2)%Q].

(** A label array with two labels, the box of label 1, and a heatmap of
    the same shape. *)
Definition label_arr : list (list Z) := [[0; 1; 1]; [0; 0; 1]; [2; 0; 0]].
Definition label_box : Rectangle := ((1, 0), (2, 1)).
Definition label_heat : Heatmap :=
  [[0; 1; 3]; [0; 0; 1]; [(1 # 2); 0; 0]]%Q.

End Samples.

(** A search tuple whose windows stay in pixel coordinates: the region
    starts at a non-negative row, the scale is not negative and the
    overlap is at most 1. *)
Definition setting_in_image (t : Z * Z * Q * Q) : Prop :=
  let '(ystart, _, scale, overlap) := t in
  0 <= ystart /\ (0 <= scale)%Q /\ (overlap <= 1)%Q.

(** The side of the rectangle recorded for a window,
    [int(window_size * window_scale)]. *)
Definition draw_size `{Collaborators} (window_scale : Q) : Z :=
  py_int (inject_Z (fst input_img_shape) * window_scale)%Q.

(** Cell (x, y) of the label array holds [label_id]. *)
Definition labelled (arr : list (list Z)) (label_id : Z) (y x : nat) : Prop :=
  exists row, nth_error arr y = Some row /\ nth_error row x = Some label_id.

(** The sum over a list of heatmaps of their values at cell (x, y). *)
Fixpoint cell_total (y x : nat) (hs : list Heatmap) : Q :=
  match hs with
  | [] => 0%Q
  | h :: t =>
      match cell h y x with
      | Some v => (v + cell_total y x t)%Q
      | None => cell_total y x t
      end
  end.

(** The image after [cv2.rectangle] has drawn each rectangle in turn. *)
Definition draw_all `{Collaborators} (a : Image) (rectangles : list Rectangle)
    (color : Color) (thick : Z) : Image :=
  fold_left (fun im bbox => cv2_rectangle im (fst bbox) (snd bbox) color thick)
            rectangles a.

(** The heat of the diagnostic overlay: the fused heatmap clamped at the
    high threshold, normalized to 0..255 and cast to uint8. *)
Definition overlay_heat `{Collaborators} (hm : Heatmap) (heat_thresh_high : Q) : Gray :=
  astype_uint8
    (cv2_normalize_minmax
       (masked_set (fun m => Qgtb m heat_thresh_high) heat_thresh_high hm hm) 0 255).

(** The diagnostic overlay: the heat in the first channel, blended 0.6 to
    0.4 over the image. *)
Definition heat_overlay `{Collaborators} (a : Image) (hm : Heatmap)
    (heat_thresh_high : Q) : Image :=
  let g := overlay_heat hm heat_thresh_high in
  cv2_addWeighted a (4 # 10) (cv2_merge g (zeros_like g) (zeros_like g)) (6 # 10) 0.

(** Every heatmap of the history is a float array without a negative
    value. *)
Definition history_nonneg `{Collaborators} (w : World) : Prop :=
  Forall (fun l => exists h, nth_error (heap w) l = Some (AHeat h) /\ heat_nonneg h)
         (nlast_heatmaps (self w)).

(** ** main: the path of the output video *)

(** [s.rsplit(c, 1)] when [c] occurs in [s]: the parts before and after its
    last occurrence. *)
Fixpoint rsplit1 (c : Ascii.ascii) (s : string) : option (string * string) :=
  match s with
  | EmptyString => None
  | String a s' =>
      match rsplit1 c s' with
      | Some (before, after) => Some (String a before, after)
      | None => if Ascii.eqb a c then Some (EmptyString, s') else None
      end
  end.

(** [s.split(c)[-1]] *)
Definition last_segment (c : Ascii.ascii) (s : string) : string :=
  match rsplit1 c s with
  | Some (_, after) => after
  | None => s
  end.

(** Lines 252-253: [name, ext = video_in.split('/')[-1].rsplit('.', 1)],
    the unpacking raising ValueError when rsplit returns one part, then
    ['./output/{}_{}.{}'.format(name, visualization, ext)]. *)
Definition video_out_path (video_in visualization : string) : res string :=
  match rsplit1 "."%char (last_segment "/"%char video_in) with
  | Some (name, ext) =>
      Ok ("./output/" ++ name ++ "_" ++ visualization ++ "." ++ ext)%string
  | None => Raise ValueError
  end.

(** The character [c] occurs in [s]. *)
Fixpoint occurs (c : Ascii.ascii) (s : string) : Prop :=
  match s with
  | EmptyString => False
  | String a s' => a = c \/ occurs c s'
  end.

(** * Properties *)

Unset Implicit Arguments.

(** ** Indexed maps and slices *)

Lemma nth_error_mapi_from {A B : Type} (f : nat -> A -> B) (l : list A) :
  forall i k, nth_error (mapi_from i f l) k = option_map (f (i + k)%nat) (nth_error l k).
Proof.
  induction l as [|a l IH]; intros i k.
  - destruct k; reflexivity.
  - destruct k as [|k]; simpl.
    + now rewrite Nat.add_0_r.
    + rewrite IH. now rewrite Nat.add_succ_r.
Qed.

Lemma nth_error_mapi {A B : Type} (f : nat -> A -> B) (l : list A) (k : nat) :
  nth_error (mapi f l) k = option_map (f k) (nth_error l k).
Proof. unfold mapi. now rewrite nth_error_mapi_from. Qed.

Lemma length_mapi_from {A B : Type} (f : nat -> A -> B) (l : list A) :
  forall i, length (mapi_from i f l) = length l.
Proof. induction l; intros; simpl; [reflexivity | now rewrite IHl]. Qed.

Lemma length_mapi {A B : Type} (f : nat -> A -> B) (l : list A) :
  length (mapi f l) = length l.
Proof. apply length_mapi_from. Qed.

Lemma in_slice_pixel (lo hi : Z) (n k : nat) :
  0 <= lo -> 0 <= hi -> (k < n)%nat ->
  in_slice lo hi n k = (lo <=? Z.of_nat k) && (Z.of_nat k <? hi).
Proof.
  intros Hlo Hhi Hk. unfold in_slice, slice_bound.
  destruct (lo <? 0) eqn:E1; [apply Z.ltb_lt in E1; lia|].
  destruct (hi <? 0) eqn:E2; [apply Z.ltb_lt in E2; lia|].
  apply eq_true_iff_eq. rewrite !andb_true_iff, !Z.leb_le, !Z.ltb_lt. lia.
Qed.

Lemma cell_slice_add (y0 y1 x0 x1 : Z) (s : Q) (hm : Heatmap) (y x : nat) (row : list Q) (v : Q) :
  nth_error hm y = Some row -> nth_error row x = Some v ->
  cell (slice_add y0 y1 x0 x1 s hm) y x =
  Some (if in_slice y0 y1 (length hm) y && in_slice x0 x1 (length row) x
        then (v + s)%Q else v).
Proof.
  intros Hy Hx. unfold cell, slice_add. rewrite nth_error_mapi, Hy. simpl.
  destruct (in_slice y0 y1 (length hm) y); simpl.
  - unfold row_slice_add. rewrite nth_error_mapi, Hx. reflexivity.
  - now rewrite Hx.
Qed.

Lemma cell_inv (hm : Heatmap) (y x : nat) (v : Q) :
  cell hm y x = Some v ->
  exists row, nth_error hm y = Some row /\ nth_error row x = Some v.
Proof.
  unfold cell. destruct (nth_error hm y) as [row|]; [|discriminate].
  intros H. now exists row.
Qed.

Lemma cell_slice_add_pixel (r : Rectangle) (s : Q) (hm : Heatmap) (y x : nat) (v : Q) :
  pixel_rect r -> cell hm y x = Some v ->
  cell (slice_add (ry0 r) (ry1 r) (rx0 r) (rx1 r) s hm) y x =
  Some (if coversb r x y then (v + s)%Q else v).
Proof.
  intros (Hx0 & Hy0 & Hx1 & Hy1) Hc.
  destruct (cell_inv _ _ _ _ Hc) as (row & Hy & Hx).
  rewrite (cell_slice_add _ _ _ _ _ _ _ _ _ _ Hy Hx).
  assert (Hylt : (y < length hm)%nat) by (apply nth_error_Some; congruence).
  assert (Hxlt : (x < length row)%nat) by (apply nth_error_Some; congruence).
  rewrite !in_slice_pixel by assumption.
  unfold coversb.
  destruct (ry0 r <=? Z.of_nat y), (Z.of_nat y <? ry1 r),
           (rx0 r <=? Z.of_nat x), (Z.of_nat x <? rx1 r); reflexivity.
Qed.

Lemma cell_np_zeros (h w y x : nat) :
  (y < h)%nat -> (x < w)%nat -> cell (np_zeros h w) y x = Some 0%Q.
Proof.
  intros Hy Hx. unfold cell, np_zeros.
  rewrite nth_error_repeat by assumption. now rewrite nth_error_repeat.
Qed.

(** ** gen_heatmap: additive rasterisation (C6, C10) *)

Lemma gen_heatmap_fold (rectangles : list Rectangle) (heat : list Q) (shape : nat * nat) :
  gen_heatmap rectangles heat shape =
  fold_left heat_step (combine rectangles heat) (np_zeros (fst shape) (snd shape)).
Proof. reflexivity. Qed.

Lemma cell_fold_heat (l : list (Rectangle * Q)) :
  forall (hm : Heatmap) (y x : nat) (v : Q),
    Forall pixel_rect (map fst l) ->
    cell hm y x = Some v ->
    exists v', cell (fold_left heat_step l hm) y x = Some v' /\
               (v' == v + covering_sum x y l)%Q.
Proof.
  induction l as [|[r s] l IH]; intros hm y x v Hpix Hc; simpl.
  - exists v. split; [assumption | ring].
  - inversion Hpix as [|? ? Hr Hl]; subst.
    pose proof (cell_slice_add_pixel r s hm y x v Hr Hc) as Hstep.
    destruct (IH _ _ _ _ Hl Hstep) as (v' & Hv' & Heq).
    exists v'. split; [exact Hv'|].
    rewrite Heq. destruct (coversb r x y); ring.
Qed.

Lemma pixel_rect_combine (rs : list Rectangle) :
  forall ss : list Q, Forall pixel_rect rs -> Forall pixel_rect (map fst (combine rs ss)).
Proof.
  induction rs as [|r rs IH]; intros ss H; simpl; [constructor|].
  destruct ss as [|s ss]; simpl; [constructor|].
  inversion H; subst. constructor; auto.
Qed.

Lemma covering_sum_uncovered (x y : nat) (l : list (Rectangle * Q)) :
  (forall r s, In (r, s) l -> coversb r x y = false) ->
  (covering_sum x y l == 0)%Q.
Proof.
  induction l as [|[r s] l IH]; intros H; simpl; [reflexivity|].
  rewrite (H r s) by (now left). apply IH. intros r' s' Hin. apply (H r' s'). now right.
Qed.

Lemma covering_sum_single (x y : nat) (l : list (Rectangle * Q)) :
  non_overlapping l ->
  forall r s, In (r, s) l -> coversb r x y = true ->
  (covering_sum x y l == s)%Q.
Proof.
  induction l as [|[r0 s0] l IH]; intros Hno r s Hin Hcov; [contradiction|].
  destruct Hno as [Hhead Htail]. simpl.
  destruct Hin as [Heq | Hin].
  - inversion Heq; subst. rewrite Hcov.
    rewrite covering_sum_uncovered; [ring|].
    intros r' s' Hin'. exact (Hhead r' s' x y Hin' Hcov).
  - destruct (coversb r0 x y) eqn:E.
    + rewrite (Hhead r s x y Hin E) in Hcov. discriminate.
    + exact (IH Htail r s Hin Hcov).
Qed.

Lemma gen_heatmap_cell_sum (rectangles : list Rectangle) (rectangle_heat : list Q)
    (h w y x : nat) :
  Forall pixel_rect rectangles -> (y < h)%nat -> (x < w)%nat ->
  exists v,
    cell (gen_heatmap rectangles rectangle_heat (h, w)) y x = Some v /\
    (v == covering_sum x y (combine rectangles rectangle_heat))%Q.
Proof.
  intros Hpix Hy Hx. rewrite gen_heatmap_fold. simpl fst; simpl snd.
  destruct (cell_fold_heat (combine rectangles rectangle_heat)
              (np_zeros h w) y x 0%Q
              (pixel_rect_combine _ _ Hpix) (cell_np_zeros h w y x Hy Hx))
    as (v & Hv & Heq).
  exists v. split; [exact Hv | rewrite Heq; ring].
Qed.

(** C6: every cell of the raw heatmap holds the sum of the scores of the
    rectangles (in pixel coordinates) covering it; with non-overlapping
    rectangles a covered cell holds exactly the score of its rectangle, and
    a cell no rectangle covers holds 0. *)
Theorem gen_heatmap_additive (rectangles : list Rectangle) (rectangle_heat : list Q)
    (h w y x : nat) :
  Forall pixel_rect rectangles -> (y < h)%nat -> (x < w)%nat ->
  exists v,
    cell (gen_heatmap rectangles rectangle_heat (h, w)) y x = Some v /\
    (v == covering_sum x y (combine rectangles rectangle_heat))%Q /\
    ((forall r s, In (r, s) (combine rectangles rectangle_heat) -> coversb r x y = false) ->
     (v == 0)%Q) /\
    (non_overlapping (combine rectangles rectangle_heat) ->
     forall r s, In (r, s) (combine rectangles rectangle_heat) ->
                 coversb r x y = true -> (v == s)%Q).
Proof.
  intros Hpix Hy Hx.
  destruct (gen_heatmap_cell_sum rectangles rectangle_heat h w y x Hpix Hy Hx)
    as (v & Hv & Hsum).
  exists v. repeat split; try assumption.
  - intros Hun. rewrite Hsum. now apply covering_sum_uncovered.
  - intros Hno r s Hin Hcov. rewrite Hsum. now apply (covering_sum_single x y _ Hno r s).
Qed.

Lemma coversb_true (r : Rectangle) (x y : nat) :
  coversb r x y = true <->
  rx0 r <= Z.of_nat x < rx1 r /\ ry0 r <= Z.of_nat y < ry1 r.
Proof.
  unfold coversb. rewrite !andb_true_iff, !Z.leb_le, !Z.ltb_lt. lia.
Qed.

Lemma gen_heatmap_additive_witness :
  (Forall pixel_rect Toy.tiles /\
   non_overlapping (combine Toy.tiles Toy.tile_scores) /\
   In (((2, 0), (3, 2)), 2%Q) (combine Toy.tiles Toy.tile_scores) /\
   coversb ((2, 0), (3, 2)) 2 1 = true) /\
  exists v,
    cell (gen_heatmap Toy.tiles Toy.tile_scores (3%nat, 3%nat)) 1 2 = Some v /\
    (v == covering_sum 2 1 (combine Toy.tiles Toy.tile_scores))%Q /\
    (v == 2)%Q.
Proof.
  assert (Hpix : Forall pixel_rect Toy.tiles)
    by (unfold Toy.tiles;
        repeat (apply Forall_cons;
                  [unfold pixel_rect, rx0, ry0, rx1, ry1; simpl; lia|]);
        apply Forall_nil).
  assert (Hno : non_overlapping (combine Toy.tiles Toy.tile_scores)).
  { simpl. repeat split.
    - intros r' s' x y [Hin | []] Hc. inversion Hin; subst.
      apply not_true_is_false. intros Hc'.
      apply coversb_true in Hc. apply coversb_true in Hc'.
      unfold rx0, rx1 in *. simpl in *. lia.
    - intros r' s' x y []. }
  assert (Hin : In (((2, 0), (3, 2)), 2%Q) (combine Toy.tiles Toy.tile_scores))
    by (simpl; auto).
  assert (Hcov : coversb ((2, 0), (3, 2)) 2 1 = true) by reflexivity.
  split; [split; [exact Hpix | split; [exact Hno | split; [exact Hin | exact Hcov]]]|].
  destruct (gen_heatmap_additive Toy.tiles Toy.tile_scores 3 3 1 2 Hpix)
    as (v & Hv & Hsum & _ & Hone); [lia | lia |].
  exists v. split; [exact Hv|]. split; [exact Hsum|].
  exact (Hone Hno _ _ Hin Hcov).
Defined.

(** C10: the bottom-right vertex of a rectangle is exclusive.  Adding a
    rectangle (in pixel coordinates) to the list raises exactly the cells
    with x0 <= x < x1 and y0 <= y < y1 by its score; the cells of its row
    y1 and of its column x1 keep the value they have without it. *)
Theorem gen_heatmap_bottom_right_exclusive (r : Rectangle) (s : Q)
    (rectangles : list Rectangle) (rectangle_heat : list Q) (h w y x : nat) :
  pixel_rect r -> Forall pixel_rect rectangles -> (y < h)%nat -> (x < w)%nat ->
  exists v v',
    cell (gen_heatmap (r :: rectangles) (s :: rectangle_heat) (h, w)) y x = Some v /\
    cell (gen_heatmap rectangles rectangle_heat (h, w)) y x = Some v' /\
    (v == if (rx0 r <=? Z.of_nat x) && (Z.of_nat x <? rx1 r) &&
             (ry0 r <=? Z.of_nat y) && (Z.of_nat y <? ry1 r)
          then s + v' else v')%Q /\
    (Z.of_nat y = ry1 r \/ Z.of_nat x = rx1 r -> (v == v')%Q).
Proof.
  intros Hr Hpix Hy Hx.
  destruct (gen_heatmap_cell_sum (r :: rectangles) (s :: rectangle_heat) h w y x)
    as (v & Hv & Hsum); [now constructor | assumption | assumption |].
  destruct (gen_heatmap_cell_sum rectangles rectangle_heat h w y x)
    as (v' & Hv' & Hsum'); [assumption | assumption | assumption |].
  exists v, v'. split; [exact Hv|]. split; [exact Hv'|].
  fold (coversb r x y).
  assert (Hstep : (v == if coversb r x y then s + v' else v')%Q).
  { rewrite Hsum. cbn [combine covering_sum].
    destruct (coversb r x y); rewrite Hsum'; reflexivity. }
  split; [exact Hstep|].
  intros Hedge. rewrite Hstep.
  assert (Hout : coversb r x y = false).
  { unfold coversb. destruct Hedge as [E | E]; rewrite <- E.
    - rewrite Z.ltb_irrefl. now rewrite andb_false_r.
    - rewrite Z.ltb_irrefl. now rewrite andb_false_r. }
  now rewrite Hout.
Qed.

Lemma gen_heatmap_bottom_right_exclusive_witness :
  (pixel_rect Toy.box_b /\ Forall pixel_rect [((0, 0), (2, 2))]) /\
  exists v v',
    cell (gen_heatmap (Toy.box_b :: [((0, 0), (2, 2))]) (2%Q :: [1%Q]) (4%nat, 4%nat))
         3 2 = Some v /\
    cell (gen_heatmap [((0, 0), (2, 2))] [1%Q] (4%nat, 4%nat)) 3 2 = Some v' /\
    (v == if (rx0 Toy.box_b <=? Z.of_nat 2) && (Z.of_nat 2 <? rx1 Toy.box_b) &&
             (ry0 Toy.box_b <=? Z.of_nat 3) && (Z.of_nat 3 <? ry1 Toy.box_b)
          then 2 + v' else v')%Q /\
    (Z.of_nat 3 = ry1 Toy.box_b \/ Z.of_nat 2 = rx1 Toy.box_b -> (v == v')%Q).
Proof.
  assert (Hb : pixel_rect Toy.box_b)
    by (unfold pixel_rect, rx0, ry0, rx1, ry1; simpl; lia).
  assert (Hl : Forall pixel_rect [((0, 0), (2, 2))])
    by (apply Forall_cons;
        [unfold pixel_rect, rx0, ry0, rx1, ry1; simpl; lia | apply Forall_nil]).
  split; [now split|].
  apply (gen_heatmap_bottom_right_exclusive Toy.box_b 2%Q [((0, 0), (2, 2))] [1%Q]
           4 4 3 2 Hb Hl); lia.
Defined.

(** ** Per-frame capping (C5) *)

Lemma map2_diag {A B : Type} (f : A -> A -> B) (l : list A) :
  map2 f l l = map (fun a => f a a) l.
Proof. induction l as [|a l IH]; simpl; [reflexivity | now rewrite IH]. Qed.

Lemma cap_heat_map (cap : Q) (hm : Heatmap) :
  cap_heat cap hm = map (map (fun v => if Qgtb v cap then cap else v)) hm.
Proof.
  unfold cap_heat, masked_set. rewrite map2_diag.
  apply map_ext. intros row. apply map2_diag.
Qed.

Lemma cell_map (f : Q -> Q) (hm : Heatmap) (y x : nat) :
  cell (map (map f) hm) y x = option_map f (cell hm y x).
Proof.
  unfold cell. rewrite nth_error_map.
  destruct (nth_error hm y) as [row|]; simpl; [|reflexivity].
  now rewrite nth_error_map.
Qed.

Lemma Qgtb_false_le (a b : Q) : Qgtb a b = false -> (a <= b)%Q.
Proof.
  unfold Qgtb. intros H. apply negb_false_iff in H. now apply Qle_bool_iff.
Qed.

Lemma Qgtb_le_false (a b : Q) : (a <= b)%Q -> Qgtb a b = false.
Proof.
  unfold Qgtb. intros H. apply negb_false_iff. now apply Qle_bool_iff.
Qed.

(** C5: after [current_heatmap[current_heatmap > max_frame_heat] =
    max_frame_heat] every cell is at most the maximum, whatever its raw
    value, and a cell whose raw value is at or below the maximum keeps it. *)
Theorem cap_heat_bounded (max_frame_heat : Q) (raw : Heatmap) (y x : nat) (v : Q) :
  cell raw y x = Some v ->
  exists c,
    cell (cap_heat max_frame_heat raw) y x = Some c /\
    (c <= max_frame_heat)%Q /\
    ((v <= max_frame_heat)%Q -> c = v).
Proof.
  intros Hc. rewrite cap_heat_map, cell_map, Hc. simpl.
  destruct (Qgtb v max_frame_heat) eqn:E.
  - exists max_frame_heat. split; [reflexivity|]. split; [apply Qle_refl|].
    intros Hle. rewrite (Qgtb_le_false _ _ Hle) in E. discriminate.
  - exists v. split; [reflexivity|]. split; [now apply Qgtb_false_le | reflexivity].
Qed.

Lemma cap_heat_bounded_witness :
  cell (gen_heatmap Toy.boxes Toy.box_scores (3%nat, 3%nat)) 1 1 = Some (0 + 1 + 2)%Q /\
  exists c,
    cell (cap_heat (5 # 2) (gen_heatmap Toy.boxes Toy.box_scores (3%nat, 3%nat))) 1 1
      = Some c /\
    (c <= 5 # 2)%Q /\
    ((0 + 1 + 2 <= 5 # 2)%Q -> c = (0 + 1 + 2)%Q).
Proof.
  assert (H : cell (gen_heatmap Toy.boxes Toy.box_scores (3%nat, 3%nat)) 1 1
              = Some (0 + 1 + 2)%Q) by reflexivity.
  split; [exact H|].
  exact (cap_heat_bounded (5 # 2) _ 1 1 _ H).
Defined.

(** ** The block step of window search (C3) *)

Lemma py_int_nonneg (q : Q) : (0 <= q)%Q -> py_int q = Qfloor q.
Proof.
  intros H. unfold py_int.
  destruct (Qle_bool 0 q) eqn:E; [reflexivity|].
  apply Qle_bool_iff in H. congruence.
Qed.

Lemma block_steps_ok (nblocks bpw step : Z) :
  step <> 0 -> block_steps nblocks bpw step = Ok (py_range ((nblocks - bpw) / step)).
Proof.
  intros H. unfold block_steps, py_floordiv.
  destruct (step =? 0) eqn:E; [apply Z.eqb_eq in E; contradiction | reflexivity].
Qed.

Lemma window_grid_ok (nx ny bpw step : Z) :
  step <> 0 -> exists grid, window_grid nx ny bpw step = Ok grid.
Proof.
  intros H. unfold window_grid. rewrite !block_steps_ok by assumption.
  destruct (py_range ((nx - bpw) / step)); eexists; reflexivity.
Qed.

(** C3, as the code has it: for an overlap in [0, 1) the step is
    [(1 - overlap) * cells_per_window_edge] truncated to an integer (cells,
    not blocks, per window edge, and no rounding up); it is at least 1
    exactly when that product is at least 1, and then both loop ranges are
    computed without an exception. *)
Theorem cells_per_window_step_truncates (overlap : Q) (cells_per_window cells_per_block : Z)
    (nblocks_x nblocks_y : Z) :
  (0 <= overlap)%Q -> (overlap < 1)%Q -> 0 <= cells_per_window ->
  let exact := ((1 - overlap) * inject_Z cells_per_window)%Q in
  let step := cells_per_window_step overlap cells_per_window in
  (inject_Z step <= exact)%Q /\ (exact < inject_Z (step + 1))%Q /\
  (1 <= step <-> (1 <= exact)%Q) /\
  (1 <= step ->
   exists grid,
     window_grid nblocks_x nblocks_y
       (blocks_per_window_edge cells_per_window cells_per_block) step = Ok grid).
Proof.
  intros H0 H1 Hc exact step.
  assert (Hex : (0 <= exact)%Q).
  { unfold exact. apply Qmult_le_0_compat.
    - apply (proj1 (Qle_minus_iff overlap 1)). now apply Qlt_le_weak.
    - change 0%Q with (inject_Z 0). now rewrite <- Zle_Qle. }
  assert (Hstep : step = Qfloor exact) by (apply py_int_nonneg; exact Hex).
  rewrite Hstep. split; [apply Qfloor_le|]. split; [apply Qlt_floor|]. split.
  - split; intros H.
    + apply Qle_trans with (inject_Z (Qfloor exact)); [|apply Qfloor_le].
      change 1%Q with (inject_Z 1). now rewrite <- Zle_Qle.
    + rewrite <- (Qfloor_Z 1). now apply Qfloor_resp_le.
  - intros H. apply window_grid_ok. lia.
Qed.

Lemma cells_per_window_step_truncates_witness :
  ((0 <= 6 # 8)%Q /\ (6 # 8 < 1)%Q /\ 0 <= 8) /\
  (inject_Z (cells_per_window_step (6 # 8) 8) <= (1 - (6 # 8)) * inject_Z 8)%Q /\
  ((1 - (6 # 8)) * inject_Z 8 < inject_Z (cells_per_window_step (6 # 8) 8 + 1))%Q /\
  (1 <= cells_per_window_step (6 # 8) 8 <-> (1 <= (1 - (6 # 8)) * inject_Z 8)%Q) /\
  (1 <= cells_per_window_step (6 # 8) 8 ->
   exists grid,
     window_grid 159 14 (blocks_per_window_edge 8 2)
                 (cells_per_window_step (6 # 8) 8) = Ok grid).
Proof.
  assert (Ha : (0 <= 6 # 8)%Q) by (unfold Qle; simpl; lia).
  assert (Hb : (6 # 8 < 1)%Q) by (unfold Qlt; simpl; lia).
  assert (Hc : 0 <= 8) by lia.
  split; [now repeat split|].
  exact (cells_per_window_step_truncates (6 # 8) 8 2 159 14 Ha Hb Hc).
Defined.

(** The run behind the failure: an overlap of 19/20 gives the step 0, and
    the first loop range divides by it. *)
Lemma window_grid_step_zero :
  cells_per_window_step (19 # 20) 8 = 0 /\
  spec_round ((1 - (19 # 20)) * inject_Z (blocks_per_window_edge 8 2))%Q = 0 /\
  window_grid 159 14 (blocks_per_window_edge 8 2) (cells_per_window_step (19 # 20) 8)
    = Raise ZeroDivisionError.
Proof. repeat split; reflexivity. Qed.

(** Truncation and rounding differ already where no step is 0: an overlap
    of 4/5 gives int(1.6) = 1 block, not 2. *)
Lemma cells_per_window_step_not_rounded :
  cells_per_window_step (4 # 5) 8 = 1 /\
  spec_round ((1 - (4 # 5)) * inject_Z 8)%Q = 2.
Proof. split; reflexivity. Qed.

(** C3 as stated fails at overlap 19/20 with 8 cells (7 blocks) per window
    edge: the step is 0, neither the rounded value nor at least 1, and the
    loop range raises ZeroDivisionError. *)
Lemma cells_per_window_step_counterexample :
  ~ (forall overlap : Q,
        (0 <= overlap)%Q -> (overlap < 1)%Q ->
        let step := cells_per_window_step overlap 8 in
        step = spec_round ((1 - overlap) * inject_Z (blocks_per_window_edge 8 2))%Q /\
        1 <= step /\
        exists grid, window_grid 159 14 (blocks_per_window_edge 8 2) step = Ok grid).
Proof.
  intros H.
  assert (Ha : (0 <= 19 # 20)%Q) by (unfold Qle; simpl; lia).
  assert (Hb : (19 # 20 < 1)%Q) by (unfold Qlt; simpl; lia).
  destruct (H (19 # 20) Ha Hb) as (_ & Hge & _).
  vm_compute in Hge. apply Hge. reflexivity.
Qed.

(** ** Construction (C7) *)

(** C7, as the code has it: the constructor validates nothing and never
    raises.  Whatever the arguments, also a history capacity below 1, it
    returns a finder that holds the option, the capacity and the two
    thresholds as given, 1.5 times the high threshold as the cap of a
    frame's heat, an empty history, the x-range (0, 1280) and the three
    search tuples of lines 86-88.  The tuples are constants of the
    constructor, no argument reaches them; each has an overlap in [0, 1)
    and a positive scale. *)
Theorem construct_never_raises (visualization : string) (history : Z) (tl th : Q) :
  exists cf,
    construct visualization history tl th = Ok cf /\
    viz cf = visualization /\
    heatmap_history cf = history /\
    thresh_low cf = tl /\
    thresh_high cf = th /\
    max_frame_heat cf = (th * (15 # 10))%Q /\
    nlast_heatmaps cf = [] /\
    x_range cf = (0, 1280) /\
    search_settings cf = [(380, 500, 1%Q, (6 # 8)%Q);
                          (380, 550, (13 # 10)%Q, (5 # 8)%Q);
                          (380, 600, (22 # 10)%Q, (6 # 8)%Q)] /\
    length (search_settings cf) = 3%nat /\
    Forall (fun t : Z * Z * Q * Q =>
              let '(_, _, scale, overlap) := t in
              (0 < scale)%Q /\ (0 <= overlap)%Q /\ (overlap < 1)%Q)
           (search_settings cf).
Proof.
  eexists. split; [reflexivity|]. cbn [CarFinder_init viz heatmap_history thresh_low
    thresh_high max_frame_heat nlast_heatmaps x_range search_settings].
  do 9 (split; [reflexivity|]).
  repeat (apply Forall_cons;
          [repeat split; unfold Qlt, Qle; simpl; lia|]).
  apply Forall_nil.
Qed.

(** C7 as stated fails: a history capacity of 0 is accepted at
    construction. *)
Lemma construct_counterexample :
  ~ (forall (visualization : string) (history : Z) (thresh_low thresh_high : Q),
        history < 1 ->
        exists e, construct visualization history thresh_low thresh_high = Raise e).
Proof.
  intros H. destruct (H "cars"%string 0 (1 # 10)%Q (1 # 4)%Q) as [e He]; [lia|].
  discriminate He.
Qed.

(** ** Rules for computations on the heap *)

Section HeapRules.
Context `{Collaborators}.

Lemma bind_run {A B : Type} (m : M A) (k : A -> M B) (w : World) :
  bind m k w = match m w with
               | (Ok a, w') => k a w'
               | (Raise e, w') => (Raise e, w')
               end.
Proof. reflexivity. Qed.

Lemma bind_ok {A B : Type} (m : M A) (k : A -> M B) (w w' : World) (a : A) :
  m w = (Ok a, w') -> bind m k w = k a w'.
Proof. intros E. rewrite bind_run, E. reflexivity. Qed.

Lemma bind_raise {A B : Type} (m : M A) (k : A -> M B) (w w' : World) (e : exn) :
  m w = (Raise e, w') -> bind m k w = (Raise e, w').
Proof. intros E. rewrite bind_run, E. reflexivity. Qed.

Lemma keeps_weaken {A : Type} (n : nat) (m : M A) (P Q : A -> Prop) :
  keeps n m P -> (forall a, P a -> Q a) -> keeps n m Q.
Proof.
  intros Hm HPQ w Hn. destruct (Hm w Hn) as (Hf & Hl & Hr).
  repeat split; auto.
Qed.

Lemma keeps_ret {A : Type} (n : nat) (a : A) (Q : A -> Prop) :
  Q a -> keeps n (ret a) Q.
Proof.
  intros HQ w Hn. simpl. repeat split; auto.
  intros a' E. inversion E; subst. exact HQ.
Qed.

Lemma keeps_bind {A B : Type} (n : nat) (m : M A) (k : A -> M B)
    (P : A -> Prop) (Q : B -> Prop) :
  keeps n m P -> (forall a, P a -> keeps n (k a) Q) -> keeps n (bind m k) Q.
Proof.
  intros Hm Hk w Hn. destruct (Hm w Hn) as (Hf & Hl & Hr).
  rewrite bind_run. destruct (m w) as [[a|e] w'] eqn:E; simpl in *.
  - destruct (Hk a (Hr a eq_refl) w' Hl) as (Hf' & Hl' & Hr').
    repeat split; auto. congruence.
  - repeat split; auto. intros b Hb. discriminate Hb.
Qed.

Lemma keeps_lift {A : Type} (n : nat) (r : res A) :
  keeps n (lift r) (fun _ => True).
Proof. intros w Hn. simpl. repeat split; auto. Qed.

Lemma keeps_raising (n : nat) (o : option exn) :
  keeps n (raising o) (fun _ => True).
Proof. apply keeps_lift. Qed.

Lemma keeps_gets {A : Type} (n : nat) (f : CarFinder -> A) :
  keeps n (gets f) (fun _ => True).
Proof. intros w Hn. simpl. repeat split; auto. Qed.

Lemma keeps_set_nlast (n : nat) (l : list loc) :
  keeps n (set_nlast_heatmaps l) (fun _ => True).
Proof. intros w Hn. simpl. repeat split; auto. Qed.

Lemma firstn_app_le {A : Type} (n : nat) (l l' : list A) :
  (n <= length l)%nat -> firstn n (l ++ l') = firstn n l.
Proof.
  intros Hn. rewrite firstn_app.
  replace (n - length l)%nat with 0%nat by lia. simpl. apply app_nil_r.
Qed.

Lemma keeps_alloc (n : nat) (a : ndarray) :
  keeps n (alloc a) (fun l => (n <= l)%nat).
Proof.
  intros w Hn. simpl. repeat split.
  - now apply firstn_app_le.
  - rewrite length_app. lia.
  - intros l E. inversion E; subst. exact Hn.
Qed.

Lemma keeps_read (n : nat) (l : loc) :
  keeps n (read l) (fun _ => True).
Proof.
  intros w Hn. unfold read. destruct (nth_error (heap w) l); simpl; repeat split; auto.
Qed.

Lemma length_list_set {A : Type} (l : list A) :
  forall i a, length (list_set l i a) = length l.
Proof.
  induction l as [|b l IH]; intros [|i] a; simpl; auto.
Qed.

Lemma firstn_list_set {A : Type} (l : list A) :
  forall n i a, (n <= i)%nat -> firstn n (list_set l i a) = firstn n l.
Proof.
  induction l as [|b l IH]; intros n i a Hn; [destruct i; reflexivity|].
  destruct n as [|n]; [reflexivity|].
  destruct i as [|i]; [lia|]. simpl. rewrite IH by lia. reflexivity.
Qed.

Lemma keeps_write (n : nat) (l : loc) (a : ndarray) :
  (n <= l)%nat -> keeps n (write l a) (fun _ => True).
Proof.
  intros Hl w Hn. unfold write.
  destruct (l <? length (heap w))%nat; simpl; repeat split; auto.
  - now apply firstn_list_set.
  - now rewrite length_list_set.
Qed.

End HeapRules.

(** ** find_cars writes only to arrays it allocated *)

Section Keeps.
Context `{Collaborators}.

Ltac kbind := eapply keeps_bind; [ | intros ? ? ].
Ltac ktrue := eapply keeps_weaken; [ | intros; exact I ].

Lemma keeps_read_img (n : nat) (l : loc) : keeps n (read_img l) (fun _ => True).
Proof.
  unfold read_img. kbind; [apply keeps_read|].
  destruct a; [apply keeps_ret; exact I | apply keeps_lift | apply keeps_lift].
Qed.

Lemma keeps_read_heat (n : nat) (l : loc) : keeps n (read_heat l) (fun _ => True).
Proof.
  unfold read_heat. kbind; [apply keeps_read|].
  destruct a; [apply keeps_lift | apply keeps_ret; exact I | apply keeps_lift].
Qed.

Lemma keeps_read_gray (n : nat) (l : loc) : keeps n (read_gray l) (fun _ => True).
Proof.
  unfold read_gray. kbind; [apply keeps_read|].
  destruct a; [apply keeps_lift | apply keeps_lift | apply keeps_ret; exact I].
Qed.

Lemma keeps_np_copy (n : nat) (l : loc) : keeps n (np_copy l) (fun l' => (n <= l')%nat).
Proof. unfold np_copy. kbind; [apply keeps_read | apply keeps_alloc]. Qed.

Lemma keeps_cv2_rectangle_at (n : nat) (l : loc) (bbox : Rectangle) (color : Color)
    (thick : Z) :
  (n <= l)%nat -> keeps n (cv2_rectangle_at l bbox color thick) (fun l' => (n <= l')%nat).
Proof.
  intros Hl. unfold cv2_rectangle_at.
  kbind; [apply keeps_read_img|].
  kbind; [now apply keeps_write|].
  now apply keeps_ret.
Qed.

Lemma keeps_draw_each (n : nat) (rectangles : list Rectangle) (color : Color) (thick : Z) :
  forall l, (n <= l)%nat ->
  keeps n (draw_each l rectangles color thick) (fun l' => (n <= l')%nat).
Proof.
  induction rectangles as [|bbox rest IH]; intros l Hl; simpl.
  - now apply keeps_ret.
  - kbind; [now apply keeps_cv2_rectangle_at|]. now apply IH.
Qed.

Lemma keeps_draw_rectangles (n : nat) (img : loc) (rectangles : list Rectangle)
    (color : Color) (thick : Z) :
  keeps n (draw_rectangles img rectangles color thick) (fun l' => (n <= l')%nat).
Proof.
  unfold draw_rectangles. kbind; [apply keeps_np_copy|].
  kbind; [apply keeps_draw_each; eassumption|].
  now apply keeps_ret.
Qed.

Lemma keeps_mapM_read_heat (n : nat) (ls : list loc) :
  keeps n (mapM read_heat ls) (fun _ => True).
Proof.
  induction ls as [|l ls IH]; simpl.
  - now apply keeps_ret.
  - kbind; [apply keeps_read_heat|]. kbind; [apply IH|]. now apply keeps_ret.
Qed.

Lemma keeps_window_search_cars (n : nat) (img : loc) (xr yr : Z * Z) (scale overlap : Q) :
  keeps n (window_search_cars img xr yr scale overlap) (fun _ => True).
Proof.
  unfold window_search_cars. kbind; [apply keeps_np_copy|].
  kbind; [apply keeps_read_img|]. apply keeps_lift.
Qed.

Lemma keeps_search_scales (n : nat) (img : loc) (xr : Z * Z)
    (settings : list (Z * Z * Q * Q)) :
  keeps n (search_scales img xr settings) (fun _ => True).
Proof.
  induction settings as [|[[[ystart ystop] scale] overlap] rest IH]; simpl.
  - now apply keeps_ret.
  - kbind; [apply keeps_window_search_cars|]. destruct a as [w ws].
    kbind; [apply IH|]. destruct a as [windows scores]. now apply keeps_ret.
Qed.

Lemma keeps_make_heatmap (n : nat) (img : loc) :
  keeps n (make_heatmap img) (fun _ => True).
Proof.
  unfold make_heatmap.
  kbind; [apply keeps_gets|]. kbind; [apply keeps_gets|].
  kbind; [apply keeps_search_scales|]. destruct a1 as [windows scores].
  kbind; [apply keeps_read_img|].
  kbind; [apply keeps_alloc|].
  kbind; [apply keeps_gets|].
  kbind; [apply keeps_read_heat|].
  kbind; [apply keeps_write; eassumption|].
  now apply keeps_ret.
Qed.

Lemma keeps_fuse (n : nat) (current : loc) (single : bool) :
  keeps n (fuse current single) (fun _ => True).
Proof.
  unfold fuse. destruct single; [now apply keeps_ret|].
  kbind; [apply keeps_gets|]. kbind; [apply keeps_gets|].
  kbind; [apply keeps_set_nlast|]. kbind; [apply keeps_gets|].
  kbind; [apply keeps_mapM_read_heat|].
  ktrue. apply keeps_alloc.
Qed.

Lemma keeps_extract_regions (n : nat) (heatmap : loc) :
  keeps n (extract_regions heatmap) (fun _ => True).
Proof.
  unfold extract_regions.
  kbind; [apply keeps_gets|]. kbind; [apply keeps_gets|]. kbind; [apply keeps_gets|].
  kbind; [apply keeps_np_copy|].
  kbind; [apply keeps_read_heat|]. kbind; [apply keeps_read_heat|].
  kbind; [apply keeps_write; eassumption|].
  kbind; [apply keeps_read_heat|].
  kbind; [apply keeps_lift|].
  now apply keeps_ret.
Qed.

Lemma keeps_detect (n : nat) (img : loc) (single : bool) :
  keeps n (detect img single) (fun _ => True).
Proof.
  unfold detect.
  kbind; [apply keeps_make_heatmap|]. destruct a as [windows current].
  kbind; [apply keeps_fuse|].
  kbind; [apply keeps_extract_regions|]. destruct a0 as [[lo hi] bboxes].
  now apply keeps_ret.
Qed.

Lemma keeps_visualize (n : nat) (img : loc) (d : Detection) :
  keeps n (visualize img d) (fun _ => True).
Proof.
  unfold visualize.
  kbind; [apply keeps_np_copy|].
  kbind; [apply keeps_draw_each; eassumption|].
  kbind; [apply keeps_gets|].
  destruct (String.eqb a1 "windows"); [|now apply keeps_ret].
  kbind; [apply keeps_np_copy|].
  kbind; [apply keeps_read_heat|]. kbind; [apply keeps_read_heat|].
  kbind; [apply keeps_write; eassumption|].
  kbind; [apply keeps_read_heat|].
  kbind; [apply keeps_raising|].
  kbind; [apply keeps_write; eassumption|].
  kbind; [apply keeps_read_heat|].
  kbind; [apply keeps_alloc|].
  kbind; [apply keeps_read_gray|].
  kbind; [apply keeps_alloc|]. kbind; [apply keeps_alloc|].
  kbind; [apply keeps_read_gray|]. kbind; [apply keeps_read_gray|].
  kbind; [apply keeps_raising|].
  kbind; [apply keeps_alloc|].
  kbind; [apply keeps_read_img|]. kbind; [apply keeps_read_img|].
  kbind; [apply keeps_raising|].
  kbind; [apply keeps_alloc|].
  ktrue. apply keeps_draw_rectangles.
Qed.

Lemma keeps_find_cars_detections (n : nat) (img : loc) (single : bool) :
  keeps n (find_cars_detections img single) (fun _ => True).
Proof.
  unfold find_cars_detections.
  kbind; [apply keeps_detect|]. kbind; [apply keeps_visualize|]. now apply keeps_ret.
Qed.

Lemma keeps_find_cars (n : nat) (img : loc) (single : bool) :
  keeps n (find_cars img single) (fun _ => True).
Proof.
  unfold find_cars. kbind; [apply keeps_find_cars_detections|].
  destruct a as [d r]. now apply keeps_ret.
Qed.

Lemma keeps_prefix {A : Type} (m : M A) (Q : A -> Prop) (w : World) :
  keeps (length (heap w)) m Q ->
  exists ext, heap (snd (m w)) = heap w ++ ext.
Proof.
  intros Hk. destruct (Hk w (le_n _)) as (Hf & Hl & _).
  exists (skipn (length (heap w)) (heap (snd (m w)))).
  rewrite firstn_all in Hf. rewrite <- Hf at 1. symmetry. apply firstn_skipn.
Qed.

End Keeps.

(** ** The input frame (C9) *)

(** C9: find_cars draws on copies only.  Whether it returns or raises,
    every array that existed before the call has the contents it had, the
    caller's frame among them. *)
Theorem find_cars_keeps_input `{Collaborators} (w : World) (img : loc) (single : bool) :
  firstn (length (heap w)) (heap (snd (find_cars img single w))) = heap w /\
  forall a, nth_error (heap w) img = Some a ->
            nth_error (heap (snd (find_cars img single w))) img = Some a.
Proof.
  destruct (keeps_prefix (find_cars img single) _ w
              (keeps_find_cars (length (heap w)) img single)) as [ext Hext].
  split.
  - rewrite Hext. rewrite firstn_app_le by lia. apply firstn_all.
  - intros a Ha. rewrite Hext. rewrite nth_error_app1; [exact Ha|].
    apply nth_error_Some. congruence.
Qed.

Lemma find_cars_keeps_input_witness :
  nth_error (heap (Toy.world "windows" 2)) 0 = Some Toy.frame_array /\
  firstn (length (heap (Toy.world "windows" 2)))
         (heap (snd (find_cars 0%nat false (Toy.world "windows" 2))))
    = heap (Toy.world "windows" 2) /\
  nth_error (heap (snd (find_cars 0%nat false (Toy.world "windows" 2)))) 0
    = Some Toy.frame_array.
Proof.
  assert (H0 : nth_error (heap (Toy.world "windows" 2)) 0 = Some Toy.frame_array)
    by reflexivity.
  split; [exact H0|].
  destruct (find_cars_keeps_input (Toy.world "windows" 2) 0%nat false) as [Hf Hn].
  split; [exact Hf | exact (Hn _ H0)].
Defined.

(** ** Running the primitives *)

Section Runs.
Context `{Collaborators}.

Lemma world_eta (w : World) : mkWorld (self w) (heap w) = w.
Proof. destruct w; reflexivity. Qed.

Lemma bind_inv_ok {A B : Type} (m : M A) (k : A -> M B) (w w' : World) (b : B) :
  bind m k w = (Ok b, w') ->
  exists a w1, m w = (Ok a, w1) /\ k a w1 = (Ok b, w').
Proof.
  rewrite bind_run. destruct (m w) as [[a|e] w1]; intros E.
  - now exists a, w1.
  - discriminate E.
Qed.

Lemma gets_inv {A : Type} (f : CarFinder -> A) (w w' : World) (a : A) :
  gets f w = (Ok a, w') -> a = f (self w) /\ w' = w.
Proof. unfold gets. intros E. inversion E; auto. Qed.

Lemma ret_inv {A : Type} (a b : A) (w w' : World) :
  ret a w = (Ok b, w') -> b = a /\ w' = w.
Proof. unfold ret. intros E. inversion E; auto. Qed.

Lemma alloc_inv (a : ndarray) (l : loc) (w w' : World) :
  alloc a w = (Ok l, w') ->
  l = length (heap w) /\ w' = mkWorld (self w) (heap w ++ [a]).
Proof. unfold alloc. intros E. inversion E; auto. Qed.

Lemma read_ok (l : loc) (w : World) (a : ndarray) :
  nth_error (heap w) l = Some a -> read l w = (Ok a, w).
Proof. intros E. unfold read. now rewrite E. Qed.

Lemma read_inv (l : loc) (w w' : World) (a : ndarray) :
  read l w = (Ok a, w') -> w' = w /\ nth_error (heap w) l = Some a.
Proof.
  unfold read. destruct (nth_error (heap w) l); intros E; inversion E; subst; auto.
Qed.

Lemma read_img_ok (l : loc) (w : World) (a : Image) :
  nth_error (heap w) l = Some (AImg a) -> read_img l w = (Ok a, w).
Proof. intros E. unfold read_img. rewrite (bind_ok _ _ _ _ _ (read_ok _ _ _ E)). reflexivity. Qed.

Lemma read_heat_ok (l : loc) (w : World) (h : Heatmap) :
  nth_error (heap w) l = Some (AHeat h) -> read_heat l w = (Ok h, w).
Proof. intros E. unfold read_heat. rewrite (bind_ok _ _ _ _ _ (read_ok _ _ _ E)). reflexivity. Qed.

Lemma read_gray_ok (l : loc) (w : World) (g : Gray) :
  nth_error (heap w) l = Some (AGray g) -> read_gray l w = (Ok g, w).
Proof. intros E. unfold read_gray. rewrite (bind_ok _ _ _ _ _ (read_ok _ _ _ E)). reflexivity. Qed.

Lemma read_img_inv (l : loc) (w w' : World) (a : Image) :
  read_img l w = (Ok a, w') -> w' = w /\ nth_error (heap w) l = Some (AImg a).
Proof.
  unfold read_img. intros E. apply bind_inv_ok in E. destruct E as (x & w1 & E1 & E2).
  apply read_inv in E1. destruct E1 as [-> Hn].
  destruct x; inversion E2; subst; auto.
Qed.

Lemma read_heat_inv (l : loc) (w w' : World) (h : Heatmap) :
  read_heat l w = (Ok h, w') -> w' = w /\ nth_error (heap w) l = Some (AHeat h).
Proof.
  unfold read_heat. intros E. apply bind_inv_ok in E. destruct E as (x & w1 & E1 & E2).
  apply read_inv in E1. destruct E1 as [-> Hn].
  destruct x; inversion E2; subst; auto.
Qed.

Lemma np_copy_ok (l : loc) (w : World) (a : ndarray) :
  nth_error (heap w) l = Some a ->
  np_copy l w = (Ok (length (heap w)), mkWorld (self w) (heap w ++ [a])).
Proof. intros E. unfold np_copy. rewrite (bind_ok _ _ _ _ _ (read_ok _ _ _ E)). reflexivity. Qed.

Lemma np_copy_inv (l l' : loc) (w w' : World) :
  np_copy l w = (Ok l', w') ->
  exists a, nth_error (heap w) l = Some a /\ l' = length (heap w) /\
            w' = mkWorld (self w) (heap w ++ [a]).
Proof.
  unfold np_copy. intros E. apply bind_inv_ok in E. destruct E as (a & w1 & E1 & E2).
  apply read_inv in E1. destruct E1 as [-> Hn].
  inversion E2; subst. now exists a.
Qed.

Lemma write_ok (l : loc) (a : ndarray) (w : World) :
  (l < length (heap w))%nat ->
  write l a w = (Ok tt, mkWorld (self w) (list_set (heap w) l a)).
Proof.
  intros Hl. unfold write. apply Nat.ltb_lt in Hl. now rewrite Hl.
Qed.

Lemma write_inv (l : loc) (a : ndarray) (w w' : World) (u : unit) :
  write l a w = (Ok u, w') ->
  (l < length (heap w))%nat /\ w' = mkWorld (self w) (list_set (heap w) l a).
Proof.
  unfold write. destruct (l <? length (heap w))%nat eqn:E; intros E'; inversion E'; subst.
  apply Nat.ltb_lt in E. auto.
Qed.

Lemma nth_error_snoc {A : Type} (l : list A) (a : A) :
  nth_error (l ++ [a]) (length l) = Some a.
Proof. rewrite nth_error_app2 by lia. now rewrite Nat.sub_diag. Qed.

Lemma list_set_snoc {A : Type} (l : list A) (a b : A) :
  list_set (l ++ [a]) (length l) b = l ++ [b].
Proof. induction l as [|c l IH]; simpl; [reflexivity | now rewrite IH]. Qed.

Lemma list_set_same {A : Type} (l : list A) :
  forall i a, nth_error l i = Some a -> list_set l i a = l.
Proof.
  induction l as [|b l IH]; intros [|i] a E; simpl in *; try discriminate.
  - now inversion E.
  - now rewrite IH.
Qed.

Lemma list_set_twice {A : Type} (l : list A) :
  forall i a b, list_set (list_set l i a) i b = list_set l i b.
Proof.
  induction l as [|c l IH]; intros [|i] a b; simpl; auto. now rewrite IH.
Qed.

Lemma nth_error_list_set_eq {A : Type} (l : list A) :
  forall i a, (i < length l)%nat -> nth_error (list_set l i a) i = Some a.
Proof.
  induction l as [|c l IH]; intros [|i] a Hi; simpl in *; try lia; auto.
  apply IH. lia.
Qed.

Lemma nth_error_list_set_neq {A : Type} (l : list A) :
  forall i j a, i <> j -> nth_error (list_set l i a) j = nth_error l j.
Proof.
  induction l as [|c l IH]; intros [|i] [|j] a Hij; simpl; auto; try congruence.
Qed.

Lemma mapM_read_heat_inv (ls : list loc) :
  forall (w w' : World) (hs : list Heatmap),
    mapM read_heat ls w = (Ok hs, w') ->
    w' = w /\ Forall2 (fun l h => nth_error (heap w) l = Some (AHeat h)) ls hs.
Proof.
  induction ls as [|l ls IH]; intros w w' hs E; simpl in E.
  - inversion E; subst. split; [reflexivity | constructor].
  - apply bind_inv_ok in E. destruct E as (h & w1 & E1 & E2).
    apply read_heat_inv in E1. destruct E1 as [-> Hh].
    apply bind_inv_ok in E2. destruct E2 as (hs' & w2 & E2 & E3).
    apply IH in E2. destruct E2 as [-> Hhs].
    inversion E3; subst. split; [reflexivity | now constructor].
Qed.

Lemma mapM_read_heat_ok (ls : list loc) (w : World) (hs : list Heatmap) :
  Forall2 (fun l h => nth_error (heap w) l = Some (AHeat h)) ls hs ->
  mapM read_heat ls w = (Ok hs, w).
Proof.
  induction 1 as [|l h ls hs Hl Hls IH]; simpl; [reflexivity|].
  rewrite (bind_ok _ _ _ _ _ (read_heat_ok _ _ _ Hl)).
  rewrite (bind_ok _ _ _ _ _ IH). reflexivity.
Qed.

End Runs.

(** ** What the detection phases compute *)

Section Phases.
Context `{Collaborators}.

Lemma window_search_cars_run (img : loc) (xr yr : Z * Z) (scale overlap : Q)
    (w : World) (a : Image) :
  nth_error (heap w) img = Some (AImg a) ->
  window_search_cars img xr yr scale overlap w =
  (window_search_pure a xr yr scale overlap, mkWorld (self w) (heap w ++ [AImg a])).
Proof.
  intros Ha. unfold window_search_cars.
  rewrite (bind_ok _ _ _ _ _ (np_copy_ok _ _ _ Ha)).
  erewrite bind_ok by (apply read_img_ok; simpl; apply nth_error_snoc).
  reflexivity.
Qed.

Lemma search_scales_run (img : loc) (xr : Z * Z) (settings : list (Z * Z * Q * Q))
    (a : Image) :
  forall w, nth_error (heap w) img = Some (AImg a) ->
  exists k,
    search_scales img xr settings w =
    (search_scales_pure a xr settings,
     mkWorld (self w) (heap w ++ repeat (AImg a) k)).
Proof.
  induction settings as [|[[[ystart ystop] scale] overlap] rest IH]; intros w Ha.
  - exists 0%nat. simpl. unfold ret. now rewrite app_nil_r, world_eta.
  - cbn [search_scales search_scales_pure].
    rewrite bind_run, (window_search_cars_run _ _ _ _ _ _ _ Ha).
    destruct (window_search_pure a xr (ystart, ystop) scale overlap) as [[wd ws]|e].
    + destruct (IH (mkWorld (self w) (heap w ++ [AImg a]))) as [k Hk].
      { simpl. rewrite nth_error_app1; [exact Ha|]. apply nth_error_Some. congruence. }
      exists (S k). rewrite bind_run, Hk. simpl.
      rewrite <- app_assoc. simpl.
      destruct (search_scales_pure a xr rest) as [[wds wss]|e]; reflexivity.
    + exists 1%nat. reflexivity.
Qed.

Lemma search_scales_inv (img : loc) (xr : Z * Z) (settings : list (Z * Z * Q * Q))
    (w w' : World) (r : list Rectangle * list Q) :
  search_scales img xr settings w = (Ok r, w') ->
  (settings = [] /\ w' = w) \/ exists a, nth_error (heap w) img = Some (AImg a).
Proof.
  destruct settings as [|[[[ystart ystop] scale] overlap] rest]; intros E.
  - left. simpl in E. inversion E; auto.
  - right. cbn [search_scales] in E.
    apply bind_inv_ok in E. destruct E as ([wd ws] & w1 & E1 & _).
    unfold window_search_cars in E1.
    apply bind_inv_ok in E1. destruct E1 as (c & w2 & E1 & E2).
    apply np_copy_inv in E1. destruct E1 as (x & Hx & -> & ->).
    apply bind_inv_ok in E2. destruct E2 as (a & w3 & E2 & _).
    apply read_img_inv in E2. destruct E2 as [_ E2]. simpl in E2.
    rewrite nth_error_snoc in E2. inversion E2; subst. now exists a.
Qed.

(** Lines 110-119 on a call that returns: the frame is an image, the
    heatmap of the frame is stored in a new array behind the copies of the
    search, and nothing else changes. *)
Lemma make_heatmap_inv (img : loc) (w w' : World) (windows : list Rectangle) (cur : loc) :
  make_heatmap img w = (Ok (windows, cur), w') ->
  exists a scores k,
    nth_error (heap w) img = Some (AImg a) /\
    search_scales_pure a (x_range (self w)) (search_settings (self w))
      = Ok (windows, scores) /\
    cur = (length (heap w) + k)%nat /\
    w' = mkWorld (self w)
           ((heap w ++ repeat (AImg a) k) ++
            [AHeat (cap_heat (max_frame_heat (self w))
                             (gen_heatmap windows scores (img_shape a)))]).
Proof.
  unfold make_heatmap. intros E.
  apply bind_inv_ok in E. destruct E as (settings & w0 & E1 & E).
  apply gets_inv in E1. destruct E1 as [-> ->].
  apply bind_inv_ok in E. destruct E as (xr & w0 & E1 & E).
  apply gets_inv in E1. destruct E1 as [-> ->].
  apply bind_inv_ok in E. destruct E as ([ws ss] & w1 & Es & E).
  apply bind_inv_ok in E. destruct E as (a & w2 & Ea & E).
  apply read_img_inv in Ea. destruct Ea as [-> Ha1].
  assert (Ha : nth_error (heap w) img = Some (AImg a)).
  { destruct (search_scales_inv _ _ _ _ _ _ Es) as [[_ ->] | [a0 Ha0]]; [exact Ha1|].
    destruct (search_scales_run img (x_range (self w)) (search_settings (self w)) a0 w Ha0)
      as [k Hk].
    rewrite Hk in Es. inversion Es; subst. simpl in Ha1.
    rewrite nth_error_app1 in Ha1 by (apply nth_error_Some; congruence).
    congruence. }
  destruct (search_scales_run img (x_range (self w)) (search_settings (self w)) a w Ha)
    as [k Hk].
  rewrite Hk in Es. inversion Es as [[Hpure Hw1]]. subst w1. clear Es.
  unfold alloc in E. rewrite bind_run in E. cbn [heap self] in E.
  rewrite bind_run in E. cbn [gets self heap] in E.
  erewrite bind_ok in E by (apply read_heat_ok; cbn [heap]; apply nth_error_snoc).
  erewrite bind_ok in E
    by (apply write_ok; cbn [heap]; rewrite !length_app; simpl; lia).
  cbn [self heap] in E. rewrite list_set_snoc in E.
  unfold ret in E. inversion E; subst.
  exists a, ss, k. repeat split; auto.
  rewrite length_app, repeat_length. reflexivity.
Qed.

End Phases.

Section Fusion.
Context `{Collaborators}.

(** Lines 120-128 in still-image mode. *)
Lemma fuse_single (cur : loc) (w : World) : fuse cur true w = (Ok cur, w).
Proof. reflexivity. Qed.

(** Lines 120-128 in streaming mode, on a call that returns. *)
Lemma fuse_stream_inv (cur l : loc) (w w' : World) :
  fuse cur false w = (Ok l, w') ->
  let nl := push_history (heatmap_history (self w)) (nlast_heatmaps (self w)) cur in
  exists hs,
    self w' = mkCarFinder (search_settings (self w)) (x_range (self w))
                (max_frame_heat (self w)) (thresh_low (self w)) (thresh_high (self w))
                (heatmap_history (self w)) nl (viz (self w)) /\
    Forall2 (fun l h => nth_error (heap w) l = Some (AHeat h)) nl hs /\
    l = length (heap w) /\
    heap w' = heap w ++ [AHeat (py_sum hs)].
Proof.
  intros E nl. subst nl. unfold fuse in E.
  apply bind_inv_ok in E. destruct E as (nlast & w0 & E1 & E).
  apply gets_inv in E1. destruct E1 as [-> ->].
  apply bind_inv_ok in E. destruct E as (capacity & w0 & E1 & E).
  apply gets_inv in E1. destruct E1 as [-> ->].
  rewrite bind_run in E. cbn [set_nlast_heatmaps] in E.
  apply bind_inv_ok in E. destruct E as (nlast & w0 & E1 & E).
  apply gets_inv in E1. destruct E1 as [-> ->]. cbn [self nlast_heatmaps] in E.
  apply bind_inv_ok in E. destruct E as (hs & w0 & E1 & E).
  apply mapM_read_heat_inv in E1. destruct E1 as [-> Hhs]. cbn [heap] in Hhs.
  apply alloc_inv in E. destruct E as [-> ->]. cbn [self heap].
  exists hs. repeat split; auto.
Qed.

(** Lines 130-138 on a call that returns. *)
Lemma extract_regions_inv (heatmap : loc) (w w' : World) (lo hi : Q)
    (bboxes : list Rectangle) :
  extract_regions heatmap w = (Ok (lo, hi, bboxes), w') ->
  exists hm,
    nth_error (heap w) heatmap = Some (AHeat hm) /\
    lo = scaled_thresh (nlast_heatmaps (self w)) (thresh_low (self w)) /\
    hi = scaled_thresh (nlast_heatmaps (self w)) (thresh_high (self w)) /\
    hot_label_regions (label (zero_below lo hm hm)) (zero_below lo hm hm) hi = Ok bboxes /\
    w' = mkWorld (self w) (heap w ++ [AHeat (zero_below lo hm hm)]).
Proof.
  unfold extract_regions. intros E.
  apply bind_inv_ok in E. destruct E as (nlast & w0 & E1 & E).
  apply gets_inv in E1. destruct E1 as [-> ->].
  apply bind_inv_ok in E. destruct E as (tl & w0 & E1 & E).
  apply gets_inv in E1. destruct E1 as [-> ->].
  apply bind_inv_ok in E. destruct E as (th & w0 & E1 & E).
  apply gets_inv in E1. destruct E1 as [-> ->].
  apply bind_inv_ok in E. destruct E as (ht_loc & w0 & E1 & E).
  apply np_copy_inv in E1. destruct E1 as (x & Hx & -> & ->).
  apply bind_inv_ok in E. destruct E as (hm & w0 & E1 & E).
  apply read_heat_inv in E1. destruct E1 as [-> Hhm]. cbn [heap] in Hhm.
  assert (Hlt : (heatmap < length (heap w))%nat) by (apply nth_error_Some; congruence).
  rewrite nth_error_app1 in Hhm by exact Hlt.
  assert (x = AHeat hm) by congruence. subst x.
  erewrite bind_ok in E by (apply read_heat_ok; cbn [heap]; apply nth_error_snoc).
  erewrite bind_ok in E
    by (apply write_ok; cbn [heap]; rewrite !length_app; simpl; lia).
  cbn [self heap] in E. rewrite list_set_snoc in E.
  erewrite bind_ok in E by (apply read_heat_ok; cbn [heap]; apply nth_error_snoc).
  apply bind_inv_ok in E. destruct E as (bb & w0 & E1 & E).
  unfold lift in E1. inversion E1 as [[Ehot Ew0]]. subst w0.
  apply ret_inv in E. destruct E as [E ->]. inversion E; subst.
  exists hm. repeat split; auto.
Qed.

End Fusion.

Section Detect.
Context `{Collaborators}.

Lemma carfinder_eta (s : CarFinder) :
  mkCarFinder (search_settings s) (x_range s) (max_frame_heat s) (thresh_low s)
    (thresh_high s) (heatmap_history s) (nlast_heatmaps s) (viz s) = s.
Proof. destruct s; reflexivity. Qed.

(** Lines 110-138 on a call that returns: the arrays the call allocates, in
    order, are the copies of the search, the capped heatmap of the frame,
    the fused heatmap (streaming mode only) and the thresholded heatmap. *)
Lemma detect_inv (img : loc) (single : bool) (w w' : World) (d : Detection) :
  detect img single w = (Ok d, w') ->
  exists a scores k hm,
    let cur := (length (heap w) + k)%nat in
    let hcur := cap_heat (max_frame_heat (self w))
                  (gen_heatmap (det_windows d) scores (img_shape a)) in
    let nl := if single then nlast_heatmaps (self w)
              else push_history (heatmap_history (self w))
                     (nlast_heatmaps (self w)) cur in
    let before := (heap w ++ repeat (AImg a) k) ++ [AHeat hcur] in
    let ht := zero_below (det_thresh_low d) hm hm in
    nth_error (heap w) img = Some (AImg a) /\
    search_scales_pure a (x_range (self w)) (search_settings (self w))
      = Ok (det_windows d, scores) /\
    self w' = mkCarFinder (search_settings (self w)) (x_range (self w))
                (max_frame_heat (self w)) (thresh_low (self w)) (thresh_high (self w))
                (heatmap_history (self w)) nl (viz (self w)) /\
    (if single then hm = hcur
     else exists hs,
            Forall2 (fun l h => nth_error before l = Some (AHeat h)) nl hs /\
            hm = py_sum hs) /\
    det_heatmap d = (if single then cur else S cur) /\
    heap w' = (before ++ (if single then [] else [AHeat hm])) ++ [AHeat ht] /\
    det_thresh_low d = scaled_thresh nl (thresh_low (self w)) /\
    det_thresh_high d = scaled_thresh nl (thresh_high (self w)) /\
    hot_label_regions (label ht) ht (det_thresh_high d) = Ok (det_bboxes d).
Proof.
  unfold detect. intros E.
  apply bind_inv_ok in E. destruct E as ([windows cur] & w1 & E1 & E).
  apply make_heatmap_inv in E1. destruct E1 as (a & scores & k & Ha & Hs & -> & ->).
  apply bind_inv_ok in E. destruct E as (heatmap & w2 & E2 & E).
  apply bind_inv_ok in E. destruct E as ([[lo hi] bboxes] & w3 & E3 & E).
  apply ret_inv in E. destruct E as [-> ->]. cbn [det_windows det_heatmap det_thresh_low
    det_thresh_high det_bboxes].
  apply extract_regions_inv in E3. destruct E3 as (hm & Hhm & Hlo & Hhi & Hhot & ->).
  destruct single.
  - rewrite fuse_single in E2. inversion E2; subst heatmap w2. clear E2.
    cbn [self heap] in *.
    assert (Hlen : (length (heap w) + k)%nat = length (heap w ++ repeat (AImg a) k))
      by (rewrite length_app, repeat_length; reflexivity).
    rewrite Hlen in Hhm. rewrite nth_error_snoc in Hhm. inversion Hhm; subst hm.
    exists a, scores, k, (cap_heat (max_frame_heat (self w))
                            (gen_heatmap windows scores (img_shape a))).
    cbv zeta. rewrite app_nil_r, carfinder_eta.
    repeat split; auto.
  - apply fuse_stream_inv in E2. cbv zeta in E2.
    destruct E2 as (hs & Hself & Hhs & -> & Hheap). cbn [self heap] in *.
    rewrite Hheap in Hhm. rewrite nth_error_snoc in Hhm. inversion Hhm; subst hm.
    rewrite Hself in Hlo, Hhi. cbn [nlast_heatmaps thresh_low thresh_high] in Hlo, Hhi.
    exists a, scores, k, (py_sum hs). cbv zeta.
    rewrite Hself, Hheap.
    repeat split; auto.
    + exists hs. split; [exact Hhs | reflexivity].
    + rewrite !length_app, repeat_length. simpl. lia.
Qed.

End Detect.

(** ** Threshold scaling (C1) *)

(** In streaming mode the thresholds are scaled by the number of heatmaps
    that were summed. *)
Lemma detect_stream_thresholds `{Collaborators} (img : loc) (w w' : World) (d : Detection) :
  detect img false w = (Ok d, w') ->
  exists hs,
    Forall2 (fun l h => nth_error (heap w') l = Some (AHeat h))
            (nlast_heatmaps (self w')) hs /\
    nth_error (heap w') (det_heatmap d) = Some (AHeat (py_sum hs)) /\
    (det_thresh_low d == inject_Z (Z.of_nat (length hs)) * thresh_low (self w))%Q /\
    (det_thresh_high d == inject_Z (Z.of_nat (length hs)) * thresh_high (self w))%Q.
Proof.
  intros E. apply detect_inv in E. cbv zeta in E.
  destruct E as (a & scores & k & hm & Ha & Hs & Hself & (hs & Hhs & ->) & Hd & Hheap
                 & Hlo & Hhi & Hhot).
  exists hs. rewrite Hself, Hheap. cbn [nlast_heatmaps].
  assert (Hlen := Forall2_length Hhs).
  repeat split.
  - eapply Forall2_impl; [|exact Hhs]. intros l h Hl. cbv beta in Hl.
    rewrite <- app_assoc. rewrite nth_error_app1; [exact Hl|].
    apply nth_error_Some. congruence.
  - rewrite Hd. rewrite nth_error_app1.
    + replace (S (length (heap w) + k)) with
        (length ((heap w ++ repeat (AImg a) k) ++
                 [AHeat (cap_heat (max_frame_heat (self w))
                           (gen_heatmap (det_windows d) scores (img_shape a)))]))
        by (rewrite !length_app, repeat_length; simpl; lia).
      apply nth_error_snoc.
    + rewrite !length_app, repeat_length. simpl. lia.
  - rewrite Hlo. unfold scaled_thresh. rewrite <- Hlen. reflexivity.
  - rewrite Hhi. unfold scaled_thresh. rewrite <- Hlen. reflexivity.
Qed.

(** In still-image mode one heatmap is used, but the thresholds are scaled
    by the length of the history, which the call leaves as it was. *)
Lemma detect_single_thresholds `{Collaborators} (img : loc) (w w' : World) (d : Detection) :
  detect img true w = (Ok d, w') ->
  nlast_heatmaps (self w') = nlast_heatmaps (self w) /\
  det_thresh_low d = scaled_thresh (nlast_heatmaps (self w)) (thresh_low (self w)) /\
  det_thresh_high d = scaled_thresh (nlast_heatmaps (self w)) (thresh_high (self w)).
Proof.
  intros E. apply detect_inv in E. cbv zeta in E.
  destruct E as (a & scores & k & hm & Ha & Hs & Hself & _ & Hd & Hheap & Hlo & Hhi & _).
  rewrite Hself. cbn [nlast_heatmaps]. auto.
Qed.

(** C1 at a fresh finder in still-image mode: one heatmap is fused, and the
    thresholds used are 0, not 1 x thresh_low = 1/10 and 1 x thresh_high =
    1/4; the whole window area is returned as a car. *)
Theorem find_cars_single_thresholds_zero :
  exists d r w',
    find_cars_detections 0%nat true (Toy.world "cars" 16) = (Ok (d, r), w') /\
    nlast_heatmaps (self (Toy.world "cars" 16)) = [] /\
    (det_thresh_low d == 0)%Q /\ (det_thresh_high d == 0)%Q /\
    ~ (det_thresh_low d == 1 * thresh_low (self (Toy.world "cars" 16)))%Q /\
    ~ (det_thresh_high d == 1 * thresh_high (self (Toy.world "cars" 16)))%Q /\
    det_bboxes d = [((1, 1), (3, 3))].
Proof.
  do 3 eexists. split; [vm_compute; reflexivity|]. cbn.
  repeat split; try reflexivity; intros Habs; discriminate Habs.
Qed.

(** ** The core test of the labelled regions (C2) *)

Lemma hot_label_fold_raise (arr : list (list Z)) (hm : Heatmap) (t : Q) (ids : list Z)
    (e : exn) :
  fold_left (hot_label_step arr hm t) ids (Raise e) = Raise e.
Proof. induction ids as [|id ids IH]; simpl; [reflexivity | exact IH]. Qed.

Lemma hot_label_fold_inv (arr : list (list Z)) (hm : Heatmap) (t : Q) (ids : list Z) :
  forall acc bboxes,
    fold_left (hot_label_step arr hm t) ids (Ok acc) = Ok bboxes ->
    exists boxes,
      Forall2 (fun id b => label_bbox arr id = Some b) ids boxes /\
      bboxes = acc ++ filter (core_hot hm t) boxes.
Proof.
  induction ids as [|id ids IH]; intros acc bboxes E;
    cbn [fold_left hot_label_step] in E.
  - inversion E; subst. exists []. split; [constructor | now rewrite app_nil_r].
  - destruct (label_bbox arr id) as [bbox|] eqn:Eb;
      [|rewrite hot_label_fold_raise in E; discriminate E].
    destruct (heat_at hm (fst (bbox_core bbox)) (snd (bbox_core bbox))) as [v|] eqn:Ev;
      [|rewrite hot_label_fold_raise in E; discriminate E].
    destruct (Qgeb v t) eqn:Eg.
    + destruct (IH _ _ E) as (boxes & HF & ->).
      exists (bbox :: boxes). split; [now constructor|].
      assert (Hc : core_hot hm t bbox = true) by (unfold core_hot; now rewrite Ev, Eg).
      cbn [filter]. rewrite Hc. now rewrite <- app_assoc.
    + destruct (IH _ _ E) as (boxes & HF & ->).
      exists (bbox :: boxes). split; [now constructor|].
      assert (Hc : core_hot hm t bbox = false) by (unfold core_hot; now rewrite Ev, Eg).
      cbn [filter]. now rewrite Hc.
Qed.

(** hot_label_regions, when it returns: the boxes of the labels in
    ascending order, filtered by the core test on the heatmap it is given. *)
Lemma hot_label_regions_inv (labels : Labels) (hm : Heatmap) (t : Q)
    (bboxes : list Rectangle) :
  hot_label_regions labels hm t = Ok bboxes ->
  exists boxes,
    Forall2 (fun id b => label_bbox (fst labels) id = Some b)
            (label_ids (snd labels)) boxes /\
    bboxes = filter (core_hot hm t) boxes.
Proof.
  unfold hot_label_regions. intros E.
  destruct (hot_label_fold_inv _ _ _ _ _ _ E) as (boxes & HF & ->).
  now exists boxes.
Qed.

Lemma zero_below_map (lo : Q) (hm : Heatmap) :
  zero_below lo hm hm = map (map (fun v => if Qltb v lo then 0%Q else v)) hm.
Proof.
  unfold zero_below, masked_set. rewrite map2_diag.
  apply map_ext. intros row. apply map2_diag.
Qed.

Lemma heat_at_map (f : Q -> Q) (hm : Heatmap) (y x : Z) :
  heat_at (map (map f) hm) y x = option_map f (heat_at hm y x).
Proof.
  unfold heat_at. rewrite length_map.
  destruct ((_ <? 0) || _); [reflexivity|].
  rewrite nth_error_map.
  destruct (nth_error hm _) as [row|]; simpl; [|reflexivity].
  rewrite length_map.
  destruct ((_ <? 0) || _); [reflexivity|].
  now rewrite nth_error_map.
Qed.

Lemma heat_at_In (hm : Heatmap) (y x : Z) (v : Q) :
  heat_at hm y x = Some v -> exists row, In row hm /\ In v row.
Proof.
  unfold heat_at.
  destruct ((_ <? 0) || _); [discriminate|].
  destruct (nth_error hm _) as [row|] eqn:Er; [|discriminate].
  destruct ((_ <? 0) || _); [discriminate|].
  intros Ev. exists row. split; eapply nth_error_In; eassumption.
Qed.

Lemma Qgeb_true_iff (a b : Q) : Qgeb a b = true <-> (b <= a)%Q.
Proof. unfold Qgeb. apply Qle_bool_iff. Qed.

Lemma Qltb_true_lt (a b : Q) : Qltb a b = true -> (a < b)%Q.
Proof.
  unfold Qltb. intros E. apply negb_true_iff in E.
  apply Qnot_le_lt. intros Hle. apply Qle_bool_iff in Hle. congruence.
Qed.

(** Zeroing a value below the low threshold does not change the outcome of
    the test against the high threshold when low <= high and either the
    high threshold is positive or the value is not negative. *)
Lemma core_test_zeroed (lo hi v : Q) :
  (lo <= hi)%Q -> (0 < hi)%Q \/ (0 <= v)%Q ->
  Qgeb (if Qltb v lo then 0%Q else v) hi = Qgeb v hi.
Proof.
  intros Hlh Hpos. destruct (Qltb v lo) eqn:E; [|reflexivity].
  apply Qltb_true_lt in E.
  assert (Hv : (v < hi)%Q) by (eapply Qlt_le_trans; eassumption).
  assert (H0 : (0 < hi)%Q).
  { destruct Hpos as [Hp | Hp]; [exact Hp | eapply Qle_lt_trans; eassumption]. }
  apply eq_true_iff_eq. rewrite !Qgeb_true_iff.
  split; intros Hle; exfalso.
  - apply (Qlt_irrefl hi). eapply Qle_lt_trans; eassumption.
  - apply (Qlt_irrefl hi). eapply Qle_lt_trans; eassumption.
Qed.

Lemma core_hot_zero_below (lo hi : Q) (hm : Heatmap) (bbox : Rectangle) :
  (lo <= hi)%Q -> (0 < hi)%Q \/ heat_nonneg hm ->
  core_hot (zero_below lo hm hm) hi bbox = core_hot hm hi bbox.
Proof.
  intros Hlh Hpos. unfold core_hot. rewrite zero_below_map, heat_at_map.
  destruct (heat_at hm _ _) as [v|] eqn:Ev; simpl; [|reflexivity].
  apply core_test_zeroed; [exact Hlh|].
  destruct Hpos as [Hp | Hn]; [now left | right].
  destruct (heat_at_In _ _ _ _ Ev) as (row & Hrow & Hv).
  unfold heat_nonneg in Hn. rewrite Forall_forall in Hn.
  specialize (Hn row Hrow). rewrite Forall_forall in Hn. now apply Hn.
Qed.

Lemma detect_heatmap_lookup `{Collaborators} (img : loc) (single : bool) (w w' : World)
    (d : Detection) :
  detect img single w = (Ok d, w') ->
  exists hm,
    nth_error (heap w') (det_heatmap d) = Some (AHeat hm) /\
    hot_label_regions (label (zero_below (det_thresh_low d) hm hm))
      (zero_below (det_thresh_low d) hm hm) (det_thresh_high d) = Ok (det_bboxes d).
Proof.
  intros E. apply detect_inv in E. cbv zeta in E.
  destruct E as (a & scores & k & hm & Ha & Hs & Hself & Hhm & Hd & Hheap & Hlo & Hhi & Hhot).
  exists hm. split; [|exact Hhot].
  rewrite Hheap, Hd. rewrite nth_error_app1.
  - destruct single.
    + subst hm. rewrite app_nil_r.
      replace (length (heap w) + k)%nat with (length (heap w ++ repeat (AImg a) k))
        by (rewrite length_app, repeat_length; reflexivity).
      apply nth_error_snoc.
    + match goal with
      | |- nth_error (?l ++ [_]) _ = _ =>
          replace (S (length (heap w) + k)) with (length l)
            by (rewrite !length_app, repeat_length; simpl; lia)
      end.
      apply nth_error_snoc.
  - rewrite !length_app, repeat_length. destruct single; simpl; lia.
Qed.

(** C2, as the code has it: hot_label_regions is given the thresholded
    heatmap.  The boxes returned are, in ascending label order, the boxes
    of the labelled components whose core cell holds at least the high
    threshold in the thresholded heatmap.  When the low threshold is at
    most the high one, and the high one is positive or no fused value is
    negative, the fused heatmap gives the same test. *)
Theorem hot_regions_core_test `{Collaborators} (img : loc) (single : bool) (w w' : World)
    (d : Detection) :
  detect img single w = (Ok d, w') ->
  exists hm boxes,
    nth_error (heap w') (det_heatmap d) = Some (AHeat hm) /\
    Forall2 (fun id b =>
               label_bbox (fst (label (zero_below (det_thresh_low d) hm hm))) id = Some b)
            (label_ids (snd (label (zero_below (det_thresh_low d) hm hm)))) boxes /\
    det_bboxes d =
      filter (core_hot (zero_below (det_thresh_low d) hm hm) (det_thresh_high d)) boxes /\
    ((det_thresh_low d <= det_thresh_high d)%Q ->
     (0 < det_thresh_high d)%Q \/ heat_nonneg hm ->
     det_bboxes d = filter (core_hot hm (det_thresh_high d)) boxes).
Proof.
  intros E. destruct (detect_heatmap_lookup _ _ _ _ _ E) as (hm & Hlook & Hhot).
  destruct (hot_label_regions_inv _ _ _ _ Hhot) as (boxes & HF & Hb).
  exists hm, boxes. repeat split; try assumption.
  intros Hlh Hpos. rewrite Hb. apply filter_ext.
  intros b. now apply core_hot_zero_below.
Qed.

Lemma hot_regions_core_test_witness :
  detect 0%nat false (Toy.world "cars" 16) = (Ok Toy.first_detection, Toy.first_world) /\
  (det_thresh_low Toy.first_detection <= det_thresh_high Toy.first_detection)%Q /\
  (0 < det_thresh_high Toy.first_detection)%Q /\
  exists hm boxes,
    nth_error (heap Toy.first_world) (det_heatmap Toy.first_detection) = Some (AHeat hm) /\
    det_bboxes Toy.first_detection =
      filter (core_hot hm (det_thresh_high Toy.first_detection)) boxes.
Proof.
  assert (E : detect 0%nat false (Toy.world "cars" 16)
              = (Ok Toy.first_detection, Toy.first_world)) by (vm_compute; reflexivity).
  assert (Hlh : (det_thresh_low Toy.first_detection
                 <= det_thresh_high Toy.first_detection)%Q)
    by (vm_compute; discriminate).
  assert (Hpos : (0 < det_thresh_high Toy.first_detection)%Q) by (vm_compute; reflexivity).
  split; [exact E|]. split; [exact Hlh|]. split; [exact Hpos|].
  destruct (hot_regions_core_test 0%nat false _ _ _ E) as (hm & boxes & Hl & _ & _ & Hf).
  exists hm, boxes. split; [exact Hl|]. apply Hf; [exact Hlh | now left].
Defined.

(** C2 as stated fails when the low threshold is above the high one: the
    component of the hook-shaped region has the box ((0,0),(3,3)), the
    fused heatmap holds 1/2 >= 1/2 at its core (1,1), and the box is not
    kept, the thresholded heatmap holding 0 there. *)
Lemma hot_regions_core_test_counterexample :
  exists d r w' hm,
    find_cars_detections 0%nat false Toy.hook_world = (Ok (d, r), w') /\
    nth_error (heap w') (det_heatmap d) = Some (AHeat hm) /\
    label_bbox (fst (Toy.ccl (zero_below (det_thresh_low d) hm hm))) 1
      = Some ((0, 0), (3, 3)) /\
    bbox_core ((0, 0), (3, 3)) = (1, 1) /\
    heat_at hm 1 1 = Some (0 + (1 # 2))%Q /\
    Qgeb (0 + (1 # 2))%Q (det_thresh_high d) = true /\
    ~ In ((0, 0), (3, 3)) (det_bboxes d).
Proof.
  do 4 eexists. split; [vm_compute; reflexivity|].
  split; [vm_compute; reflexivity|].
  split; [vm_compute; reflexivity|].
  split; [reflexivity|].
  split; [vm_compute; reflexivity|].
  split; [vm_compute; reflexivity|].
  cbn. tauto.
Qed.

(** ** The visualization assigns no field of the finder *)

Section SelfRules.
Context `{Collaborators}.

Lemma keeps_self_ret {A : Type} (a : A) : keeps_self (ret a).
Proof. intros w. reflexivity. Qed.

Lemma keeps_self_bind {A B : Type} (m : M A) (k : A -> M B) :
  keeps_self m -> (forall a, keeps_self (k a)) -> keeps_self (bind m k).
Proof.
  intros Hm Hk w. rewrite bind_run. specialize (Hm w).
  destruct (m w) as [[a|e] w1]; simpl in *; [|exact Hm].
  rewrite (Hk a w1). exact Hm.
Qed.

Lemma keeps_self_lift {A : Type} (r : res A) : keeps_self (lift r).
Proof. intros w. reflexivity. Qed.

Lemma keeps_self_raising (o : option exn) : keeps_self (raising o).
Proof. intros w. reflexivity. Qed.

Lemma keeps_self_gets {A : Type} (f : CarFinder -> A) : keeps_self (gets f).
Proof. intros w. reflexivity. Qed.

Lemma keeps_self_alloc (a : ndarray) : keeps_self (alloc a).
Proof. intros w. reflexivity. Qed.

Lemma keeps_self_read (l : loc) : keeps_self (read l).
Proof. intros w. unfold read. destruct (nth_error (heap w) l); reflexivity. Qed.

Lemma keeps_self_write (l : loc) (a : ndarray) : keeps_self (write l a).
Proof. intros w. unfold write. destruct (l <? length (heap w))%nat; reflexivity. Qed.

Create HintDb keeps_self discriminated.
Hint Resolve keeps_self_ret keeps_self_lift keeps_self_raising keeps_self_gets
  keeps_self_alloc keeps_self_read keeps_self_write : keeps_self.

Ltac self_step :=
  repeat first
    [ apply keeps_self_bind; [ | intros ? ]
    | match goal with
      | |- keeps_self (match ?x with _ => _ end) => destruct x
      | |- keeps_self (if ?b then _ else _) => destruct b
      end
    | solve [ auto with keeps_self ] ].

Lemma keeps_self_read_img (l : loc) : keeps_self (read_img l).
Proof. unfold read_img. self_step. Qed.

Lemma keeps_self_read_heat (l : loc) : keeps_self (read_heat l).
Proof. unfold read_heat. self_step. Qed.

Lemma keeps_self_read_gray (l : loc) : keeps_self (read_gray l).
Proof. unfold read_gray. self_step. Qed.

Lemma keeps_self_np_copy (l : loc) : keeps_self (np_copy l).
Proof. unfold np_copy. self_step. Qed.

Hint Resolve keeps_self_read_img keeps_self_read_heat keeps_self_read_gray
  keeps_self_np_copy : keeps_self.

Lemma keeps_self_cv2_rectangle_at (l : loc) (bbox : Rectangle) (color : Color) (thick : Z) :
  keeps_self (cv2_rectangle_at l bbox color thick).
Proof. unfold cv2_rectangle_at. self_step. Qed.

Lemma keeps_self_draw_each (rectangles : list Rectangle) (color : Color) (thick : Z) :
  forall l, keeps_self (draw_each l rectangles color thick).
Proof.
  induction rectangles as [|bbox rest IH]; intros l; simpl.
  - apply keeps_self_ret.
  - apply keeps_self_bind; [apply keeps_self_cv2_rectangle_at | intros l'; apply IH].
Qed.

Hint Resolve keeps_self_draw_each : keeps_self.

Lemma keeps_self_draw_rectangles (img : loc) (rectangles : list Rectangle)
    (color : Color) (thick : Z) :
  keeps_self (draw_rectangles img rectangles color thick).
Proof. unfold draw_rectangles. self_step. Qed.

Hint Resolve keeps_self_draw_rectangles : keeps_self.

Lemma keeps_self_visualize (img : loc) (d : Detection) : keeps_self (visualize img d).
Proof. unfold visualize. self_step. Qed.

End SelfRules.

(** ** The heatmap history (C4) *)

Lemma push_history_lastn (cap : Z) (nlast : list loc) (cur : loc) :
  1 <= cap -> push_history cap nlast cur = lastn (Z.to_nat cap) (nlast ++ [cur]).
Proof.
  intros Hcap. unfold push_history, lastn, py_slice_from, slice_bound.
  destruct (Z.of_nat (length (nlast ++ [cur])) >? cap) eqn:E.
  - apply Z.gtb_lt in E.
    destruct (- cap <? 0) eqn:E'; [|apply Z.ltb_ge in E'; lia].
    f_equal. lia.
  - assert (Hle : Z.of_nat (length (nlast ++ [cur])) <= cap).
    { destruct (Z.gtb_spec (Z.of_nat (length (nlast ++ [cur]))) cap); [discriminate | lia]. }
    replace (length (nlast ++ [cur]) - Z.to_nat cap)%nat with 0%nat by lia.
    reflexivity.
Qed.

Lemma lastn_app_lastn {A : Type} (c : nat) (l l' : list A) :
  lastn c (lastn c l ++ l') = lastn c (l ++ l').
Proof.
  unfold lastn. rewrite !length_app, length_skipn.
  destruct (Nat.le_gt_cases (length l) c) as [Hle | Hgt].
  - replace (length l - c)%nat with 0%nat by lia. simpl.
    now rewrite Nat.sub_0_r.
  - rewrite (skipn_app (length l + length l' - c)).
    rewrite (skipn_app (length l - (length l - c) + length l' - c)).
    rewrite length_skipn.
    replace (length l - (length l - c) + length l' - c)%nat with (length l') by lia.
    replace (length l + length l' - c - length l)%nat
      with (length l' - (length l - (length l - c)))%nat by lia.
    f_equal.
    rewrite skipn_skipn. f_equal. lia.
Qed.

Lemma fold_push_history (cap : Z) (heats : list loc) :
  1 <= cap -> heats <> [] ->
  forall nlast,
    fold_left (push_history cap) heats nlast = lastn (Z.to_nat cap) (nlast ++ heats).
Proof.
  intros Hcap. induction heats as [|cur heats IH]; intros Hne nlast; [congruence|].
  simpl. rewrite push_history_lastn by assumption.
  destruct heats as [|cur' heats].
  - reflexivity.
  - rewrite IH by discriminate. rewrite lastn_app_lastn.
    now rewrite <- app_assoc.
Qed.

Lemma lastn_app_long {A : Type} (c : nat) (l l' : list A) :
  (c <= length l')%nat -> lastn c (l ++ l') = lastn c l' /\ length (lastn c l') = c.
Proof.
  intros Hc. unfold lastn. split.
  - rewrite length_app, skipn_app.
    rewrite skipn_all2 by lia. simpl. f_equal. lia.
  - rewrite length_skipn. lia.
Qed.

Lemma find_cars_stream_inv `{Collaborators} (img : loc) (w w' : World) (r : loc) :
  find_cars img false w = (Ok r, w') ->
  exists a hm cur ext,
    nth_error (heap w) img = Some (AImg a) /\
    frame_heatmap (self w) a = Ok hm /\
    nth_error (heap w') cur = Some (AHeat hm) /\
    self w' = with_history (self w)
                (push_history (heatmap_history (self w)) (nlast_heatmaps (self w)) cur) /\
    heap w' = heap w ++ ext.
Proof.
  unfold find_cars, find_cars_detections. intros E.
  apply bind_inv_ok in E. destruct E as ([d r'] & w2 & E & E2).
  apply ret_inv in E2. destruct E2 as [_ Hw']. subst w'.
  apply bind_inv_ok in E. destruct E as (d' & w1 & Ed & E).
  apply bind_inv_ok in E. destruct E as (r'' & w3 & Ev & E).
  apply ret_inv in E. destruct E as [E Hw2]. subst w2. inversion E; subst d' r''. clear E.
  pose proof (keeps_self_visualize img d w1) as Hself. rewrite Ev in Hself. simpl in Hself.
  destruct (keeps_prefix (visualize img d) _ w1 (keeps_visualize _ img d)) as [ext Hext].
  rewrite Ev in Hext. simpl in Hext.
  apply detect_inv in Ed. cbv zeta in Ed.
  destruct Ed as (a & scores & k & hm & Ha & Hs & Hself1 & _ & _ & Hheap & _).
  exists a, (cap_heat (max_frame_heat (self w))
               (gen_heatmap (det_windows d) scores (img_shape a))),
         (length (heap w) + k)%nat.
  eexists. split; [exact Ha|]. split.
  { unfold frame_heatmap. now rewrite Hs. }
  split; [|split].
  - rewrite Hext, Hheap.
    replace (length (heap w) + k)%nat with (length (heap w ++ repeat (AImg a) k))
      by (rewrite length_app, repeat_length; reflexivity).
    rewrite <- !app_assoc. rewrite (app_assoc (heap w)).
    rewrite nth_error_app2 by lia. rewrite Nat.sub_diag. reflexivity.
  - rewrite Hself, Hself1. reflexivity.
  - rewrite Hext, Hheap. rewrite <- !app_assoc. reflexivity.
Qed.

Lemma with_history_same (s : CarFinder) : with_history s (nlast_heatmaps s) = s.
Proof. destruct s; reflexivity. Qed.

Lemma frame_heatmap_with_history `{Collaborators} (s : CarFinder) (l : list loc) (a : Image) :
  frame_heatmap (with_history s l) a = frame_heatmap s a.
Proof. reflexivity. Qed.

(** A run of streaming calls that all return: each frame's capped heatmap
    sits in an array of its own, and the history is the initial one with
    these arrays pushed in arrival order. *)
Lemma stream_inv `{Collaborators} (imgs : list loc) :
  forall (w w' : World) (rets : list loc),
    stream imgs w = (Ok rets, w') ->
    exists heats ext,
      Forall2 (fun img cur =>
                 exists a hm,
                   nth_error (heap w') img = Some (AImg a) /\
                   frame_heatmap (self w) a = Ok hm /\
                   nth_error (heap w') cur = Some (AHeat hm)) imgs heats /\
      self w' = with_history (self w)
                  (fold_left (push_history (heatmap_history (self w))) heats
                             (nlast_heatmaps (self w))) /\
      heap w' = heap w ++ ext.
Proof.
  unfold stream.
  induction imgs as [|img imgs IH]; intros w w' rets E; simpl in E.
  - apply ret_inv in E. destruct E as [_ ->].
    exists [], []. split; [constructor|]. split.
    + simpl. now rewrite with_history_same.
    + now rewrite app_nil_r.
  - apply bind_inv_ok in E. destruct E as (r & w1 & E1 & E).
    apply bind_inv_ok in E. destruct E as (rs & w2 & E2 & E).
    apply ret_inv in E. destruct E as [_ ->].
    apply find_cars_stream_inv in E1.
    destruct E1 as (a & hm & cur & ext1 & Ha & Hf & Hcur & Hself1 & Hheap1).
    destruct (IH _ _ _ E2) as (heats & ext & HF & Hself & Hheap).
    exists (cur :: heats), (ext1 ++ ext). split; [|split].
    + constructor.
      * exists a, hm. rewrite Hheap.
        split; [|split; [exact Hf|]].
        -- rewrite Hheap1, <- app_assoc.
           rewrite nth_error_app1; [exact Ha | apply nth_error_Some; congruence].
        -- rewrite nth_error_app1; [exact Hcur | apply nth_error_Some; congruence].
      * eapply Forall2_impl; [|exact HF]. intros i c (a' & hm' & H1 & H2 & H3).
        exists a', hm'. rewrite Hself1 in H2. auto.
    + rewrite Hself, Hself1. reflexivity.
    + rewrite Hheap, Hheap1. now rewrite app_assoc.
Qed.

(** C4: after a run of streaming calls with at least as many frames as the
    history capacity (a capacity of at least 1), the history holds exactly
    capacity arrays: the capped heatmaps of the most recent frames, in
    arrival order. *)
Theorem history_fifo `{Collaborators} (imgs : list loc) (w w' : World) (rets : list loc) :
  1 <= heatmap_history (self w) ->
  heatmap_history (self w) <= Z.of_nat (length imgs) ->
  stream imgs w = (Ok rets, w') ->
  exists heats,
    Forall2 (fun img cur =>
               exists a hm,
                 nth_error (heap w') img = Some (AImg a) /\
                 frame_heatmap (self w) a = Ok hm /\
                 nth_error (heap w') cur = Some (AHeat hm)) imgs heats /\
    nlast_heatmaps (self w') =
      skipn (length heats - Z.to_nat (heatmap_history (self w))) heats /\
    Z.of_nat (length (nlast_heatmaps (self w'))) = heatmap_history (self w).
Proof.
  intros Hcap Hlen E.
  destruct (stream_inv imgs w w' rets E) as (heats & ext & HF & Hself & _).
  exists heats. split; [exact HF|].
  assert (Hn : length heats = length imgs) by (symmetry; exact (Forall2_length HF)).
  assert (Hne : heats <> []) by (destruct heats; [simpl in Hn; lia | discriminate]).
  rewrite Hself. cbn [with_history nlast_heatmaps].
  rewrite fold_push_history by assumption.
  destruct (lastn_app_long (Z.to_nat (heatmap_history (self w)))
              (nlast_heatmaps (self w)) heats) as [Hl Hc]; [unfold loc in *; lia|].
  rewrite Hl. split; [reflexivity|]. rewrite Hc. lia.
Qed.

Lemma history_fifo_witness :
  (1 <= heatmap_history (self (Toy.world "cars" 2)) /\
   heatmap_history (self (Toy.world "cars" 2)) <= Z.of_nat (length [0; 0; 0]%nat)) /\
  fst (stream [0; 0; 0]%nat (Toy.world "cars" 2)) = Ok [5; 10; 15]%nat /\
  exists heats,
    Forall2 (fun img cur =>
               exists a hm,
                 nth_error (heap (snd (stream [0; 0; 0]%nat (Toy.world "cars" 2)))) img
                   = Some (AImg a) /\
                 frame_heatmap (self (Toy.world "cars" 2)) a = Ok hm /\
                 nth_error (heap (snd (stream [0; 0; 0]%nat (Toy.world "cars" 2)))) cur
                   = Some (AHeat hm)) [0; 0; 0]%nat heats /\
    nlast_heatmaps (self (snd (stream [0; 0; 0]%nat (Toy.world "cars" 2)))) =
      skipn (length heats - Z.to_nat (heatmap_history (self (Toy.world "cars" 2)))) heats /\
    Z.of_nat (length (nlast_heatmaps (self (snd (stream [0; 0; 0]%nat (Toy.world "cars" 2))))))
      = heatmap_history (self (Toy.world "cars" 2)).
Proof.
  assert (H1 : 1 <= heatmap_history (self (Toy.world "cars" 2))) by (simpl; lia).
  assert (H2 : heatmap_history (self (Toy.world "cars" 2))
               <= Z.of_nat (length [0; 0; 0]%nat)) by (simpl; lia).
  assert (E : stream [0; 0; 0]%nat (Toy.world "cars" 2)
              = (Ok [5; 10; 15]%nat, snd (stream [0; 0; 0]%nat (Toy.world "cars" 2))))
    by (vm_compute; reflexivity).
  split; [now split|]. split; [now rewrite E|].
  exact (history_fifo [0; 0; 0]%nat _ _ _ H1 H2 E).
Defined.

(** ** Detection does not consult the visualization option (C8) *)

Section VizBlind.
Context `{Collaborators}.

Lemma viz_blind_ret {A : Type} (a : A) : viz_blind (ret a).
Proof. intros w1 w2 Hs. split; [reflexivity | exact Hs]. Qed.

Lemma viz_blind_lift {A : Type} (r : res A) : viz_blind (lift r).
Proof. intros w1 w2 Hs. split; [reflexivity | exact Hs]. Qed.

Lemma viz_blind_bind {A B : Type} (m : M A) (k : A -> M B) :
  viz_blind m -> (forall a, viz_blind (k a)) -> viz_blind (bind m k).
Proof.
  intros Hm Hk w1 w2 Hs. rewrite !bind_run.
  destruct (Hm w1 w2 Hs) as [Hr Hs'].
  destruct (m w1) as [[a1|e1] w1'], (m w2) as [[a2|e2] w2']; simpl in *;
    try discriminate.
  - inversion Hr; subst. now apply Hk.
  - inversion Hr; subst. split; [reflexivity | exact Hs'].
Qed.

Lemma viz_blind_gets {A : Type} (f : CarFinder -> A) :
  (forall c1 c2, same_but_viz c1 c2 -> f c1 = f c2) -> viz_blind (gets f).
Proof.
  intros Hf w1 w2 Hs. unfold gets. simpl. split; [|exact Hs].
  f_equal. apply Hf. apply Hs.
Qed.

Lemma viz_blind_set_nlast (l : list loc) : viz_blind (set_nlast_heatmaps l).
Proof.
  intros w1 w2 [Hc Hh]. unfold set_nlast_heatmaps. simpl. split; [reflexivity|].
  split; [|exact Hh]. unfold same_but_viz in *. simpl. tauto.
Qed.

Lemma viz_blind_alloc (a : ndarray) : viz_blind (alloc a).
Proof.
  intros w1 w2 [Hc Hh]. unfold alloc. simpl. rewrite Hh. split; [reflexivity|].
  split; [exact Hc | reflexivity].
Qed.

Lemma viz_blind_read (l : loc) : viz_blind (read l).
Proof.
  intros w1 w2 [Hc Hh]. unfold read. rewrite Hh.
  destruct (nth_error (heap w2) l); simpl; (split; [reflexivity | now split]).
Qed.

Lemma viz_blind_write (l : loc) (a : ndarray) : viz_blind (write l a).
Proof.
  intros w1 w2 [Hc Hh]. unfold write. rewrite Hh.
  destruct (l <? length (heap w2))%nat; simpl; (split; [reflexivity|]).
  - split; [exact Hc | reflexivity].
  - now split.
Qed.

Create HintDb viz_blind discriminated.
Hint Resolve viz_blind_ret viz_blind_lift viz_blind_set_nlast viz_blind_alloc
  viz_blind_read viz_blind_write : viz_blind.

Ltac blind_step :=
  repeat first
    [ apply viz_blind_bind; [ | intros ? ]
    | apply viz_blind_gets; unfold same_but_viz; intros; tauto
    | match goal with
      | |- viz_blind (match ?x with _ => _ end) => destruct x
      | |- viz_blind (if ?b then _ else _) => destruct b
      end
    | solve [ auto with viz_blind ] ].

Lemma viz_blind_read_img (l : loc) : viz_blind (read_img l).
Proof. unfold read_img. blind_step. Qed.

Lemma viz_blind_read_heat (l : loc) : viz_blind (read_heat l).
Proof. unfold read_heat. blind_step. Qed.

Lemma viz_blind_np_copy (l : loc) : viz_blind (np_copy l).
Proof. unfold np_copy. blind_step. Qed.

Hint Resolve viz_blind_read_img viz_blind_read_heat viz_blind_np_copy : viz_blind.

Lemma viz_blind_mapM_read_heat (ls : list loc) : viz_blind (mapM read_heat ls).
Proof. induction ls as [|l ls IH]; simpl; blind_step. Qed.

Lemma viz_blind_window_search_cars (img : loc) (xr yr : Z * Z) (scale overlap : Q) :
  viz_blind (window_search_cars img xr yr scale overlap).
Proof. unfold window_search_cars. blind_step. Qed.

Lemma viz_blind_search_scales (img : loc) (xr : Z * Z) (settings : list (Z * Z * Q * Q)) :
  viz_blind (search_scales img xr settings).
Proof.
  induction settings as [|[[[ystart ystop] scale] overlap] rest IH]; simpl.
  - apply viz_blind_ret.
  - apply viz_blind_bind; [apply viz_blind_window_search_cars|].
    intros [wd ws]. apply viz_blind_bind; [exact IH|].
    intros [wds wss]. apply viz_blind_ret.
Qed.

Hint Resolve viz_blind_mapM_read_heat viz_blind_search_scales : viz_blind.

Lemma viz_blind_make_heatmap (img : loc) : viz_blind (make_heatmap img).
Proof. unfold make_heatmap. blind_step. Qed.

Lemma viz_blind_fuse (cur : loc) (single : bool) : viz_blind (fuse cur single).
Proof. unfold fuse. blind_step. Qed.

Lemma viz_blind_extract_regions (heatmap : loc) : viz_blind (extract_regions heatmap).
Proof. unfold extract_regions. blind_step. Qed.

Hint Resolve viz_blind_make_heatmap viz_blind_fuse viz_blind_extract_regions : viz_blind.

Lemma viz_blind_detect (img : loc) (single : bool) : viz_blind (detect img single).
Proof. unfold detect. blind_step. Qed.

Lemma sim_with_viz (v1 v2 : string) (w : World) : sim (with_viz v1 w) (with_viz v2 w).
Proof. unfold sim, same_but_viz, with_viz. simpl. tauto. Qed.

End VizBlind.

(** ** Drawing one rectangle on an array *)

Section Visualize.
Context `{Collaborators}.

Lemma cv2_rectangle_at_ok (l : loc) (bbox : Rectangle) (color : Color) (thick : Z)
    (w : World) (a : Image) :
  nth_error (heap w) l = Some (AImg a) ->
  cv2_rectangle_at l bbox color thick w =
  (Ok l, mkWorld (self w)
           (list_set (heap w) l (AImg (cv2_rectangle a (fst bbox) (snd bbox) color thick)))).
Proof.
  intros Ha. unfold cv2_rectangle_at.
  rewrite (bind_ok _ _ _ _ _ (read_img_ok _ _ _ Ha)).
  erewrite bind_ok by (apply write_ok; apply nth_error_Some; congruence).
  reflexivity.
Qed.

End Visualize.

Lemma Forall2_In_left {A B : Type} (P : A -> B -> Prop) (l : list A) (l' : list B) :
  Forall2 P l l' -> forall a, In a l -> exists b, In b l' /\ P a b.
Proof.
  induction 1 as [|x y l l' Hxy HF IH]; intros a Hin; [contradiction|].
  destruct Hin as [-> | Hin].
  - exists y. split; [now left | exact Hxy].
  - destruct (IH a Hin) as (b & Hb & Hab). exists b. split; [now right | exact Hab].
Qed.

Lemma detect_history_live `{Collaborators} (img : loc) (single : bool) (w w' : World)
    (d : Detection) :
  history_live w -> detect img single w = (Ok d, w') -> history_live w'.
Proof.
  unfold history_live. intros Hlive E.
  apply detect_inv in E. cbv zeta in E.
  destruct E as (a & scores & k & hm & _ & _ & Hself & Hhm & _ & Hheap & _).
  rewrite Hself, Hheap. cbn [nlast_heatmaps].
  destruct single.
  - eapply Forall_impl; [|exact Hlive]. intros l Hl. cbv beta in *.
    rewrite !length_app. lia.
  - destruct Hhm as (hs & Hhs & _).
    apply Forall_forall. intros l Hl.
    destruct (Forall2_In_left _ _ _ Hhs l Hl) as (h & _ & Hh).
    cbv beta in Hh.
    assert (Hlt : (l < length ((heap w ++ repeat (AImg a) k) ++
                     [AHeat (cap_heat (max_frame_heat (self w))
                               (gen_heatmap (det_windows d) scores (img_shape a)))]))%nat)
      by (apply nth_error_Some; congruence).
    cbv beta. rewrite 2!length_app. lia.
Qed.

Lemma find_cars_detections_after_detect `{Collaborators} (img : loc) (single : bool)
    (w w1 : World) (d : Detection) :
  detect img single w = (Ok d, w1) ->
  exists ext,
    fst (find_cars_detections img single w) =
      res_map (fun r => (d, r)) (fst (visualize img d w1)) /\
    snd (find_cars_detections img single w) = snd (visualize img d w1) /\
    self (snd (visualize img d w1)) = self w1 /\
    heap (snd (visualize img d w1)) = heap w1 ++ ext.
Proof.
  intros E.
  destruct (keeps_prefix (visualize img d) _ w1 (keeps_visualize _ img d)) as [ext Hext].
  exists ext.
  assert (Hrun : find_cars_detections img single w =
                 (res_map (fun r => (d, r)) (fst (visualize img d w1)),
                  snd (visualize img d w1))).
  { unfold find_cars_detections. rewrite (bind_ok _ _ _ _ _ E).
    rewrite bind_run. destruct (visualize img d w1) as [[r|e] w2]; reflexivity. }
  rewrite Hrun. cbn [fst snd].
  split; [reflexivity|]. split; [reflexivity|].
  split; [apply keeps_self_visualize | exact Hext].
Qed.

(** C8: the visualization option has no part in the detection.  On the
    same frame and state, lines 110-138 compute the same detection
    (windows, fused heatmap, thresholds and bounding boxes) or raise the
    same exception under any two options; the detection that a returning
    call of find_cars drew is that one; an exception of lines 110-138 is
    the exception of find_cars under both options; and after the call,
    whether it returned or raised while drawing, the finder holds the
    same history and the arrays of the history hold the same heatmaps. *)
Theorem viz_keeps_detection `{Collaborators} (w : World) (v1 v2 : string) (img : loc)
    (single : bool) :
  history_live w ->
  fst (detect img single (with_viz v1 w)) = fst (detect img single (with_viz v2 w)) /\
  (forall d r,
     fst (find_cars_detections img single (with_viz v1 w)) = Ok (d, r) ->
     fst (detect img single (with_viz v2 w)) = Ok d) /\
  (forall e,
     fst (detect img single (with_viz v1 w)) = Raise e ->
     fst (find_cars_detections img single (with_viz v1 w)) = Raise e /\
     fst (find_cars_detections img single (with_viz v2 w)) = Raise e) /\
  nlast_heatmaps (self (snd (find_cars_detections img single (with_viz v1 w)))) =
  nlast_heatmaps (self (snd (find_cars_detections img single (with_viz v2 w)))) /\
  map (nth_error (heap (snd (find_cars_detections img single (with_viz v1 w)))))
      (nlast_heatmaps (self (snd (find_cars_detections img single (with_viz v1 w))))) =
  map (nth_error (heap (snd (find_cars_detections img single (with_viz v2 w)))))
      (nlast_heatmaps (self (snd (find_cars_detections img single (with_viz v2 w))))).
Proof.
  intros Hlive.
  destruct (viz_blind_detect img single _ _ (sim_with_viz v1 v2 w)) as [Hr Hs].
  destruct (detect img single (with_viz v1 w)) as [[d1|e1] wa] eqn:Ea;
    destruct (detect img single (with_viz v2 w)) as [[d2|e2] wb] eqn:Eb;
    simpl in Hr, Hs; try discriminate Hr.
  - inversion Hr; subst d2. clear Hr.
    destruct (find_cars_detections_after_detect _ _ _ _ _ Ea) as (exta & Fa & Wa & Sa & Ha).
    destruct (find_cars_detections_after_detect _ _ _ _ _ Eb) as (extb & Fb & Wb & Sb & Hb).
    rewrite Fa, Fb, Wa, Wb, Sa, Sb. cbn [fst].
    destruct Hs as [Hc Hh].
    assert (Hn : nlast_heatmaps (self wa) = nlast_heatmaps (self wb)) by apply Hc.
    split; [reflexivity|]. split.
    { intros d r Hd. destruct (fst (visualize img d1 wa)) as [r1|e1]; simpl in Hd;
        [|discriminate Hd].
      injection Hd as Hd _. now rewrite Hd. }
    split; [intros e He; discriminate He|].
    split; [exact Hn|].
    rewrite <- Hn. apply map_ext_in. intros l Hl.
    assert (Hla : history_live wa)
      by (eapply detect_history_live; [|exact Ea]; exact Hlive).
    unfold history_live in Hla. rewrite Forall_forall in Hla. specialize (Hla l Hl).
    rewrite Ha, Hb. rewrite !nth_error_app1 by (rewrite <- ?Hh; exact Hla).
    now rewrite Hh.
  - inversion Hr; subst e2. clear Hr.
    unfold find_cars_detections.
    rewrite (bind_raise _ _ _ _ _ Ea), (bind_raise _ _ _ _ _ Eb). cbn [fst snd].
    destruct Hs as [Hc Hh].
    assert (Hn : nlast_heatmaps (self wa) = nlast_heatmaps (self wb)) by apply Hc.
    split; [reflexivity|].
    split; [intros d r Hd; discriminate Hd|].
    split; [intros e He; injection He as He; subst e; split; reflexivity|].
    split; [exact Hn|]. now rewrite Hh, Hn.
Qed.

Lemma viz_keeps_detection_witness :
  history_live (Toy.world "cars" 2) /\
  fst (detect 0%nat false (with_viz "windows" (Toy.world "cars" 2))) = Ok Toy.first_detection /\
  fst (detect 0%nat false (with_viz "windows" (Toy.world "cars" 2))) =
  fst (detect 0%nat false (with_viz "cars" (Toy.world "cars" 2))) /\
  (forall d r,
     fst (find_cars_detections 0%nat false (with_viz "windows" (Toy.world "cars" 2))) =
       Ok (d, r) ->
     fst (detect 0%nat false (with_viz "cars" (Toy.world "cars" 2))) = Ok d) /\
  (forall e,
     fst (detect 0%nat false (with_viz "windows" (Toy.world "cars" 2))) = Raise e ->
     fst (find_cars_detections 0%nat false (with_viz "windows" (Toy.world "cars" 2))) =
       Raise e /\
     fst (find_cars_detections 0%nat false (with_viz "cars" (Toy.world "cars" 2))) =
       Raise e) /\
  nlast_heatmaps (self (snd (find_cars_detections 0%nat false
                               (with_viz "windows" (Toy.world "cars" 2))))) =
  nlast_heatmaps (self (snd (find_cars_detections 0%nat false
                               (with_viz "cars" (Toy.world "cars" 2))))) /\
  map (nth_error (heap (snd (find_cars_detections 0%nat false
                               (with_viz "windows" (Toy.world "cars" 2))))))
      (nlast_heatmaps (self (snd (find_cars_detections 0%nat false
                                    (with_viz "windows" (Toy.world "cars" 2)))))) =
  map (nth_error (heap (snd (find_cars_detections 0%nat false
                               (with_viz "cars" (Toy.world "cars" 2))))))
      (nlast_heatmaps (self (snd (find_cars_detections 0%nat false
                                    (with_viz "cars" (Toy.world "cars" 2)))))).
Proof.
  assert (Hlive : history_live (Toy.world "cars" 2)) by (unfold history_live; simpl; constructor).
  split; [exact Hlive|]. split; [vm_compute; reflexivity|].
  exact (viz_keeps_detection (Toy.world "cars" 2) "windows" "cars" 0%nat false Hlive).
Defined.

(** The drawing of lines 140-153 is where the options differ.  With a
    history capacity of -1 the fused heatmap of line 128 is [sum([])];
    on the frame of the instance the plain option returns and the
    diagnostic one raises in [cv2.normalize], after the same detection. *)
Lemma diagnostic_drawing_raises_alone :
  fst (detect 0%nat false (Toy.world "windows" (-1))) =
  fst (detect 0%nat false (Toy.world "cars" (-1))) /\
  (exists d, fst (detect 0%nat false (Toy.world "cars" (-1))) = Ok d /\ det_bboxes d = []) /\
  (exists r, fst (find_cars 0%nat false (Toy.world "cars" (-1))) = Ok r) /\
  fst (find_cars 0%nat false (Toy.world "windows" (-1))) = Raise CvError.
Proof.
  split; [vm_compute; reflexivity|].
  split; [eexists; split; vm_compute; reflexivity|].
  split; [eexists; vm_compute; reflexivity|].
  vm_compute; reflexivity.
Qed.

(** * Further properties of the code *)

(** ** gen_heatmap on arbitrary rectangles *)

Lemma slice_add_shape (y0 y1 x0 x1 : Z) (s : Q) (hm : Heatmap) (h w : nat) :
  heat_shape h w hm -> heat_shape h w (slice_add y0 y1 x0 x1 s hm).
Proof.
  intros [Hh Hw]. unfold slice_add. split; [now rewrite length_mapi|].
  apply Forall_forall. intros row Hin.
  destruct (In_nth_error _ _ Hin) as [y Hy].
  rewrite nth_error_mapi in Hy.
  destruct (nth_error hm y) as [row0|] eqn:E; [|discriminate].
  simpl in Hy. inversion Hy as [Hrow].
  rewrite Forall_forall in Hw. specialize (Hw row0 (nth_error_In _ _ E)).
  destruct (in_slice y0 y1 (length hm) y); [|exact Hw].
  unfold row_slice_add. now rewrite length_mapi.
Qed.

Lemma np_zeros_shape (h w : nat) : heat_shape h w (np_zeros h w).
Proof.
  unfold np_zeros. split; [apply repeat_length|].
  apply Forall_forall. intros row Hin. apply repeat_spec in Hin. subst.
  apply repeat_length.
Qed.

Lemma fold_heat_shape (l : list (Rectangle * Q)) (h w : nat) :
  forall hm, heat_shape h w hm -> heat_shape h w (fold_left heat_step l hm).
Proof.
  induction l as [|[r s] l IH]; intros hm Hs; simpl; [exact Hs|].
  apply IH. now apply slice_add_shape.
Qed.

Lemma gen_heatmap_has_shape (rectangles : list Rectangle) (rectangle_heat : list Q)
    (h w : nat) :
  heat_shape h w (gen_heatmap rectangles rectangle_heat (h, w)).
Proof.
  rewrite gen_heatmap_fold. apply fold_heat_shape. apply np_zeros_shape.
Qed.

(** gen_heatmap returns an array of the requested shape, whatever the
    rectangles are: rectangles outside the image or with negative
    coordinates never enlarge it and never raise. *)
Theorem gen_heatmap_shape (rectangles : list Rectangle) (rectangle_heat : list Q)
    (h w : nat) :
  heat_shape h w (gen_heatmap rectangles rectangle_heat (h, w)).
Proof. apply gen_heatmap_has_shape. Qed.

Lemma heat_shape_cell (h w : nat) (hm : Heatmap) (y x : nat) :
  heat_shape h w hm -> (y < h)%nat -> (x < w)%nat -> exists v, cell hm y x = Some v.
Proof.
  intros [Hh Hw] Hy Hx. unfold cell.
  destruct (nth_error hm y) as [row|] eqn:E.
  - rewrite Forall_forall in Hw. specialize (Hw row (nth_error_In _ _ E)).
    destruct (nth_error row x) as [v|] eqn:E'; [now exists v|].
    apply nth_error_None in E'. lia.
  - apply nth_error_None in E. lia.
Qed.

Lemma cell_slice_add_shape (h w : nat) (r : Rectangle) (s : Q) (hm : Heatmap)
    (y x : nat) (v : Q) :
  heat_shape h w hm -> cell hm y x = Some v ->
  cell (slice_add (ry0 r) (ry1 r) (rx0 r) (rx1 r) s hm) y x =
  Some (if slice_covers h w r x y then (v + s)%Q else v).
Proof.
  intros [Hh Hw] Hc. destruct (cell_inv _ _ _ _ Hc) as (row & Hy & Hx).
  rewrite (cell_slice_add _ _ _ _ _ _ _ _ _ _ Hy Hx).
  rewrite Forall_forall in Hw. rewrite (Hw row (nth_error_In _ _ Hy)), Hh.
  reflexivity.
Qed.

Lemma cell_fold_slice_sum (h w : nat) (l : list (Rectangle * Q)) :
  forall (hm : Heatmap) (y x : nat) (v : Q),
    heat_shape h w hm -> cell hm y x = Some v ->
    exists v', cell (fold_left heat_step l hm) y x = Some v' /\
               (v' == v + slice_sum h w x y l)%Q.
Proof.
  induction l as [|[r s] l IH]; intros hm y x v Hs Hc; simpl.
  - exists v. split; [assumption | ring].
  - pose proof (cell_slice_add_shape h w r s hm y x v Hs Hc) as Hstep.
    destruct (IH _ _ _ _ (slice_add_shape _ _ _ _ s _ _ _ Hs) Hstep) as (v' & Hv' & Heq).
    exists v'. split; [exact Hv'|].
    rewrite Heq. destruct (slice_covers h w r x y); ring.
Qed.

Lemma gen_heatmap_cell_slice_sum (rectangles : list Rectangle) (rectangle_heat : list Q)
    (h w y x : nat) :
  (y < h)%nat -> (x < w)%nat ->
  exists v,
    cell (gen_heatmap rectangles rectangle_heat (h, w)) y x = Some v /\
    (v == slice_sum h w x y (combine rectangles rectangle_heat))%Q.
Proof.
  intros Hy Hx. rewrite gen_heatmap_fold. simpl fst; simpl snd.
  destruct (cell_fold_slice_sum h w (combine rectangles rectangle_heat)
              (np_zeros h w) y x 0%Q (np_zeros_shape h w) (cell_np_zeros h w y x Hy Hx))
    as (v & Hv & Heq).
  exists v. split; [exact Hv | rewrite Heq; ring].
Qed.

(** For rectangles with arbitrary integer coordinates, a cell of the raw
    heatmap holds the sum of the scores of the rectangles whose slice
    contains it: a negative coordinate counts from the far edge of the
    image, a coordinate beyond the image is clipped to it. *)
Theorem gen_heatmap_slice_sum (rectangles : list Rectangle) (rectangle_heat : list Q)
    (h w y x : nat) :
  (y < h)%nat -> (x < w)%nat ->
  exists v,
    cell (gen_heatmap rectangles rectangle_heat (h, w)) y x = Some v /\
    (v == slice_sum h w x y (combine rectangles rectangle_heat))%Q.
Proof. apply gen_heatmap_cell_slice_sum. Qed.

Lemma gen_heatmap_slice_sum_witness :
  ((3 < 4)%nat /\ (3 < 4)%nat) /\
  slice_covers 4 4 Samples.wrap_box 3 3 = true /\
  coversb Samples.wrap_box 3 3 = true /\
  slice_covers 4 4 Samples.wrap_box 1 3 = false /\
  coversb Samples.wrap_box 1 3 = true /\
  exists v,
    cell (gen_heatmap [Samples.wrap_box] [5%Q] (4%nat, 4%nat)) 3 3 = Some v /\
    (v == slice_sum 4 4 3 3 (combine [Samples.wrap_box] [5%Q]))%Q.
Proof.
  assert (H1 : (3 < 4)%nat) by lia.
  split; [now split|]. do 4 (split; [reflexivity|]).
  exact (gen_heatmap_slice_sum [Samples.wrap_box] [5%Q] 4 4 3 3 H1 H1).
Defined.

Lemma combine_app_nil_r {A B : Type} (l : list A) (s : list B) (extra : list A) :
  length l = length s -> combine (l ++ extra) s = combine l s.
Proof.
  revert s. induction l as [|a l IH]; intros [|b s] Hlen; simpl in *; try discriminate.
  - now destruct extra.
  - f_equal. apply IH. now inversion Hlen.
Qed.

Lemma combine_app_nil_l {A B : Type} (l : list A) (s : list B) (extra : list B) :
  length l = length s -> combine l (s ++ extra) = combine l s.
Proof.
  revert s. induction l as [|a l IH]; intros [|b s] Hlen; simpl in *; try discriminate.
  - reflexivity.
  - f_equal. apply IH. now inversion Hlen.
Qed.

(** gen_heatmap pairs rectangles and scores with zip: rectangles beyond the
    last score, and scores beyond the last rectangle, are ignored without
    an error. *)
Theorem gen_heatmap_ignores_unpaired (rs extra_rs : list Rectangle) (ss extra_ss : list Q)
    (shape : nat * nat) :
  length rs = length ss ->
  gen_heatmap (rs ++ extra_rs) ss shape = gen_heatmap rs ss shape /\
  gen_heatmap rs (ss ++ extra_ss) shape = gen_heatmap rs ss shape.
Proof.
  intros Hlen. unfold gen_heatmap.
  now rewrite (combine_app_nil_r _ _ extra_rs Hlen), (combine_app_nil_l _ _ extra_ss Hlen).
Qed.

Lemma gen_heatmap_ignores_unpaired_witness :
  length Toy.boxes = length Toy.box_scores /\
  gen_heatmap (Toy.boxes ++ Toy.tiles) Toy.box_scores (3%nat, 3%nat)
    = gen_heatmap Toy.boxes Toy.box_scores (3%nat, 3%nat) /\
  gen_heatmap Toy.boxes (Toy.box_scores ++ Toy.tile_scores) (3%nat, 3%nat)
    = gen_heatmap Toy.boxes Toy.box_scores (3%nat, 3%nat).
Proof.
  assert (Hl : length Toy.boxes = length Toy.box_scores) by reflexivity.
  split; [exact Hl|].
  exact (gen_heatmap_ignores_unpaired Toy.boxes Toy.tiles Toy.box_scores Toy.tile_scores
           (3%nat, 3%nat) Hl).
Defined.

(** ** Window search: grid and selection *)

Lemma in_py_range (n k : Z) : In k (py_range n) <-> 0 <= k < n.
Proof.
  unfold py_range. rewrite in_map_iff. split.
  - intros (i & <- & Hi). apply in_seq in Hi. lia.
  - intros Hk. exists (Z.to_nat k). split; [lia|]. apply in_seq. lia.
Qed.

Lemma length_py_range (n : Z) : length (py_range n) = Z.to_nat n.
Proof. unfold py_range. now rewrite length_map, length_seq. Qed.

Lemma block_steps_inv (nblocks bpw step : Z) (l : list Z) :
  block_steps nblocks bpw step = Ok l ->
  step <> 0 /\ l = py_range ((nblocks - bpw) / step).
Proof.
  unfold block_steps, py_floordiv. destruct (step =? 0) eqn:E; [discriminate|].
  intros H. inversion H. split; [now apply Z.eqb_neq | reflexivity].
Qed.

Lemma block_step_inside (nblocks bpw step k : Z) :
  1 <= step -> In k (py_range ((nblocks - bpw) / step)) ->
  0 <= k * step /\ k * step + bpw <= nblocks - step.
Proof.
  intros Hs Hk. apply in_py_range in Hk.
  assert (Hd : step * ((nblocks - bpw) / step) <= nblocks - bpw)
    by (apply Z.mul_div_le; lia).
  nia.
Qed.

Lemma window_grid_eq (nblocks_x nblocks_y bpw step : Z) :
  step <> 0 ->
  window_grid nblocks_x nblocks_y bpw step =
  Ok (flat_map (fun x => map (fun y => (x, y)) (py_range ((nblocks_y - bpw) / step)))
               (py_range ((nblocks_x - bpw) / step))).
Proof.
  intros Hs. unfold window_grid. rewrite !block_steps_ok by assumption.
  destruct (py_range ((nblocks_x - bpw) / step)); reflexivity.
Qed.

(** The sliding-window loops, for a step of at least one block: the number
    of windows is the product of the two floor quotients, and every window
    starts inside the block grid and ends at least one step before its
    far edge, so no slice of the HOG tensor leaves the grid (and a grid
    exactly one window wide yields no window). *)
Theorem window_grid_inside (nblocks_x nblocks_y bpw step : Z) (grid : list (Z * Z)) :
  1 <= step ->
  window_grid nblocks_x nblocks_y bpw step = Ok grid ->
  length grid = (Z.to_nat ((nblocks_x - bpw) / step) *
                 Z.to_nat ((nblocks_y - bpw) / step))%nat /\
  Forall (fun xy : Z * Z =>
            0 <= fst xy * step /\ fst xy * step + bpw <= nblocks_x - step /\
            0 <= snd xy * step /\ snd xy * step + bpw <= nblocks_y - step) grid.
Proof.
  intros Hs E. rewrite (window_grid_eq _ _ _ _) in E by lia.
  inversion E; subst. clear E. split.
  - rewrite <- !length_py_range.
    generalize (py_range ((nblocks_x - bpw) / step)) as l.
    induction l as [|a l IH]; simpl; [reflexivity|].
    now rewrite length_app, length_map, IH.
  - apply Forall_forall. intros [x y] Hin.
    apply in_flat_map in Hin. destruct Hin as (x' & Hx' & Hin).
    apply in_map_iff in Hin. destruct Hin as (y' & Heq & Hy'). inversion Heq; subst.
    simpl. pose proof (block_step_inside _ _ _ _ Hs Hx').
    pose proof (block_step_inside _ _ _ _ Hs Hy'). tauto.
Qed.

Lemma window_grid_inside_witness :
  (1 <= 2 /\ window_grid 159 14 7 2 = Ok (flat_map (fun x => map (fun y => (x, y))
                                                       (py_range 3)) (py_range 76))) /\
  length (flat_map (fun x => map (fun y => (x, y)) (py_range 3)) (py_range 76))
    = (Z.to_nat ((159 - 7) / 2) * Z.to_nat ((14 - 7) / 2))%nat /\
  Forall (fun xy : Z * Z =>
            0 <= fst xy * 2 /\ fst xy * 2 + 7 <= 159 - 2 /\
            0 <= snd xy * 2 /\ snd xy * 2 + 7 <= 14 - 2)
         (flat_map (fun x => map (fun y => (x, y)) (py_range 3)) (py_range 76)).
Proof.
  assert (H1 : 1 <= 2) by lia.
  assert (E : window_grid 159 14 7 2
              = Ok (flat_map (fun x => map (fun y => (x, y)) (py_range 3)) (py_range 76)))
    by reflexivity.
  split; [now split|].
  exact (window_grid_inside 159 14 7 2 _ H1 E).
Defined.

Lemma Qgtb_true_lt (a b : Q) : Qgtb a b = true -> (b < a)%Q.
Proof.
  unfold Qgtb. intros E. apply negb_true_iff in E.
  apply Qnot_le_lt. intros Hle. apply Qle_bool_iff in Hle. congruence.
Qed.

Lemma select_windows_inv (positions : list Rectangle) (scores : list Q) :
  forall i ws mags,
    select_windows positions i scores = Ok (ws, mags) ->
    length ws = length mags /\
    mags = filter (fun s => Qgtb s 0) scores /\
    Forall (fun s => (0 < s)%Q) mags /\
    Forall (fun w => In w positions) ws.
Proof.
  induction scores as [|s scores IH]; intros i ws mags E; simpl in E.
  - inversion E; subst. repeat split; constructor.
  - simpl. destruct (Qgtb s 0) eqn:Es.
    + destruct (nth_error positions i) as [w|] eqn:Ew; [|discriminate].
      destruct (select_windows positions (S i) scores) as [[ws' mags']|e] eqn:E';
        [|discriminate].
      inversion E; subst. destruct (IH _ _ _ E') as (Hl & Hm & Hp & Hw).
      repeat split.
      * simpl. now rewrite Hl.
      * now rewrite Hm.
      * constructor; [now apply Qgtb_true_lt | exact Hp].
      * constructor; [eapply nth_error_In; eassumption | exact Hw].
    + exact (IH _ _ _ E).
Qed.

Lemma select_windows_total (positions : list Rectangle) (scores : list Q) :
  forall i, (i + length scores <= length positions)%nat ->
  exists ws mags, select_windows positions i scores = Ok (ws, mags).
Proof.
  induction scores as [|s scores IH]; intros i Hlen; simpl in *.
  - now exists [], [].
  - destruct (IH (S i)) as (ws & mags & E); [lia|]. rewrite E.
    destruct (Qgtb s 0); [|now exists ws, mags].
    destruct (nth_error positions i) as [w|] eqn:Ew.
    + now exists (w :: ws), (s :: mags).
    + apply nth_error_None in Ew. lia.
Qed.

(** The selection loop at the end of window_search_cars returns as many
    windows as scores, exactly the scores above 0 in their order, and only
    windows that were generated; it returns whenever the classifier gives
    no more scores than there are windows. *)
Theorem select_windows_positive (positions : list Rectangle) (scores : list Q) :
  (length scores <= length positions)%nat ->
  exists ws mags,
    select_windows positions 0 scores = Ok (ws, mags) /\
    length ws = length mags /\
    mags = filter (fun s => Qgtb s 0) scores /\
    Forall (fun s => (0 < s)%Q) mags /\
    Forall (fun w => In w positions) ws.
Proof.
  intros Hlen. destruct (select_windows_total positions scores 0 Hlen) as (ws & mags & E).
  exists ws, mags. split; [exact E|]. exact (select_windows_inv _ _ _ _ _ E).
Qed.

Lemma select_windows_positive_witness :
  (length [1%Q; (-1)%Q] <= length Toy.boxes)%nat /\
  exists ws mags,
    select_windows Toy.boxes 0 [1%Q; (-1)%Q] = Ok (ws, mags) /\
    length ws = length mags /\
    mags = filter (fun s => Qgtb s 0) [1%Q; (-1)%Q] /\
    Forall (fun s => (0 < s)%Q) mags /\
    Forall (fun w => In w Toy.boxes) ws.
Proof.
  assert (Hl : (length [1%Q; (-1)%Q] <= length Toy.boxes)%nat) by (simpl; lia).
  split; [exact Hl|].
  exact (select_windows_positive Toy.boxes [1%Q; (-1)%Q] Hl).
Defined.

(** A positive score without a window raises IndexError: the loop indexes
    window_positions with the index of the score. *)
Theorem select_windows_index_error (positions : list Rectangle) (scores : list Q)
    (k : nat) (s : Q) :
  nth_error scores k = Some s -> (0 < s)%Q -> (length positions <= k)%nat ->
  select_windows positions 0 scores = Raise IndexError.
Proof.
  intros Hk Hs Hlen.
  assert (G : forall scores i k, nth_error scores k = Some s ->
                (length positions <= i + k)%nat ->
                select_windows positions i scores = Raise IndexError).
  { clear Hk Hlen scores k.
    induction scores as [|s' scores IH]; intros i k Hk Hlen; [destruct k; discriminate|].
    simpl. destruct k as [|k]; simpl in Hk.
    - inversion Hk; subst s'.
      assert (E : Qgtb s 0 = true).
      { unfold Qgtb. apply negb_true_iff. destruct (Qle_bool s 0) eqn:E; [|reflexivity].
        apply Qle_bool_iff in E. exfalso. apply (Qlt_irrefl 0).
        eapply Qlt_le_trans; eassumption. }
      rewrite E. destruct (nth_error positions i) eqn:Ew; [|reflexivity].
      assert (i < length positions)%nat by (apply nth_error_Some; congruence). lia.
    - assert (Hrest : select_windows positions (S i) scores = Raise IndexError)
        by (apply (IH (S i) k Hk); lia).
      rewrite Hrest. destruct (Qgtb s' 0); [|reflexivity].
      destruct (nth_error positions i); reflexivity. }
  apply (G scores 0%nat k Hk). simpl. exact Hlen.
Qed.

Lemma select_windows_index_error_witness :
  (nth_error [(-1)%Q; 1%Q] 1 = Some 1%Q /\ (0 < 1)%Q /\
   (length [Toy.box_b] <= 1)%nat) /\
  select_windows [Toy.box_b] 0 [(-1)%Q; 1%Q] = Raise IndexError.
Proof.
  assert (H1 : nth_error [(-1)%Q; 1%Q] 1 = Some 1%Q) by reflexivity.
  assert (H2 : (0 < 1)%Q) by reflexivity.
  assert (H3 : (length [Toy.box_b] <= 1)%nat) by (simpl; lia).
  split; [repeat split; assumption|].
  exact (select_windows_index_error [Toy.box_b] [(-1)%Q; 1%Q] 1 1%Q H1 H2 H3).
Defined.

(** ** Window search: the windows returned *)

Lemma py_int_nonneg_le (q : Q) : (0 <= q)%Q -> 0 <= py_int q.
Proof.
  intros H. rewrite py_int_nonneg by exact H.
  rewrite <- (Qfloor_Z 0). now apply Qfloor_resp_le.
Qed.

Lemma inject_Z_nonneg (z : Z) : 0 <= z -> (0 <= inject_Z z)%Q.
Proof. intros H. change 0%Q with (inject_Z 0). now rewrite <- Zle_Qle. Qed.

Section SearchResults.
Context `{Collaborators}.

(** The image searched, when lines 175-176 return. *)
Ltac scaled_img img :=
  match goal with
  | |- context [if Qeq_bool ?s 1 then Ok ?c else ?m] =>
      destruct (if Qeq_bool s 1 then Ok c else m) as [img|?]; [|discriminate]
  end.

(** Line 176 divides by the scale: a scale of 0 raises before any window
    is searched. *)
Lemma window_search_crop_scale_zero (crop : Image) (xr yr : Z * Z) (overlap : Q) :
  window_search_crop crop xr yr 0 overlap = Raise ZeroDivisionError.
Proof.
  unfold window_search_crop. destruct (img_shape crop) as [img_h img_w]. reflexivity.
Qed.

Lemma window_search_crop_squares (crop : Image) (xr yr : Z * Z) (scale overlap : Q)
    (ws : list Rectangle) (ss : list Q) :
  window_search_crop crop xr yr scale overlap = Ok (ws, ss) ->
  length ws = length ss /\
  Forall (fun s => (0 < s)%Q) ss /\
  Forall (fun r => rx1 r - rx0 r = draw_size scale /\ ry1 r - ry0 r = draw_size scale) ws.
Proof.
  unfold window_search_crop. destruct (img_shape crop) as [img_h img_w].
  scaled_img img.
  destruct (py_floordiv (fst input_img_shape) pixels_per_cell_edge) as [cpw|e];
    [|discriminate].
  destruct (window_grid _ _ _ _) as [grid|e]; [|discriminate].
  intros E. apply select_windows_inv in E. destruct E as (Hl & _ & Hp & Hw).
  split; [exact Hl|]. split; [exact Hp|].
  eapply Forall_impl; [|exact Hw]. intros r Hin. cbv beta in Hin.
  rewrite map_map in Hin. apply in_map_iff in Hin. destruct Hin as (xy & <- & _).
  unfold rx0, rx1, ry0, ry1, draw_size. simpl. split; ring.
Qed.

(** What window_search_cars returns for a crop: as many windows as scores,
    every score above 0, and every window a square whose side is
    int(window_size * window_scale), whatever the classifier does. *)
Theorem window_search_squares (crop : Image) (xr yr : Z * Z) (scale overlap : Q)
    (ws : list Rectangle) (ss : list Q) :
  window_search_crop crop xr yr scale overlap = Ok (ws, ss) ->
  length ws = length ss /\
  Forall (fun s => (0 < s)%Q) ss /\
  Forall (fun r => rx1 r - rx0 r = draw_size scale /\ ry1 r - ry0 r = draw_size scale) ws.
Proof. apply window_search_crop_squares. Qed.

Lemma window_search_crop_pixel_rect (crop : Image) (xr yr : Z * Z) (scale overlap : Q)
    (ws : list Rectangle) (ss : list Q) :
  0 <= fst xr -> 0 <= fst yr -> (0 <= scale)%Q -> (overlap <= 1)%Q ->
  0 <= fst input_img_shape -> 0 <= pixels_per_cell_edge ->
  window_search_crop crop xr yr scale overlap = Ok (ws, ss) ->
  Forall pixel_rect ws.
Proof.
  intros Hx Hy Hsc Hov Hws Hppc.
  unfold window_search_crop. destruct (img_shape crop) as [img_h img_w].
  scaled_img img.
  destruct (py_floordiv (fst input_img_shape) pixels_per_cell_edge) as [cpw|e] eqn:Ec;
    [|discriminate].
  assert (Hcpw : 0 <= cpw).
  { unfold py_floordiv in Ec.
    destruct (pixels_per_cell_edge =? 0) eqn:E0; [discriminate|].
    apply Z.eqb_neq in E0. inversion Ec. apply Z.div_pos; lia. }
  assert (Hstep : 0 <= cells_per_window_step overlap cpw).
  { unfold cells_per_window_step. apply py_int_nonneg_le.
    apply Qmult_le_0_compat; [|now apply inject_Z_nonneg].
    now apply (proj1 (Qle_minus_iff overlap 1)). }
  destruct (window_grid _ _ _ _) as [grid|e] eqn:Eg; [|discriminate].
  assert (Hgrid : Forall (fun xy : Z * Z => 0 <= fst xy /\ 0 <= snd xy) grid).
  { destruct (Z.eq_dec (cells_per_window_step overlap cpw) 0) as [E0 | E0].
    - unfold window_grid, block_steps, py_floordiv in Eg. rewrite E0 in Eg.
      simpl in Eg. discriminate Eg.
    - rewrite window_grid_eq in Eg by exact E0. inversion Eg; subst. clear Eg.
      apply Forall_forall. intros [x y] Hin.
      apply in_flat_map in Hin. destruct Hin as (x' & Hx' & Hin).
      apply in_map_iff in Hin. destruct Hin as (y' & Heq & Hy'). inversion Heq; subst.
      apply in_py_range in Hx'. apply in_py_range in Hy'. simpl. lia. }
  intros E. apply select_windows_inv in E. destruct E as (_ & _ & _ & Hw).
  eapply Forall_impl; [|exact Hw]. intros r Hin. cbv beta in Hin.
  rewrite map_map in Hin. apply in_map_iff in Hin. destruct Hin as ([x y] & <- & Hin).
  rewrite Forall_forall in Hgrid. specialize (Hgrid _ Hin). simpl in Hgrid.
  assert (Hd : 0 <= py_int (inject_Z (fst input_img_shape) * scale)%Q)
    by (apply py_int_nonneg_le, Qmult_le_0_compat; [now apply inject_Z_nonneg | exact Hsc]).
  assert (Hl : forall k, 0 <= k ->
                 0 <= py_int (inject_Z (k * cells_per_window_step overlap cpw
                                        * pixels_per_cell_edge) * scale)%Q).
  { intros k Hk. apply py_int_nonneg_le, Qmult_le_0_compat; [|exact Hsc].
    apply inject_Z_nonneg. apply Z.mul_nonneg_nonneg; [|exact Hppc].
    now apply Z.mul_nonneg_nonneg. }
  pose proof (Hl x (proj1 Hgrid)). pose proof (Hl y (proj2 Hgrid)).
  unfold pixel_rect, rx0, rx1, ry0, ry1. simpl. lia.
Qed.

(** With a region that starts at non-negative coordinates, a scale that is
    not negative, an overlap of at most 1 and non-negative window and cell
    sizes, every window returned lies in pixel coordinates: no coordinate
    is negative, so gen_heatmap never wraps it around the image. *)
Theorem window_search_pixel_rect (crop : Image) (xr yr : Z * Z) (scale overlap : Q)
    (ws : list Rectangle) (ss : list Q) :
  0 <= fst xr -> 0 <= fst yr -> (0 <= scale)%Q -> (overlap <= 1)%Q ->
  0 <= fst input_img_shape -> 0 <= pixels_per_cell_edge ->
  window_search_crop crop xr yr scale overlap = Ok (ws, ss) ->
  Forall pixel_rect ws.
Proof. apply window_search_crop_pixel_rect. Qed.

Lemma search_scales_pure_positive (a : Image) (xr : Z * Z) (settings : list (Z * Z * Q * Q)) :
  forall ws ss,
    search_scales_pure a xr settings = Ok (ws, ss) ->
    length ws = length ss /\ Forall (fun s => (0 < s)%Q) ss.
Proof.
  induction settings as [|[[[ystart ystop] scale] overlap] rest IH]; intros ws ss E;
    simpl in E.
  - inversion E; subst. split; [reflexivity | constructor].
  - destruct (window_search_pure a xr (ystart, ystop) scale overlap) as [[w1 s1]|e] eqn:E1;
      [|discriminate].
    destruct (search_scales_pure a xr rest) as [[w2 s2]|e] eqn:E2; [|discriminate].
    inversion E; subst.
    destruct (window_search_crop_squares _ _ _ _ _ _ _ E1) as (Hl1 & Hp1 & _).
    destruct (IH _ _ eq_refl) as (Hl2 & Hp2).
    split; [rewrite !length_app; congruence | now apply Forall_app].
Qed.

(** The windows of all scales together: as many as scores, and every score
    above 0, so the zip of gen_heatmap drops nothing and the raw heat is
    never negative. *)
Theorem search_scales_positive (a : Image) (xr : Z * Z) (settings : list (Z * Z * Q * Q)) :
  forall ws ss,
    search_scales_pure a xr settings = Ok (ws, ss) ->
    length ws = length ss /\ Forall (fun s => (0 < s)%Q) ss.
Proof. apply search_scales_pure_positive. Qed.

(** With search tuples inside the image and an x-range starting at a
    non-negative column, every window of every scale is in pixel
    coordinates. *)
Theorem search_scales_pixel_rect (a : Image) (xr : Z * Z) (settings : list (Z * Z * Q * Q)) :
  0 <= fst xr -> 0 <= fst input_img_shape -> 0 <= pixels_per_cell_edge ->
  Forall setting_in_image settings ->
  forall ws ss,
    search_scales_pure a xr settings = Ok (ws, ss) -> Forall pixel_rect ws.
Proof.
  intros Hx Hws Hppc Hset.
  induction Hset as [|[[[ystart ystop] scale] overlap] rest (Hy & Hsc & Hov) Hrest IH];
    intros ws ss E; simpl in E.
  - inversion E; subst. constructor.
  - destruct (window_search_pure a xr (ystart, ystop) scale overlap) as [[w1 s1]|e] eqn:E1;
      [|discriminate].
    destruct (search_scales_pure a xr rest) as [[w2 s2]|e] eqn:E2; [|discriminate].
    inversion E; subst. apply Forall_app. split.
    + exact (window_search_crop_pixel_rect _ xr (ystart, ystop) _ _ _ _ Hx Hy Hsc Hov Hws Hppc E1).
    + exact (IH _ _ eq_refl).
Qed.

End SearchResults.

(** The search tuples and the x-range installed by the constructor keep
    the windows in pixel coordinates. *)
Lemma init_settings_in_image (visualization : string) (history : Z) (tl th : Q) :
  0 <= fst (x_range (CarFinder_init visualization history tl th)) /\
  Forall setting_in_image (search_settings (CarFinder_init visualization history tl th)).
Proof.
  split; [simpl; lia|]. simpl.
  repeat (apply Forall_cons;
          [unfold setting_in_image; repeat split; unfold Qle; simpl; lia|]).
  apply Forall_nil.
Qed.

Lemma window_search_squares_witness :
  Samples.toy_search = Ok (Samples.toy_windows, Samples.toy_scores) /\
  length Samples.toy_windows = length Samples.toy_scores /\
  Forall (fun s => (0 < s)%Q) Samples.toy_scores /\
  Forall (fun r => rx1 r - rx0 r = @draw_size Toy.toy 1 /\
                   ry1 r - ry0 r = @draw_size Toy.toy 1) Samples.toy_windows.
Proof.
  assert (E : Samples.toy_search = Ok (Samples.toy_windows, Samples.toy_scores))
    by (vm_compute; reflexivity).
  split; [exact E|].
  exact (@window_search_squares Toy.toy Toy.frame (0, 5) (0, 5) 1 (1 # 2) _ _ E).
Defined.

Lemma window_search_pixel_rect_witness :
  (0 <= fst (0, 5) /\ (0 <= 1)%Q /\ (1 # 2 <= 1)%Q /\
   0 <= fst (@input_img_shape Toy.toy) /\ 0 <= @pixels_per_cell_edge Toy.toy /\
   Samples.toy_search = Ok (Samples.toy_windows, Samples.toy_scores)) /\
  Forall pixel_rect Samples.toy_windows.
Proof.
  assert (H0 : 0 <= fst (0, 5)) by (simpl; lia).
  assert (Hsc : (0 <= 1)%Q) by (unfold Qle; simpl; lia).
  assert (Hov : (1 # 2 <= 1)%Q) by (unfold Qle; simpl; lia).
  assert (Hws : 0 <= fst (@input_img_shape Toy.toy)) by (simpl; lia).
  assert (Hppc : 0 <= @pixels_per_cell_edge Toy.toy) by (simpl; lia).
  assert (E : Samples.toy_search = Ok (Samples.toy_windows, Samples.toy_scores))
    by (vm_compute; reflexivity).
  split; [repeat split; assumption|].
  exact (@window_search_pixel_rect Toy.toy Toy.frame (0, 5) (0, 5) 1 (1 # 2) _ _
           H0 H0 Hsc Hov Hws Hppc E).
Defined.

Lemma search_scales_positive_witness :
  Samples.toy_search_scales = Ok (Samples.toy_windows, Samples.toy_scores) /\
  length Samples.toy_windows = length Samples.toy_scores /\
  Forall (fun s => (0 < s)%Q) Samples.toy_scores.
Proof.
  assert (E : Samples.toy_search_scales = Ok (Samples.toy_windows, Samples.toy_scores))
    by (vm_compute; reflexivity).
  split; [exact E|].
  exact (@search_scales_positive Toy.toy Toy.frame (0, 5) Samples.toy_settings _ _ E).
Defined.

Lemma search_scales_pixel_rect_witness :
  (0 <= fst (0, 5) /\ 0 <= fst (@input_img_shape Toy.toy) /\
   0 <= @pixels_per_cell_edge Toy.toy /\ Forall setting_in_image Samples.toy_settings /\
   Samples.toy_search_scales = Ok (Samples.toy_windows, Samples.toy_scores)) /\
  Forall pixel_rect Samples.toy_windows.
Proof.
  assert (H0 : 0 <= fst (0, 5)) by (simpl; lia).
  assert (Hws : 0 <= fst (@input_img_shape Toy.toy)) by (simpl; lia).
  assert (Hppc : 0 <= @pixels_per_cell_edge Toy.toy) by (simpl; lia).
  assert (Hset : Forall setting_in_image Samples.toy_settings).
  { apply Forall_cons; [|apply Forall_nil].
    unfold setting_in_image. repeat split; unfold Qle; simpl; lia. }
  assert (E : Samples.toy_search_scales = Ok (Samples.toy_windows, Samples.toy_scores))
    by (vm_compute; reflexivity).
  split; [repeat split; assumption|].
  exact (@search_scales_pixel_rect Toy.toy Toy.frame (0, 5) Samples.toy_settings
           H0 Hws Hppc Hset _ _ E).
Defined.

(** ** hot_label_regions: bounding boxes *)

Lemma in_mapi {A B : Type} (f : nat -> A -> B) (l : list A) (b : B) :
  In b (mapi f l) <-> exists i a, nth_error l i = Some a /\ b = f i a.
Proof.
  split.
  - intros Hin. destruct (In_nth_error _ _ Hin) as [i Hi].
    rewrite nth_error_mapi in Hi.
    destruct (nth_error l i) as [a|] eqn:E; [|discriminate].
    simpl in Hi. inversion Hi. now exists i, a.
  - intros (i & a & Hi & ->). apply (nth_error_In _ i).
    rewrite nth_error_mapi, Hi. reflexivity.
Qed.

Lemma in_pixel_locs (arr : list (list Z)) (label_id : Z) (y x : nat) :
  In (y, x) (pixel_locs arr label_id) <-> labelled arr label_id y x.
Proof.
  unfold pixel_locs, labelled. rewrite in_concat. split.
  - intros (l & Hl & Hin). apply in_mapi in Hl. destruct Hl as (y' & row & Hrow & ->).
    apply in_concat in Hin. destruct Hin as (c & Hc & Hin).
    apply in_mapi in Hc. destruct Hc as (x' & v & Hv & ->).
    destruct (v =? label_id) eqn:E; [|contradiction].
    destruct Hin as [Heq | []]. inversion Heq; subst.
    apply Z.eqb_eq in E. subst. now exists row.
  - intros (row & Hrow & Hx).
    exists (concat (mapi (fun x v => if v =? label_id then [(y, x)] else []) row)).
    split.
    + apply in_mapi. now exists y, row.
    + apply in_concat. exists [(y, x)]. split; [|now left].
      apply in_mapi. exists x, label_id. split; [exact Hx|].
      now rewrite Z.eqb_refl.
Qed.

Lemma fold_min_spec (l : list nat) :
  forall a, let m := fold_left Nat.min l a in
            (m <= a)%nat /\ Forall (fun k => (m <= k)%nat) l /\ (m = a \/ In m l).
Proof.
  induction l as [|b l IH]; intros a; cbn [fold_left]; cbv zeta.
  - split; [lia|]. split; [constructor | now left].
  - destruct (IH (Nat.min a b)) as (H1 & H2 & H3). cbv zeta in H1, H2, H3.
    split; [lia|]. split.
    + constructor; [lia | exact H2].
    + destruct H3 as [H3 | H3]; [|right; now right].
      rewrite H3. destruct (Nat.min_spec a b) as [[_ E] | [_ E]]; rewrite E;
        [now left | right; now left].
Qed.

Lemma fold_max_spec (l : list nat) :
  forall a, let m := fold_left Nat.max l a in
            (a <= m)%nat /\ Forall (fun k => (k <= m)%nat) l /\ (m = a \/ In m l).
Proof.
  induction l as [|b l IH]; intros a; cbn [fold_left]; cbv zeta.
  - split; [lia|]. split; [constructor | now left].
  - destruct (IH (Nat.max a b)) as (H1 & H2 & H3). cbv zeta in H1, H2, H3.
    split; [lia|]. split.
    + constructor; [lia | exact H2].
    + destruct H3 as [H3 | H3]; [|right; now right].
      rewrite H3. destruct (Nat.max_spec a b) as [[_ E] | [_ E]]; rewrite E;
        [right; now left | now left].
Qed.

Lemma np_min_spec (l : list nat) (m : nat) :
  np_min l = Some m -> Forall (fun k => (m <= k)%nat) l /\ In m l.
Proof.
  destruct l as [|a l]; [discriminate|]. simpl. intros E. inversion E as [Hm].
  destruct (fold_min_spec l a) as (H1 & H2 & H3). split.
  - constructor; assumption.
  - destruct H3 as [H3 | H3]; [left; now rewrite H3 | now right].
Qed.

Lemma np_max_spec (l : list nat) (m : nat) :
  np_max l = Some m -> Forall (fun k => (k <= m)%nat) l /\ In m l.
Proof.
  destruct l as [|a l]; [discriminate|]. simpl. intros E. inversion E as [Hm].
  destruct (fold_max_spec l a) as (H1 & H2 & H3). split.
  - constructor; assumption.
  - destruct H3 as [H3 | H3]; [left; now rewrite H3 | now right].
Qed.

Lemma label_bbox_some (arr : list (list Z)) (label_id : Z) :
  pixel_locs arr label_id <> [] -> exists bbox, label_bbox arr label_id = Some bbox.
Proof.
  intros Hne. unfold label_bbox.
  destruct (pixel_locs arr label_id) as [|[y x] locs]; [congruence|].
  simpl. eexists. reflexivity.
Qed.

Lemma label_bbox_spec (arr : list (list Z)) (label_id : Z) (bbox : Rectangle) :
  label_bbox arr label_id = Some bbox ->
  (forall y x, labelled arr label_id y x ->
               rx0 bbox <= Z.of_nat x <= rx1 bbox /\ ry0 bbox <= Z.of_nat y <= ry1 bbox) /\
  (exists y, labelled arr label_id y (Z.to_nat (rx0 bbox))) /\
  (exists y, labelled arr label_id y (Z.to_nat (rx1 bbox))) /\
  (exists x, labelled arr label_id (Z.to_nat (ry0 bbox)) x) /\
  (exists x, labelled arr label_id (Z.to_nat (ry1 bbox)) x) /\
  (rx0 bbox <= snd (bbox_core bbox) <= rx1 bbox /\
   ry0 bbox <= fst (bbox_core bbox) <= ry1 bbox).
Proof.
  unfold label_bbox.
  destruct (np_min (map snd (pixel_locs arr label_id))) as [x0|] eqn:Ex0; [|discriminate].
  destruct (np_min (map fst (pixel_locs arr label_id))) as [y0|] eqn:Ey0; [|discriminate].
  destruct (np_max (map snd (pixel_locs arr label_id))) as [x1|] eqn:Ex1; [|discriminate].
  destruct (np_max (map fst (pixel_locs arr label_id))) as [y1|] eqn:Ey1; [|discriminate].
  intros E. inversion E; subst bbox. clear E.
  apply np_min_spec in Ex0, Ey0. apply np_max_spec in Ex1, Ey1.
  destruct Ex0 as [Fx0 Ix0], Ey0 as [Fy0 Iy0], Ex1 as [Fx1 Ix1], Ey1 as [Fy1 Iy1].
  unfold rx0, rx1, ry0, ry1, bbox_core. simpl.
  rewrite Forall_forall in Fx0, Fy0, Fx1, Fy1.
  assert (Hall : forall y x, labelled arr label_id y x ->
                   (x0 <= x <= x1)%nat /\ (y0 <= y <= y1)%nat).
  { intros y x Hl. apply in_pixel_locs in Hl.
    pose proof (in_map snd _ _ Hl) as Hx. pose proof (in_map fst _ _ Hl) as Hy.
    simpl in Hx, Hy.
    pose proof (Fx0 _ Hx). pose proof (Fx1 _ Hx).
    pose proof (Fy0 _ Hy). pose proof (Fy1 _ Hy). lia. }
  rewrite !Nat2Z.id.
  assert (Hside : forall (k : nat) (p : nat * nat -> nat),
            In k (map p (pixel_locs arr label_id)) ->
            exists y x, labelled arr label_id y x /\ p (y, x) = k).
  { intros k p Hin. apply in_map_iff in Hin. destruct Hin as ([y x] & Hp & Hin).
    exists y, x. split; [now apply in_pixel_locs | exact Hp]. }
  destruct (Hside _ _ Ix0) as (ya & xa & La & Ea).
  destruct (Hside _ _ Ix1) as (yb & xb & Lb & Eb).
  destruct (Hside _ _ Iy0) as (yc & xc & Lc & Ec).
  destruct (Hside _ _ Iy1) as (yd & xd & Ld & Ed).
  simpl in Ea, Eb, Ec, Ed. subst.
  split; [intros y x Hl; destruct (Hall y x Hl); lia|].
  split; [now exists ya|]. split; [now exists yb|].
  split; [now exists xc|]. split; [now exists xd|].
  destruct (Hall _ _ La), (Hall _ _ Lc).
  assert (Hdiv : forall a b : Z, a <= b -> a <= (a + b) / 2 <= b).
  { intros a b Hab. split.
    - apply Z.div_le_lower_bound; lia.
    - apply Z.div_le_upper_bound; lia. }
  split; apply Hdiv; unfold rx0, ry0; simpl; lia.
Qed.

(** The box of a label encloses every pixel of the label and is tight:
    each of its four sides passes through a pixel of the label.  The core
    cell tested against the threshold lies inside the box. *)
Theorem label_bbox_encloses (arr : list (list Z)) (label_id : Z) (bbox : Rectangle) :
  label_bbox arr label_id = Some bbox ->
  (forall y x, labelled arr label_id y x ->
               rx0 bbox <= Z.of_nat x <= rx1 bbox /\ ry0 bbox <= Z.of_nat y <= ry1 bbox) /\
  (exists y, labelled arr label_id y (Z.to_nat (rx0 bbox))) /\
  (exists y, labelled arr label_id y (Z.to_nat (rx1 bbox))) /\
  (exists x, labelled arr label_id (Z.to_nat (ry0 bbox)) x) /\
  (exists x, labelled arr label_id (Z.to_nat (ry1 bbox)) x) /\
  (rx0 bbox <= snd (bbox_core bbox) <= rx1 bbox /\
   ry0 bbox <= fst (bbox_core bbox) <= ry1 bbox).
Proof. apply label_bbox_spec. Qed.

Lemma label_bbox_encloses_witness :
  label_bbox Samples.label_arr 1 = Some Samples.label_box /\
  (forall y x, labelled Samples.label_arr 1 y x ->
               rx0 Samples.label_box <= Z.of_nat x <= rx1 Samples.label_box /\
               ry0 Samples.label_box <= Z.of_nat y <= ry1 Samples.label_box) /\
  (rx0 Samples.label_box <= snd (bbox_core Samples.label_box) <= rx1 Samples.label_box /\
   ry0 Samples.label_box <= fst (bbox_core Samples.label_box) <= ry1 Samples.label_box).
Proof.
  assert (E : label_bbox Samples.label_arr 1 = Some Samples.label_box) by reflexivity.
  split; [exact E|].
  destruct (label_bbox_encloses Samples.label_arr 1 Samples.label_box E)
    as (Hall & _ & _ & _ & _ & Hcore).
  split; [exact Hall | exact Hcore].
Defined.

Lemma in_label_ids (n id : Z) : In id (label_ids n) <-> 1 <= id <= n.
Proof.
  unfold label_ids. rewrite in_map_iff. split.
  - intros (k & <- & Hk). apply in_seq in Hk. lia.
  - intros Hid. exists (Z.to_nat (id - 1)). split; [lia|]. apply in_seq. lia.
Qed.

Lemma length_label_ids (n : Z) : length (label_ids n) = Z.to_nat n.
Proof. unfold label_ids. now rewrite length_map, length_seq. Qed.

Lemma heat_at_some (h w : nat) (hm : Heatmap) (y x : Z) :
  heat_shape h w hm -> 0 <= y < Z.of_nat h -> 0 <= x < Z.of_nat w ->
  exists v, heat_at hm y x = Some v.
Proof.
  intros [Hh Hw] Hy Hx. unfold heat_at. rewrite Hh.
  destruct (y <? 0) eqn:E1; [apply Z.ltb_lt in E1; lia|].
  destruct ((y <? 0) || (Z.of_nat h <=? y)) eqn:E2.
  { apply orb_true_iff in E2. destruct E2 as [E2 | E2];
      [apply Z.ltb_lt in E2 | apply Z.leb_le in E2]; lia. }
  destruct (nth_error hm (Z.to_nat y)) as [row|] eqn:Er.
  - rewrite Forall_forall in Hw. rewrite (Hw row (nth_error_In _ _ Er)).
    destruct (x <? 0) eqn:E3; [apply Z.ltb_lt in E3; lia|].
    destruct ((x <? 0) || (Z.of_nat w <=? x)) eqn:E4.
    { apply orb_true_iff in E4. destruct E4 as [E4 | E4];
        [apply Z.ltb_lt in E4 | apply Z.leb_le in E4]; lia. }
    destruct (nth_error row (Z.to_nat x)) as [v|] eqn:Ev; [now exists v|].
    apply nth_error_None in Ev. rewrite (Hw row (nth_error_In _ _ Er)) in Ev. lia.
  - apply nth_error_None in Er. lia.
Qed.

Lemma label_bbox_nonneg (arr : list (list Z)) (label_id : Z) (bbox : Rectangle) :
  label_bbox arr label_id = Some bbox -> 0 <= rx0 bbox /\ 0 <= ry0 bbox.
Proof.
  unfold label_bbox.
  destruct (np_min (map snd (pixel_locs arr label_id))) as [x0|]; [|discriminate].
  destruct (np_min (map fst (pixel_locs arr label_id))) as [y0|]; [|discriminate].
  destruct (np_max (map snd (pixel_locs arr label_id))) as [x1|]; [|discriminate].
  destruct (np_max (map fst (pixel_locs arr label_id))) as [y1|]; [|discriminate].
  intros E. inversion E. unfold rx0, ry0. simpl. lia.
Qed.

Lemma hot_label_fold_ok (arr : list (list Z)) (hm : Heatmap) (t : Q) (ids : list Z) :
  Forall (fun id => exists bbox v,
            label_bbox arr id = Some bbox /\
            heat_at hm (fst (bbox_core bbox)) (snd (bbox_core bbox)) = Some v) ids ->
  forall acc, exists bboxes,
    fold_left (hot_label_step arr hm t) ids (Ok acc) = Ok bboxes /\
    (length bboxes <= length acc + length ids)%nat.
Proof.
  induction 1 as [|id ids (bbox & v & Hb & Hv) Hrest IH]; intros acc.
  - exists acc. split; [reflexivity | simpl; lia].
  - cbn [fold_left hot_label_step]. rewrite Hb, Hv.
    destruct (Qgeb v t).
    + destruct (IH (acc ++ [bbox])) as (bs & E & Hl). exists bs. split; [exact E|].
      rewrite length_app in Hl. simpl in *. lia.
    + destruct (IH acc) as (bs & E & Hl). exists bs. split; [exact E|]. simpl. lia.
Qed.

(** hot_label_regions returns, with at most one box per label, whenever
    every label from 1 to the label count has a pixel and the heatmap has
    the shape of the label array: the core cell of a box is then always a
    cell of the heatmap. *)
Theorem hot_label_regions_returns (arr : list (list Z)) (n : Z) (hm : Heatmap) (t : Q)
    (h w : nat) :
  heat_shape h w hm ->
  length arr = h -> Forall (fun row => length row = w) arr ->
  (forall id, 1 <= id <= n -> exists y x, labelled arr id y x) ->
  exists bboxes,
    hot_label_regions (arr, n) hm t = Ok bboxes /\
    (Z.of_nat (length bboxes) <= Z.max n 0).
Proof.
  intros Hs Hh Hw Hall. unfold hot_label_regions. simpl fst; simpl snd.
  destruct (hot_label_fold_ok arr hm t (label_ids n)) with (acc := @nil Rectangle)
    as (bs & E & Hl).
  - apply Forall_forall. intros id Hid. apply in_label_ids in Hid.
    destruct (Hall id Hid) as (y & x & Hl).
    destruct (label_bbox_some arr id) as [bbox Hb].
    { apply in_pixel_locs in Hl. intros Hnil. rewrite Hnil in Hl. contradiction. }
    destruct (label_bbox_spec _ _ _ Hb)
      as (Henc & _ & (yb & Lb) & _ & (xd & Ld) & (Hcx & Hcy)).
    pose proof (label_bbox_nonneg _ _ _ Hb) as Hx0.
    assert (Hx1 : rx1 bbox < Z.of_nat w).
    { destruct Lb as (row & Hrow & Hcell).
      rewrite Forall_forall in Hw. pose proof (Hw row (nth_error_In _ _ Hrow)) as Hlen.
      assert (Z.to_nat (rx1 bbox) < length row)%nat by (apply nth_error_Some; congruence).
      destruct (Henc y x Hl). lia. }
    assert (Hy1 : ry1 bbox < Z.of_nat h).
    { destruct Ld as (row & Hrow & Hcell).
      assert (Z.to_nat (ry1 bbox) < length arr)%nat by (apply nth_error_Some; congruence).
      destruct (Henc y x Hl). lia. }
    destruct (heat_at_some h w hm (fst (bbox_core bbox)) (snd (bbox_core bbox)) Hs)
      as [v Hv]; [lia | lia |].
    now exists bbox, v.
  - exists bs. split; [exact E|]. rewrite length_label_ids in Hl. simpl in Hl. lia.
Qed.

Lemma hot_label_regions_returns_witness :
  (heat_shape 3 3 Samples.label_heat /\ length Samples.label_arr = 3%nat /\
   Forall (fun row => length row = 3%nat) Samples.label_arr /\
   (forall id, 1 <= id <= 2 -> exists y x, labelled Samples.label_arr id y x)) /\
  exists bboxes,
    hot_label_regions (Samples.label_arr, 2) Samples.label_heat 1 = Ok bboxes /\
    (Z.of_nat (length bboxes) <= Z.max 2 0).
Proof.
  assert (Hs : heat_shape 3 3 Samples.label_heat)
    by (split; [reflexivity | repeat constructor]).
  assert (Hh : length Samples.label_arr = 3%nat) by reflexivity.
  assert (Hw : Forall (fun row => length row = 3%nat) Samples.label_arr)
    by (repeat constructor).
  assert (Hall : forall id, 1 <= id <= 2 -> exists y x, labelled Samples.label_arr id y x).
  { intros id Hid. assert (Hc : id = 1 \/ id = 2) by lia. destruct Hc as [-> | ->].
    - exists 0%nat, 1%nat, [0; 1; 1]. split; reflexivity.
    - exists 2%nat, 0%nat, [2; 0; 0]. split; reflexivity. }
  split; [split; [exact Hs | split; [exact Hh | split; [exact Hw | exact Hall]]]|].
  exact (hot_label_regions_returns Samples.label_arr 2 Samples.label_heat 1 3 3
           Hs Hh Hw Hall).
Defined.

(** ** Thresholding and fusion *)

(** Line 134: a cell of the fused heatmap below the low threshold becomes 0
    in the thresholded copy, every other cell keeps its value. *)
Theorem zero_below_cells (lo : Q) (hm : Heatmap) (y x : nat) (v : Q) :
  cell hm y x = Some v ->
  exists c,
    cell (zero_below lo hm hm) y x = Some c /\
    ((v < lo)%Q -> c = 0%Q) /\
    ((lo <= v)%Q -> c = v).
Proof.
  intros Hc. rewrite zero_below_map, cell_map, Hc. simpl.
  destruct (Qltb v lo) eqn:E.
  - exists 0%Q. split; [reflexivity|]. split; [reflexivity|].
    intros Hle. apply Qltb_true_lt in E. exfalso.
    apply (Qlt_irrefl v). eapply Qlt_le_trans; eassumption.
  - exists v. split; [reflexivity|]. split; [|reflexivity].
    intros Hlt. unfold Qltb in E. apply negb_false_iff in E.
    apply Qle_bool_iff in E. exfalso.
    apply (Qlt_irrefl v). eapply Qlt_le_trans; eassumption.
Qed.

Lemma zero_below_cells_witness :
  cell Samples.label_heat 2 0 = Some (1 # 2)%Q /\
  exists c,
    cell (zero_below 1 Samples.label_heat Samples.label_heat) 2 0 = Some c /\
    ((1 # 2 < 1)%Q -> c = 0%Q) /\
    ((1 <= 1 # 2)%Q -> c = (1 # 2)%Q).
Proof.
  assert (H : cell Samples.label_heat 2 0 = Some (1 # 2)%Q) by reflexivity.
  split; [exact H|].
  exact (zero_below_cells 1 Samples.label_heat 2 0 _ H).
Defined.

Lemma cell_map2 (f : Q -> Q -> Q) (a b : Heatmap) (y x : nat) (va vb : Q) :
  cell a y x = Some va -> cell b y x = Some vb ->
  cell (map2 (map2 f) a b) y x = Some (f va vb).
Proof.
  assert (G : forall (A B C : Type) (g : A -> B -> C) (l : list A) (l' : list B) n u u',
             nth_error l n = Some u -> nth_error l' n = Some u' ->
             nth_error (map2 g l l') n = Some (g u u')).
  { intros A B C g l. induction l as [|c l IH]; intros [|c' l'] [|n] u u' H1 H2;
      simpl in *; try discriminate.
    - now inversion H1; inversion H2.
    - now apply IH. }
  intros Ha Hb.
  destruct (cell_inv _ _ _ _ Ha) as (ra & Hra & Hxa).
  destruct (cell_inv _ _ _ _ Hb) as (rb & Hrb & Hxb).
  unfold cell. rewrite (G _ _ _ _ _ _ _ _ _ Hra Hrb). now apply G.
Qed.

Lemma map2_shape (f : Q -> Q -> Q) (h w : nat) (a b : Heatmap) :
  heat_shape h w a -> heat_shape h w b -> heat_shape h w (map2 (map2 f) a b).
Proof.
  assert (L : forall (A B C : Type) (g : A -> B -> C) (l : list A) (l' : list B),
             length l = length l' -> length (map2 g l l') = length l).
  { intros A B C g l. induction l as [|c l IH]; intros [|c' l'] Hl; simpl in *;
      try discriminate; [reflexivity|]. f_equal. apply IH. now inversion Hl. }
  intros [Ha Wa] [Hb Wb]. split; [rewrite L; congruence|].
  subst h. revert b Hb Wb. induction a as [|ra a IH]; intros [|rb b] Hb Wb;
    simpl in *; try discriminate; [constructor|].
  inversion Wa; subst. inversion Wb; subst. constructor.
  - rewrite L; congruence.
  - apply IH; [assumption | now inversion Hb | assumption].
Qed.

Lemma map_map_shape (f : Q -> Q) (h w : nat) (a : Heatmap) :
  heat_shape h w a -> heat_shape h w (map (map f) a).
Proof.
  intros [Ha Wa]. split; [now rewrite length_map|].
  apply Forall_map. eapply Forall_impl; [|exact Wa].
  intros row Hrow. cbv beta. now rewrite length_map.
Qed.

Lemma fold_heat_add_cells (h w y x : nat) (hs : list Heatmap) :
  Forall (heat_shape h w) hs -> (y < h)%nat -> (x < w)%nat ->
  forall acc v, heat_shape h w acc -> cell acc y x = Some v ->
  heat_shape h w (fold_left heat_add hs acc) /\
  exists v', cell (fold_left heat_add hs acc) y x = Some v' /\
             (v' == v + cell_total y x hs)%Q.
Proof.
  intros HF Hy Hx. induction HF as [|hh hs Hh Hrest IH]; intros acc v Hs Hc; simpl.
  - split; [exact Hs|]. exists v. split; [exact Hc | ring].
  - destruct (heat_shape_cell h w hh y x Hh Hy Hx) as [vh Hvh].
    rewrite Hvh.
    destruct (IH (heat_add acc hh) (v + vh)%Q) as (Hs' & v' & Hv' & Heq).
    + now apply map2_shape.
    + now apply cell_map2.
    + split; [exact Hs'|]. exists v'. split; [exact Hv'|]. rewrite Heq. ring.
Qed.

(** Line 128: the fused heatmap of heatmaps of one shape has that shape,
    and each of its cells holds the sum of the values the heatmaps hold at
    that cell. *)
Theorem py_sum_cells (h w y x : nat) (hs : list Heatmap) :
  hs <> [] -> Forall (heat_shape h w) hs -> (y < h)%nat -> (x < w)%nat ->
  heat_shape h w (py_sum hs) /\
  exists v, cell (py_sum hs) y x = Some v /\ (v == cell_total y x hs)%Q.
Proof.
  intros Hne HF Hy Hx. destruct hs as [|h0 hs]; [congruence|].
  inversion HF as [|? ? Hh0 Hrest]; subst.
  destruct (heat_shape_cell h w h0 y x Hh0 Hy Hx) as [v0 Hv0].
  unfold py_sum.
  destruct (fold_heat_add_cells h w y x hs Hrest Hy Hx
              (map (map (Qplus 0)) h0) (0 + v0)%Q) as (Hs & v & Hv & Heq).
  - now apply map_map_shape.
  - now rewrite cell_map, Hv0.
  - split; [exact Hs|]. exists v. split; [exact Hv|].
    rewrite Heq. simpl. rewrite Hv0. ring.
Qed.

Lemma py_sum_cells_witness :
  ([Samples.label_heat; Samples.label_heat] <> [] /\
   Forall (heat_shape 3 3) [Samples.label_heat; Samples.label_heat] /\
   (0 < 3)%nat /\ (2 < 3)%nat) /\
  heat_shape 3 3 (py_sum [Samples.label_heat; Samples.label_heat]) /\
  exists v,
    cell (py_sum [Samples.label_heat; Samples.label_heat]) 0 2 = Some v /\
    (v == cell_total 0 2 [Samples.label_heat; Samples.label_heat])%Q.
Proof.
  assert (Hne : [Samples.label_heat; Samples.label_heat] <> []) by discriminate.
  assert (Hs : heat_shape 3 3 Samples.label_heat)
    by (split; [reflexivity | repeat constructor]).
  assert (HF : Forall (heat_shape 3 3) [Samples.label_heat; Samples.label_heat])
    by (repeat constructor; apply Hs).
  assert (H0 : (0 < 3)%nat) by lia.
  assert (H2 : (2 < 3)%nat) by lia.
  split; [split; [exact Hne | split; [exact HF | split; [exact H0 | exact H2]]]|].
  exact (py_sum_cells 3 3 0 2 _ Hne HF H0 H2).
Defined.

(** ** The history update at its edges *)

(** With a capacity of at least 1 one streaming update leaves
    min(capacity, length + 1) heatmaps, the newest last: the history grows
    by one during warm-up and never exceeds the capacity afterwards, from
    whatever length it starts. *)
Theorem push_history_length (cap : Z) (nlast : list loc) (cur : loc) :
  1 <= cap ->
  length (push_history cap nlast cur) = Nat.min (Z.to_nat cap) (length nlast + 1) /\
  last (push_history cap nlast cur) cur = cur.
Proof.
  intros Hcap. rewrite push_history_lastn by assumption. unfold lastn.
  rewrite length_skipn, length_app. simpl. split; [lia|].
  assert (Hk : (length nlast + 1 - Z.to_nat cap <= length nlast)%nat) by lia.
  rewrite skipn_app.
  replace (length nlast + 1 - Z.to_nat cap - length nlast)%nat with 0%nat by lia.
  simpl. apply last_last.
Qed.

Lemma push_history_length_witness :
  1 <= 2 /\
  length (push_history 2 [7; 12]%nat 17%nat) = Nat.min (Z.to_nat 2) (length [7; 12]%nat + 1) /\
  last (push_history 2 [7; 12]%nat 17%nat) 17%nat = 17%nat.
Proof.
  assert (H : 1 <= 2) by lia.
  split; [exact H|]. exact (push_history_length 2 [7; 12]%nat 17%nat H).
Defined.

Lemma push_history_skipn (cap : Z) (nlast : list loc) (cur : loc) :
  cap <= 0 ->
  push_history cap nlast cur = skipn (Z.to_nat (- cap)) (nlast ++ [cur]).
Proof.
  intros Hcap. unfold push_history, py_slice_from, slice_bound.
  assert (Hlen : (Z.of_nat (length (nlast ++ [cur])) >? cap) = true).
  { apply Z.gtb_lt. rewrite length_app. simpl. lia. }
  rewrite Hlen.
  destruct (- cap <? 0) eqn:E; [apply Z.ltb_lt in E; lia|].
  destruct (Z.le_gt_cases (- cap) (Z.of_nat (length (nlast ++ [cur])))) as [Hle | Hgt].
  - now rewrite Z.min_l by exact Hle.
  - rewrite Z.min_r by lia. rewrite Nat2Z.id.
    rewrite skipn_all. symmetry. apply skipn_all2. lia.
Qed.

(** With a capacity of 0 or less the slice [-capacity:] does not keep the
    last elements: capacity 0 keeps the whole list, a capacity of -c drops
    the first c entries of it. *)
Theorem push_history_nonpositive (cap : Z) (nlast : list loc) (cur : loc) :
  cap <= 0 ->
  push_history cap nlast cur = skipn (Z.to_nat (- cap)) (nlast ++ [cur]).
Proof. apply push_history_skipn. Qed.

Lemma push_history_nonpositive_witness :
  0 <= 0 /\ push_history 0 [7; 12]%nat 17%nat = skipn (Z.to_nat (- 0)) ([7; 12] ++ [17])%nat.
Proof.
  assert (H : 0 <= 0) by lia.
  split; [exact H|]. exact (push_history_nonpositive 0 [7; 12]%nat 17%nat H).
Defined.

Lemma fold_push_history_zero (heats : list loc) :
  forall nlast, fold_left (push_history 0) heats nlast = nlast ++ heats.
Proof.
  induction heats as [|cur heats IH]; intros nlast; simpl.
  - now rewrite app_nil_r.
  - rewrite push_history_skipn by lia. simpl. rewrite IH.
    now rewrite <- app_assoc.
Qed.

(** A finder with history capacity 0 never discards a heatmap: after a run
    of streaming calls that all return, the history has grown by one entry
    per frame. *)
Theorem history_capacity_zero_unbounded `{Collaborators} (imgs : list loc) (w w' : World)
    (rets : list loc) :
  heatmap_history (self w) = 0 ->
  stream imgs w = (Ok rets, w') ->
  length (nlast_heatmaps (self w')) =
  (length (nlast_heatmaps (self w)) + length imgs)%nat.
Proof.
  intros Hcap E.
  destruct (stream_inv imgs w w' rets E) as (heats & ext & HF & Hself & _).
  rewrite Hself. cbn [with_history nlast_heatmaps]. rewrite Hcap.
  rewrite fold_push_history_zero, length_app.
  f_equal. symmetry. exact (Forall2_length HF).
Qed.

Lemma history_capacity_zero_unbounded_witness :
  (heatmap_history (self (Toy.world "cars" 0)) = 0 /\
   fst (stream [0; 0; 0]%nat (Toy.world "cars" 0)) = Ok [5; 10; 15]%nat) /\
  length (nlast_heatmaps (self (snd (stream [0; 0; 0]%nat (Toy.world "cars" 0))))) =
  (length (nlast_heatmaps (self (Toy.world "cars" 0))) + length [0; 0; 0]%nat)%nat.
Proof.
  assert (Hc : heatmap_history (self (Toy.world "cars" 0)) = 0) by reflexivity.
  assert (E : stream [0; 0; 0]%nat (Toy.world "cars" 0)
              = (Ok [5; 10; 15]%nat, snd (stream [0; 0; 0]%nat (Toy.world "cars" 0))))
    by (vm_compute; reflexivity).
  split; [split; [exact Hc | now rewrite E]|].
  exact (history_capacity_zero_unbounded [0; 0; 0]%nat _ _ _ Hc E).
Defined.

(** ** What the drawing code returns *)

Section Drawing.
Context `{Collaborators}.

Lemma draw_each_run (rectangles : list Rectangle) (color : Color) (thick : Z) (l : loc) :
  forall (w : World) (a : Image),
    nth_error (heap w) l = Some (AImg a) ->
    draw_each l rectangles color thick w =
    (Ok l, mkWorld (self w)
             (list_set (heap w) l (AImg (draw_all a rectangles color thick)))).
Proof.
  induction rectangles as [|bbox rest IH]; intros w a Ha; simpl.
  - unfold ret, draw_all. simpl. now rewrite (list_set_same _ _ _ Ha), world_eta.
  - rewrite (bind_ok _ _ _ _ _ (cv2_rectangle_at_ok _ bbox color thick _ _ Ha)).
    rewrite (IH _ (cv2_rectangle a (fst bbox) (snd bbox) color thick)).
    + simpl. now rewrite list_set_twice.
    + simpl. apply nth_error_list_set_eq. apply nth_error_Some. congruence.
Qed.

Lemma draw_rectangles_run (img : loc) (rectangles : list Rectangle) (color : Color)
    (thick : Z) (w : World) (a : Image) :
  nth_error (heap w) img = Some (AImg a) ->
  draw_rectangles img rectangles color thick w =
  (Ok (length (heap w)),
   mkWorld (self w) (heap w ++ [AImg (draw_all a rectangles color thick)])).
Proof.
  intros Ha. unfold draw_rectangles.
  rewrite (bind_ok _ _ _ _ _ (np_copy_ok _ _ _ Ha)).
  erewrite bind_ok by (apply draw_each_run; simpl; apply nth_error_snoc).
  simpl. now rewrite list_set_snoc.
Qed.

(** draw_rectangles returns a new array holding the image with the
    rectangles drawn in list order; the array it was given and every other
    array and the finder stay as they were. *)
Theorem draw_rectangles_copies (img : loc) (rectangles : list Rectangle) (color : Color)
    (thick : Z) (w : World) (a : Image) :
  nth_error (heap w) img = Some (AImg a) ->
  draw_rectangles img rectangles color thick w =
  (Ok (length (heap w)),
   mkWorld (self w) (heap w ++ [AImg (draw_all a rectangles color thick)])).
Proof. apply draw_rectangles_run. Qed.

Ltac lookup :=
  cbn [heap self];
  first [ apply nth_error_snoc
        | eassumption
        | rewrite nth_error_app1; [lookup | rewrite ?length_app; simpl; lia] ].

Lemma raising_none {A : Type} (k : unit -> M A) (w : World) :
  bind (raising None) k w = k tt w.
Proof. reflexivity. Qed.

Lemma raising_some {A : Type} (e : exn) (k : unit -> M A) (w : World) :
  bind (raising (Some e)) k w = (Raise e, w).
Proof. reflexivity. Qed.

(** Lines 140-153, when the frame is an image, the fused heatmap a float
    array and the call returns: the array returned is new.  Without the
    diagnostic option it holds the frame with the detections drawn; with
    it, the candidate windows drawn over the heat overlay of that image. *)
Lemma visualize_run (img : loc) (d : Detection) (w w' : World) (a : Image) (hm : Heatmap)
    (r : loc) :
  nth_error (heap w) img = Some (AImg a) ->
  nth_error (heap w) (det_heatmap d) = Some (AHeat hm) ->
  visualize img d w = (Ok r, w') ->
  let boxed := draw_all a (det_bboxes d) (0, 255, 0) 6 in
  exists ext,
    w' = mkWorld (self w) (heap w ++ ext) /\
    (length (heap w) <= r)%nat /\
    nth_error (heap w ++ ext) r =
    Some (AImg (if String.eqb (viz (self w)) "windows"
                then draw_all (heat_overlay boxed hm (det_thresh_high d))
                              (det_windows d) (0, 0, 180) 1
                else boxed)).
Proof.
  intros Ha Hh E boxed. revert E.
  assert (Hlt : (det_heatmap d < length (heap w))%nat) by (apply nth_error_Some; congruence).
  unfold visualize.
  rewrite (bind_ok _ _ _ _ _ (np_copy_ok _ _ _ Ha)).
  erewrite bind_ok by (apply draw_each_run; simpl; apply nth_error_snoc).
  cbn [self heap]. rewrite list_set_snoc. fold boxed.
  rewrite bind_run. cbn [gets self].
  destruct (String.eqb (viz (self w)) "windows").
  - erewrite bind_ok by (apply np_copy_ok; lookup).
    erewrite bind_ok by (apply read_heat_ok; lookup).
    erewrite bind_ok by (apply read_heat_ok; lookup).
    erewrite bind_ok by (apply write_ok; cbn [heap]; rewrite ?length_app; simpl; lia).
    cbn [self heap]. rewrite list_set_snoc.
    erewrite bind_ok by (apply read_heat_ok; lookup).
    destruct (cv2_normalize_error _) as [e|];
      [rewrite raising_some; intros E; discriminate E | rewrite raising_none].
    erewrite bind_ok by (apply write_ok; cbn [heap]; rewrite ?length_app; simpl; lia).
    cbn [self heap]. rewrite list_set_snoc.
    erewrite bind_ok by (apply read_heat_ok; lookup).
    rewrite bind_run. cbn [alloc self heap].
    erewrite bind_ok by (apply read_gray_ok; lookup).
    rewrite bind_run. cbn [alloc self heap].
    rewrite bind_run. cbn [alloc self heap].
    erewrite bind_ok by (apply read_gray_ok; lookup).
    erewrite bind_ok by (apply read_gray_ok; lookup).
    destruct (cv2_merge_error _ _ _) as [e|];
      [rewrite raising_some; intros E; discriminate E | rewrite raising_none].
    rewrite bind_run. cbn [alloc self heap].
    erewrite bind_ok by (apply read_img_ok; lookup).
    erewrite bind_ok by (apply read_img_ok; lookup).
    destruct (cv2_addWeighted_error _ _) as [e|];
      [rewrite raising_some; intros E; discriminate E | rewrite raising_none].
    rewrite bind_run. cbn [alloc self heap].
    erewrite draw_rectangles_run by lookup.
    cbn [self heap]. fold (overlay_heat hm (det_thresh_high d)).
    fold (heat_overlay boxed hm (det_thresh_high d)).
    intros E. injection E as Hr Hw. subst r w'.
    eexists. split; [|split].
    + rewrite <- !app_assoc. reflexivity.
    + rewrite !length_app. simpl. lia.
    + simpl app.
      match goal with
      | |- nth_error _ (length ?l) = _ =>
          assert (Hl : length l = (length (heap w) + 7)%nat)
            by (rewrite !length_app; simpl; lia)
      end.
      rewrite Hl. rewrite nth_error_app2 by lia.
      replace (length (heap w) + 7 - length (heap w))%nat with 7%nat by lia.
      reflexivity.
  - intros E. injection E as Hr Hw. subst r w'.
    exists [AImg boxed]. split; [reflexivity|].
    split; [lia | apply nth_error_snoc].
Qed.

End Drawing.

(** ** find_cars as a whole *)

(** When find_cars returns, the array it returns is new (the frame is not
    returned itself).  Without the diagnostic option it holds the frame
    with the detection boxes drawn in green, thickness 6, in label order;
    with the option 'windows' it holds every candidate window drawn in
    (0, 0, 180), thickness 1, over the heat overlay of that image. *)
Theorem find_cars_returned_image `{Collaborators} (img : loc) (single : bool)
    (w w' : World) (d : Detection) (r : loc) :
  find_cars_detections img single w = (Ok (d, r), w') ->
  exists a hm,
    nth_error (heap w) img = Some (AImg a) /\
    nth_error (heap w') (det_heatmap d) = Some (AHeat hm) /\
    (length (heap w) <= r)%nat /\
    nth_error (heap w') r =
    Some (AImg (if String.eqb (viz (self w)) "windows"
                then draw_all (heat_overlay (draw_all a (det_bboxes d) (0, 255, 0) 6)
                                 hm (det_thresh_high d))
                              (det_windows d) (0, 0, 180) 1
                else draw_all a (det_bboxes d) (0, 255, 0) 6)).
Proof.
  unfold find_cars_detections. intros E.
  apply bind_inv_ok in E. destruct E as (d' & w1 & Ed & E).
  apply bind_inv_ok in E. destruct E as (r' & w2 & Ev & E).
  apply ret_inv in E. destruct E as [E Hw]. subst w'. inversion E; subst d' r'. clear E.
  destruct (keeps_prefix (detect img single) _ w (keeps_detect _ img single)) as [ext1 Hext1].
  rewrite Ed in Hext1. simpl in Hext1.
  destruct (detect_heatmap_lookup _ _ _ _ _ Ed) as (hm & Hhm & _).
  pose proof Ed as Ed'. apply detect_inv in Ed'. cbv zeta in Ed'.
  destruct Ed' as (a & scores & k & hm0 & Ha & _ & Hself & _).
  assert (Ha1 : nth_error (heap w1) img = Some (AImg a)).
  { rewrite Hext1. rewrite nth_error_app1; [exact Ha | apply nth_error_Some; congruence]. }
  destruct (visualize_run img d w1 w2 a hm r Ha1 Hhm Ev) as (ext & Hw2 & Hr & Himg).
  rewrite Hw2. cbn [heap].
  exists a, hm. split; [exact Ha|]. split; [|split].
  - rewrite nth_error_app1; [exact Hhm | apply nth_error_Some; congruence].
  - rewrite Hext1 in Hr. rewrite length_app in Hr. lia.
  - rewrite Himg. rewrite Hself. reflexivity.
Qed.

Lemma find_cars_returned_image_witness :
  find_cars_detections 0%nat false (Toy.world "windows" 2)
    = (Ok (Toy.first_detection, 12%nat),
       snd (find_cars_detections 0%nat false (Toy.world "windows" 2))) /\
  exists a hm,
    nth_error (heap (Toy.world "windows" 2)) 0 = Some (AImg a) /\
    nth_error (heap (snd (find_cars_detections 0%nat false (Toy.world "windows" 2))))
              (det_heatmap Toy.first_detection) = Some (AHeat hm) /\
    (length (heap (Toy.world "windows" 2)) <= 12)%nat /\
    nth_error (heap (snd (find_cars_detections 0%nat false (Toy.world "windows" 2)))) 12 =
    Some (AImg (if String.eqb (viz (self (Toy.world "windows" 2))) "windows"
                then draw_all (heat_overlay
                                 (draw_all a (det_bboxes Toy.first_detection) (0, 255, 0) 6)
                                 hm (det_thresh_high Toy.first_detection))
                              (det_windows Toy.first_detection) (0, 0, 180) 1
                else draw_all a (det_bboxes Toy.first_detection) (0, 255, 0) 6)).
Proof.
  assert (E : find_cars_detections 0%nat false (Toy.world "windows" 2)
              = (Ok (Toy.first_detection, 12%nat),
                 snd (find_cars_detections 0%nat false (Toy.world "windows" 2))))
    by (vm_compute; reflexivity).
  split; [exact E|].
  exact (find_cars_returned_image 0%nat false _ _ _ _ E).
Defined.

Section SingleMode.
Context `{Collaborators}.

Ltac self_auto :=
  repeat first
    [ apply keeps_self_bind; [ | intros ? ]
    | match goal with
      | |- keeps_self (match ?x with _ => _ end) => destruct x
      | |- keeps_self (if ?b then _ else _) => destruct b
      end
    | apply keeps_self_ret | apply keeps_self_lift | apply keeps_self_gets
    | apply keeps_self_alloc | apply keeps_self_read | apply keeps_self_write
    | apply keeps_self_read_img | apply keeps_self_read_heat | apply keeps_self_read_gray
    | apply keeps_self_np_copy | apply keeps_self_visualize ].

Lemma keeps_self_search_scales (img : loc) (xr : Z * Z) (settings : list (Z * Z * Q * Q)) :
  keeps_self (search_scales img xr settings).
Proof.
  induction settings as [|[[[ystart ystop] scale] overlap] rest IH]; simpl.
  - apply keeps_self_ret.
  - apply keeps_self_bind; [unfold window_search_cars; self_auto|].
    intros [wd ws]. apply keeps_self_bind; [exact IH|].
    intros [wds wss]. apply keeps_self_ret.
Qed.

Lemma keeps_self_make_heatmap (img : loc) : keeps_self (make_heatmap img).
Proof.
  unfold make_heatmap.
  apply keeps_self_bind; [apply keeps_self_gets | intros settings].
  apply keeps_self_bind; [apply keeps_self_gets | intros xr].
  apply keeps_self_bind; [apply keeps_self_search_scales | intros [windows scores]].
  self_auto.
Qed.

Lemma keeps_self_extract_regions (heatmap : loc) : keeps_self (extract_regions heatmap).
Proof. unfold extract_regions. self_auto. Qed.

(** In still-image mode find_cars assigns no field of the finder, whether
    it returns or raises: the history, the thresholds and the search
    settings are what they were. *)
Theorem find_cars_single_keeps_finder (img : loc) (w : World) :
  self (snd (find_cars img true w)) = self w.
Proof.
  assert (K : keeps_self (find_cars img true)).
  { unfold find_cars, find_cars_detections, detect.
    apply keeps_self_bind; [|intros [d r]; apply keeps_self_ret].
    apply keeps_self_bind.
    - apply keeps_self_bind; [apply keeps_self_make_heatmap | intros [windows cur]].
      apply keeps_self_bind; [unfold fuse; apply keeps_self_ret | intros heatmap].
      apply keeps_self_bind; [apply keeps_self_extract_regions | intros [[lo hi] bboxes]].
      apply keeps_self_ret.
    - intros d. apply keeps_self_bind; [apply keeps_self_visualize | intros r].
      apply keeps_self_ret. }
  apply K.
Qed.

(** An exception raised by the window search (a ZeroDivisionError of the
    step, an IndexError of the selection) is the exception find_cars
    raises, in either mode, and the finder is left as it was: no heatmap
    has entered the history. *)
Theorem find_cars_search_error (img : loc) (single : bool) (w : World) (a : Image)
    (e : exn) :
  nth_error (heap w) img = Some (AImg a) ->
  search_scales_pure a (x_range (self w)) (search_settings (self w)) = Raise e ->
  fst (find_cars img single w) = Raise e /\
  self (snd (find_cars img single w)) = self w.
Proof.
  intros Ha Hs.
  destruct (search_scales_run img (x_range (self w)) (search_settings (self w)) a w Ha)
    as [k Hk].
  rewrite Hs in Hk.
  assert (Hm : make_heatmap img w =
               (Raise e, mkWorld (self w) (heap w ++ repeat (AImg a) k))).
  { unfold make_heatmap. rewrite bind_run. cbn [gets]. rewrite bind_run. cbn [gets].
    now rewrite (bind_raise _ _ _ _ _ Hk). }
  assert (Hd : detect img single w =
               (Raise e, mkWorld (self w) (heap w ++ repeat (AImg a) k)))
    by (unfold detect; now rewrite (bind_raise _ _ _ _ _ Hm)).
  assert (Hf : find_cars_detections img single w =
               (Raise e, mkWorld (self w) (heap w ++ repeat (AImg a) k)))
    by (unfold find_cars_detections; now rewrite (bind_raise _ _ _ _ _ Hd)).
  unfold find_cars. rewrite (bind_raise _ _ _ _ _ Hf). split; reflexivity.
Qed.

End SingleMode.

Lemma find_cars_search_error_witness :
  (nth_error (heap (mkWorld (CarFinder_init "cars" 16 (1 # 10) (1 # 4)) [Toy.frame_array])) 0
     = Some Toy.frame_array /\
   @search_scales_pure Toy.toy Toy.frame
     (x_range (CarFinder_init "cars" 16 (1 # 10) (1 # 4)))
     (search_settings (CarFinder_init "cars" 16 (1 # 10) (1 # 4)))
     = Raise ZeroDivisionError) /\
  fst (find_cars 0%nat false
         (mkWorld (CarFinder_init "cars" 16 (1 # 10) (1 # 4)) [Toy.frame_array]))
    = Raise ZeroDivisionError /\
  self (snd (find_cars 0%nat false
               (mkWorld (CarFinder_init "cars" 16 (1 # 10) (1 # 4)) [Toy.frame_array])))
    = self (mkWorld (CarFinder_init "cars" 16 (1 # 10) (1 # 4)) [Toy.frame_array]).
Proof.
  assert (Ha : nth_error (heap (mkWorld (CarFinder_init "cars" 16 (1 # 10) (1 # 4))
                                  [Toy.frame_array])) 0 = Some Toy.frame_array)
    by reflexivity.
  assert (Hs : @search_scales_pure Toy.toy Toy.frame
                 (x_range (CarFinder_init "cars" 16 (1 # 10) (1 # 4)))
                 (search_settings (CarFinder_init "cars" 16 (1 # 10) (1 # 4)))
               = Raise ZeroDivisionError) by (vm_compute; reflexivity).
  split; [split; [exact Ha | exact Hs]|].
  exact (@find_cars_search_error Toy.toy 0%nat false _ Toy.frame ZeroDivisionError Ha Hs).
Defined.

Lemma detect_stream_thresholds_witness :
  detect 0%nat false (Toy.world "cars" 16) = (Ok Toy.first_detection, Toy.first_world) /\
  exists hs,
    Forall2 (fun l h => nth_error (heap Toy.first_world) l = Some (AHeat h))
            (nlast_heatmaps (self Toy.first_world)) hs /\
    nth_error (heap Toy.first_world) (det_heatmap Toy.first_detection)
      = Some (AHeat (py_sum hs)) /\
    (det_thresh_low Toy.first_detection
     == inject_Z (Z.of_nat (length hs)) * thresh_low (self (Toy.world "cars" 16)))%Q /\
    (det_thresh_high Toy.first_detection
     == inject_Z (Z.of_nat (length hs)) * thresh_high (self (Toy.world "cars" 16)))%Q.
Proof.
  assert (E : detect 0%nat false (Toy.world "cars" 16)
              = (Ok Toy.first_detection, Toy.first_world)) by (vm_compute; reflexivity).
  split; [exact E|].
  exact (detect_stream_thresholds 0%nat _ _ _ E).
Defined.

(** ** The built-in search settings *)

Lemma Qfloor_ge_1 (q : Q) : 1 <= Qfloor q <-> (1 <= q)%Q.
Proof.
  split; intros H.
  - apply Qle_trans with (inject_Z (Qfloor q)); [|apply Qfloor_le].
    change 1%Q with (inject_Z 1). now rewrite <- Zle_Qle.
  - rewrite <- (Qfloor_Z 1). now apply Qfloor_resp_le.
Qed.

(** With the three search tuples the constructor installs (overlaps 6/8,
    5/8 and 6/8), every scale has a step of at least one block exactly
    when the feature builder has at least 4 cells per window edge; with
    fewer the search of find_cars divides by zero. *)
Theorem init_settings_step (visualization : string) (history : Z) (tl th : Q)
    (cells_per_window : Z) :
  0 <= cells_per_window ->
  (Forall (fun t : Z * Z * Q * Q => 1 <= cells_per_window_step (snd t) cells_per_window)
          (search_settings (CarFinder_init visualization history tl th))
   <-> 4 <= cells_per_window).
Proof.
  intros Hc.
  assert (Hstep : forall n d : positive,
            (Z.pos n <= Z.pos d) ->
            (1 <= cells_per_window_step (Z.pos n # d) cells_per_window <->
             Z.pos d <= (Z.pos d - Z.pos n) * cells_per_window)).
  { intros n d Hnd. unfold cells_per_window_step.
    assert (Hq : (0 <= (1 - (Z.pos n # d)) * inject_Z cells_per_window)%Q).
    { apply Qmult_le_0_compat; [|now apply inject_Z_nonneg].
      unfold Qle, Qminus, Qplus, Qopp. cbn [Qnum Qden]. lia. }
    rewrite py_int_nonneg by exact Hq. rewrite Qfloor_ge_1.
    unfold Qle, Qmult, Qminus, Qplus, Qopp, inject_Z. cbn [Qnum Qden].
    rewrite !Pos2Z.inj_mul. nia. }
  simpl. split.
  - intros HF. inversion HF as [|? ? H1 _]; subst. simpl in H1.
    apply (Hstep 6%positive 8%positive) in H1; lia.
  - intros H4.
    repeat (apply Forall_cons; [simpl; apply Hstep; lia|]). apply Forall_nil.
Qed.

Lemma init_settings_step_witness :
  0 <= 8 /\
  (Forall (fun t : Z * Z * Q * Q => 1 <= cells_per_window_step (snd t) 8)
          (search_settings (CarFinder_init "cars" 16 (1 # 10) (1 # 4)))
   <-> 4 <= 8).
Proof.
  assert (H : 0 <= 8) by lia.
  split; [exact H|]. exact (init_settings_step "cars" 16 (1 # 10) (1 # 4) 8 H).
Defined.

(** ** The range of the heat values *)

Lemma Forall_mapi {A B : Type} (P : A -> Prop) (R : B -> Prop) (f : nat -> A -> B)
    (l : list A) :
  (forall i a, P a -> R (f i a)) -> Forall P l -> Forall R (mapi f l).
Proof.
  intros Hf HP. apply Forall_forall. intros b Hb.
  apply in_mapi in Hb. destruct Hb as (i & a & Hi & ->).
  apply Hf. rewrite Forall_forall in HP. apply HP. eapply nth_error_In; eassumption.
Qed.

Lemma slice_add_nonneg (y0 y1 x0 x1 : Z) (s : Q) (hm : Heatmap) :
  (0 <= s)%Q -> heat_nonneg hm -> heat_nonneg (slice_add y0 y1 x0 x1 s hm).
Proof.
  intros Hs Hn. unfold heat_nonneg, slice_add.
  eapply Forall_mapi; [|exact Hn]. intros y row Hrow. cbv beta in *.
  destruct (in_slice y0 y1 (length hm) y); [|exact Hrow].
  unfold row_slice_add. eapply Forall_mapi; [|exact Hrow].
  intros x v Hv. cbv beta in *. destruct (in_slice x0 x1 (length row) x); [|exact Hv].
  rewrite <- (Qplus_0_r 0). now apply Qplus_le_compat.
Qed.

Lemma gen_heatmap_nonneg (rectangles : list Rectangle) (rectangle_heat : list Q)
    (shape : nat * nat) :
  Forall (fun s => (0 < s)%Q) rectangle_heat ->
  heat_nonneg (gen_heatmap rectangles rectangle_heat shape).
Proof.
  intros Hpos. rewrite gen_heatmap_fold.
  assert (Hl : Forall (fun rs : Rectangle * Q => (0 <= snd rs)%Q)
                      (combine rectangles rectangle_heat)).
  { apply Forall_forall. intros [r s] Hin. simpl.
    apply in_combine_r in Hin. rewrite Forall_forall in Hpos.
    apply Qlt_le_weak. now apply Hpos. }
  assert (Hz : heat_nonneg (np_zeros (fst shape) (snd shape))).
  { unfold heat_nonneg, np_zeros. apply Forall_forall. intros row Hrow.
    apply repeat_spec in Hrow. subst. apply Forall_forall. intros v Hv.
    apply repeat_spec in Hv. subst. apply Qle_refl. }
  revert Hz. generalize (np_zeros (fst shape) (snd shape)) as hm.
  induction Hl as [|[r s] l Hs Hrest IH]; intros hm Hz; simpl; [exact Hz|].
  apply IH. now apply slice_add_nonneg.
Qed.

Lemma cap_heat_range (cap : Q) (hm : Heatmap) :
  (0 <= cap)%Q -> heat_nonneg hm ->
  Forall (Forall (fun v => (0 <= v)%Q /\ (v <= cap)%Q)) (cap_heat cap hm).
Proof.
  intros Hc Hn. rewrite cap_heat_map. apply Forall_map.
  eapply Forall_impl; [|exact Hn]. intros row Hrow. cbv beta. apply Forall_map.
  eapply Forall_impl; [|exact Hrow]. intros v Hv. cbv beta.
  destruct (Qgtb v cap) eqn:E.
  - split; [exact Hc | apply Qle_refl].
  - split; [exact Hv | now apply Qgtb_false_le].
Qed.

(** The heatmap a frame contributes to the history: it has the shape of
    the frame and, when max_frame_heat is not negative, each of its values
    lies between 0 and max_frame_heat, whatever scores the classifier
    gives. *)
Theorem frame_heatmap_range `{Collaborators} (cf : CarFinder) (a : Image) (hm : Heatmap) :
  (0 <= max_frame_heat cf)%Q ->
  frame_heatmap cf a = Ok hm ->
  heat_shape (fst (img_shape a)) (snd (img_shape a)) hm /\
  Forall (Forall (fun v => (0 <= v)%Q /\ (v <= max_frame_heat cf)%Q)) hm.
Proof.
  intros Hc. unfold frame_heatmap.
  destruct (search_scales_pure a (x_range cf) (search_settings cf)) as [[ws ss]|e] eqn:E;
    [|discriminate].
  intros Hm. inversion Hm; subst hm. clear Hm.
  destruct (search_scales_pure_positive _ _ _ _ _ E) as [_ Hpos].
  split.
  - rewrite cap_heat_map. apply map_map_shape.
    destruct (img_shape a) as [h w]. apply gen_heatmap_has_shape.
  - apply cap_heat_range; [exact Hc | now apply gen_heatmap_nonneg].
Qed.

Lemma frame_heatmap_range_witness :
  ((0 <= max_frame_heat (Toy.finder "cars" 16 (1 # 10) (1 # 4)))%Q /\
   @frame_heatmap Toy.toy (Toy.finder "cars" 16 (1 # 10) (1 # 4)) Toy.frame
     = Ok (cap_heat (max_frame_heat (Toy.finder "cars" 16 (1 # 10) (1 # 4)))
             (gen_heatmap Samples.toy_windows Samples.toy_scores (5%nat, 5%nat)))) /\
  heat_shape 5 5
    (cap_heat (max_frame_heat (Toy.finder "cars" 16 (1 # 10) (1 # 4)))
       (gen_heatmap Samples.toy_windows Samples.toy_scores (5%nat, 5%nat))) /\
  Forall (Forall (fun v => (0 <= v)%Q /\
                           (v <= max_frame_heat (Toy.finder "cars" 16 (1 # 10) (1 # 4)))%Q))
    (cap_heat (max_frame_heat (Toy.finder "cars" 16 (1 # 10) (1 # 4)))
       (gen_heatmap Samples.toy_windows Samples.toy_scores (5%nat, 5%nat))).
Proof.
  assert (Hc : (0 <= max_frame_heat (Toy.finder "cars" 16 (1 # 10) (1 # 4)))%Q)
    by (unfold Qle; simpl; lia).
  assert (E : @frame_heatmap Toy.toy (Toy.finder "cars" 16 (1 # 10) (1 # 4)) Toy.frame
              = Ok (cap_heat (max_frame_heat (Toy.finder "cars" 16 (1 # 10) (1 # 4)))
                      (gen_heatmap Samples.toy_windows Samples.toy_scores (5%nat, 5%nat))))
    by (vm_compute; reflexivity).
  split; [split; [exact Hc | exact E]|].
  exact (@frame_heatmap_range Toy.toy _ Toy.frame _ Hc E).
Defined.

(** ** The core test under ordered thresholds *)

Lemma In_skipn {A : Type} (n : nat) (l : list A) (a : A) : In a (skipn n l) -> In a l.
Proof.
  intros Hin. rewrite <- (firstn_skipn n l). apply in_or_app. now right.
Qed.

Lemma In_push_history (cap : Z) (nlast : list loc) (cur l : loc) :
  In l (push_history cap nlast cur) -> In l nlast \/ l = cur.
Proof.
  unfold push_history, py_slice_from. intros Hin.
  assert (Happ : In l (nlast ++ [cur])).
  { destruct (Z.of_nat (length (nlast ++ [cur])) >? cap); [|exact Hin].
    eapply In_skipn; eassumption. }
  apply in_app_or in Happ. destruct Happ as [H | [H | []]]; auto.
Qed.

Lemma Forall2_right {A B : Type} (P : A -> B -> Prop) (R : B -> Prop) (l : list A)
    (l' : list B) :
  Forall2 P l l' -> (forall a b, In a l -> P a b -> R b) -> Forall R l'.
Proof.
  induction 1 as [|a b l l' Hab HF IH]; intros HR; constructor.
  - apply (HR a b); [now left | exact Hab].
  - apply IH. intros a' b' Hin. apply HR. now right.
Qed.

Lemma heat_add_nonneg (a b : Heatmap) :
  heat_nonneg a -> heat_nonneg b -> heat_nonneg (heat_add a b).
Proof.
  unfold heat_nonneg, heat_add. intros Ha. revert b.
  induction Ha as [|ra a Hra Ha IH]; intros [|rb b] Hb; simpl; try constructor.
  - inversion Hb as [|? ? Hrb Hb']; subst. clear IH Ha Hb Hb'.
    revert rb Hrb. induction Hra as [|va ra Hva Hra IH]; intros [|vb rb] Hrb; simpl;
      try constructor.
    + inversion Hrb; subst. rewrite <- (Qplus_0_r 0). now apply Qplus_le_compat.
    + inversion Hrb; subst. now apply IH.
  - inversion Hb; subst. now apply IH.
Qed.

Lemma py_sum_nonneg (hs : list Heatmap) : Forall heat_nonneg hs -> heat_nonneg (py_sum hs).
Proof.
  intros HF. destruct HF as [|h hs Hh Hrest]; [constructor|]. unfold py_sum.
  assert (H0 : heat_nonneg (map (map (Qplus 0)) h)).
  { unfold heat_nonneg. apply Forall_map. eapply Forall_impl; [|exact Hh].
    intros row Hrow. cbv beta. apply Forall_map. eapply Forall_impl; [|exact Hrow].
    intros v Hv. cbv beta. rewrite <- (Qplus_0_r 0). apply Qplus_le_compat;
      [apply Qle_refl | exact Hv]. }
  revert H0. generalize (map (map (Qplus 0)) h) as acc.
  induction Hrest as [|h' hs Hh' Hrest IH]; intros acc Hacc; simpl; [exact Hacc|].
  apply IH. now apply heat_add_nonneg.
Qed.

Lemma scaled_thresh_le (nlast : list loc) (lo hi : Q) :
  (lo <= hi)%Q -> (scaled_thresh nlast lo <= scaled_thresh nlast hi)%Q.
Proof.
  intros H. unfold scaled_thresh.
  rewrite (Qmult_comm _ lo), (Qmult_comm _ hi).
  apply Qmult_le_compat_r; [exact H|]. apply inject_Z_nonneg. lia.
Qed.

(** When the history holds no negative value, max_frame_heat is not
    negative and thresh_low <= thresh_high, the boxes find_cars keeps are
    exactly the boxes of the labelled components whose core cell holds at
    least the high threshold in the fused heatmap itself, in label order;
    the fused heatmap has no negative value, and the history still holds
    none after the call. *)
Theorem detect_core_test_fused `{Collaborators} (img : loc) (single : bool) (w w' : World)
    (d : Detection) :
  history_nonneg w ->
  (0 <= max_frame_heat (self w))%Q ->
  (thresh_low (self w) <= thresh_high (self w))%Q ->
  detect img single w = (Ok d, w') ->
  exists hm boxes,
    nth_error (heap w') (det_heatmap d) = Some (AHeat hm) /\
    heat_nonneg hm /\
    Forall2 (fun id b =>
               label_bbox (fst (label (zero_below (det_thresh_low d) hm hm))) id = Some b)
            (label_ids (snd (label (zero_below (det_thresh_low d) hm hm)))) boxes /\
    det_bboxes d = filter (core_hot hm (det_thresh_high d)) boxes /\
    history_nonneg w'.
Proof.
  intros Hhist Hcap Hth E.
  pose proof E as E'. apply detect_inv in E'. cbv zeta in E'.
  destruct E' as (a & scores & k & hm & Ha & Hs & Hself & Hhm & Hd & Hheap & Hlo & Hhi & Hhot).
  set (hcur := cap_heat (max_frame_heat (self w))
                 (gen_heatmap (det_windows d) scores (img_shape a))) in *.
  assert (Hcurn : heat_nonneg hcur).
  { destruct (search_scales_pure_positive _ _ _ _ _ Hs) as [_ Hpos].
    pose proof (cap_heat_range _ _ Hcap
                  (gen_heatmap_nonneg (det_windows d) scores (img_shape a) Hpos)) as Hr.
    unfold heat_nonneg. eapply Forall_impl; [|exact Hr].
    intros row Hrow. eapply Forall_impl; [|exact Hrow]. intros v Hv. apply Hv. }
  assert (Hold : forall l, In l (nlast_heatmaps (self w)) ->
            exists h, nth_error (heap w) l = Some (AHeat h) /\ heat_nonneg h).
  { unfold history_nonneg in Hhist. rewrite Forall_forall in Hhist. exact Hhist. }
  assert (Hcurl : nth_error ((heap w ++ repeat (AImg a) k) ++ [AHeat hcur])
                            (length (heap w) + k) = Some (AHeat hcur)).
  { replace (length (heap w) + k)%nat with (length (heap w ++ repeat (AImg a) k))
      by (rewrite length_app, repeat_length; reflexivity).
    apply nth_error_snoc. }
  assert (Hbefore : forall l h0, nth_error (heap w) l = Some (AHeat h0) ->
            nth_error ((heap w ++ repeat (AImg a) k) ++ [AHeat hcur]) l = Some (AHeat h0)).
  { intros l h0 Hl. rewrite <- app_assoc.
    rewrite nth_error_app1; [exact Hl | apply nth_error_Some; congruence]. }
  assert (Hfused : heat_nonneg hm).
  { destruct single.
    - now subst hm.
    - destruct Hhm as (hs & Hhs & ->). apply py_sum_nonneg.
      eapply Forall2_right; [exact Hhs|].
      intros l h Hin Hl. cbv beta in Hl.
      destruct (In_push_history _ _ _ _ Hin) as [Hin' | ->].
      + destruct (Hold l Hin') as (h0 & Hl0 & Hn0).
        rewrite (Hbefore _ _ Hl0) in Hl. inversion Hl; subst. exact Hn0.
      + rewrite Hcurl in Hl. inversion Hl; subst. exact Hcurn. }
  assert (Hlook : nth_error (heap w') (det_heatmap d) = Some (AHeat hm)).
  { destruct (detect_heatmap_lookup _ _ _ _ _ E) as (hm' & Hl' & _).
    rewrite Hl'. rewrite Hheap, Hd in Hl'.
    destruct single.
    - subst hm. rewrite app_nil_r in Hl'.
      rewrite nth_error_app1 in Hl' by (rewrite !length_app, repeat_length; simpl; lia).
      rewrite Hcurl in Hl'. now inversion Hl'.
    - rewrite nth_error_app1 in Hl' by (rewrite !length_app, repeat_length; simpl; lia).
      replace (S (length (heap w) + k))
        with (length ((heap w ++ repeat (AImg a) k) ++ [AHeat hcur])) in Hl'
        by (rewrite !length_app, repeat_length; simpl; lia).
      rewrite nth_error_snoc in Hl'. now inversion Hl'. }
  destruct (hot_label_regions_inv _ _ _ _ Hhot) as (boxes & HF & Hb).
  exists hm, boxes. split; [exact Hlook|]. split; [exact Hfused|].
  split; [exact HF|]. split.
  - rewrite Hb. apply filter_ext. intros b. apply core_hot_zero_below.
    + rewrite Hlo, Hhi. now apply scaled_thresh_le.
    + now right.
  - unfold history_nonneg. rewrite Hself, Hheap. cbn [nlast_heatmaps].
    apply Forall_forall. intros l Hin.
    assert (Hcase : In l (nlast_heatmaps (self w)) \/ (single = false /\ l = (length (heap w) + k)%nat)).
    { destruct single; [now left|].
      destruct (In_push_history _ _ _ _ Hin) as [Hl | Hl]; [now left | now right]. }
    destruct Hcase as [Hin' | [_ ->]].
    + destruct (Hold l Hin') as (h0 & Hl0 & Hn0). exists h0. split; [|exact Hn0].
      rewrite <- !app_assoc.
      rewrite nth_error_app1; [exact Hl0 | apply nth_error_Some; congruence].
    + exists hcur. split; [|exact Hcurn].
      rewrite <- app_assoc. rewrite nth_error_app1; [exact Hcurl|].
      apply nth_error_Some. congruence.
Qed.

Lemma detect_core_test_fused_witness :
  (history_nonneg (Toy.world "cars" 16) /\
   (0 <= max_frame_heat (self (Toy.world "cars" 16)))%Q /\
   (thresh_low (self (Toy.world "cars" 16)) <= thresh_high (self (Toy.world "cars" 16)))%Q /\
   detect 0%nat false (Toy.world "cars" 16) = (Ok Toy.first_detection, Toy.first_world)) /\
  exists hm boxes,
    nth_error (heap Toy.first_world) (det_heatmap Toy.first_detection) = Some (AHeat hm) /\
    heat_nonneg hm /\
    det_bboxes Toy.first_detection
      = filter (core_hot hm (det_thresh_high Toy.first_detection)) boxes /\
    history_nonneg Toy.first_world.
Proof.
  assert (Hh : history_nonneg (Toy.world "cars" 16)) by (unfold history_nonneg; constructor).
  assert (Hc : (0 <= max_frame_heat (self (Toy.world "cars" 16)))%Q)
    by (unfold Qle; simpl; lia).
  assert (Ht : (thresh_low (self (Toy.world "cars" 16))
                <= thresh_high (self (Toy.world "cars" 16)))%Q)
    by (unfold Qle; simpl; lia).
  assert (E : detect 0%nat false (Toy.world "cars" 16)
              = (Ok Toy.first_detection, Toy.first_world)) by (vm_compute; reflexivity).
  split; [split; [exact Hh | split; [exact Hc | split; [exact Ht | exact E]]]|].
  destruct (detect_core_test_fused 0%nat false _ _ _ Hh Hc Ht E)
    as (hm & boxes & Hl & Hn & _ & Hb & Hh').
  exists hm, boxes. split; [exact Hl|]. split; [exact Hn|]. split; [exact Hb | exact Hh'].
Defined.

(** ** main: the path of the output video *)

Lemma occurs_app (c : Ascii.ascii) (s t : string) :
  occurs c (s ++ t)%string <-> occurs c s \/ occurs c t.
Proof. induction s as [|a s IH]; simpl; [tauto | rewrite IH; tauto]. Qed.

Lemma string_app_assoc (s t u : string) :
  ((s ++ t) ++ u = s ++ t ++ u)%string.
Proof. induction s as [|a s IH]; simpl; [reflexivity | now rewrite IH]. Qed.

Lemma rsplit1_some (c : Ascii.ascii) (s : string) :
  forall before after,
    rsplit1 c s = Some (before, after) ->
    s = (before ++ String c after)%string /\ ~ occurs c after.
Proof.
  induction s as [|a s IH]; intros before after E; simpl in E; [discriminate|].
  destruct (rsplit1 c s) as [[b0 a0]|] eqn:Er.
  - inversion E; subst. destruct (IH _ _ eq_refl) as [-> Hn]. split; [reflexivity | exact Hn].
  - destruct (Ascii.eqb a c) eqn:Ea; [|discriminate].
    apply Ascii.eqb_eq in Ea. inversion E; subst. split; [reflexivity|].
    clear IH E. revert Er. induction after as [|a' s' IH']; simpl; [tauto|].
    destruct (rsplit1 c s') as [[b1 a1]|]; [discriminate|].
    destruct (Ascii.eqb a' c) eqn:Ea'; [discriminate|].
    intros _ [H | H].
    + subst. rewrite Ascii.eqb_refl in Ea'. discriminate.
    + now apply IH'.
Qed.

Lemma rsplit1_none (c : Ascii.ascii) (s : string) :
  rsplit1 c s = None <-> ~ occurs c s.
Proof.
  induction s as [|a s IH]; simpl; [tauto|].
  destruct (rsplit1 c s) as [[b0 a0]|] eqn:Er.
  - split; [discriminate|]. intros Hn. exfalso. apply Hn. right.
    destruct (rsplit1_some _ _ _ _ Er) as [-> _].
    apply occurs_app. right. now left.
  - destruct (Ascii.eqb a c) eqn:Ea.
    + apply Ascii.eqb_eq in Ea. split; [discriminate|]. intros Hn. exfalso. apply Hn. now left.
    + apply Ascii.eqb_neq in Ea. split; [|reflexivity].
      intros _ [H | H]; [contradiction|]. now apply (proj1 IH).
Qed.

Lemma last_segment_spec (c : Ascii.ascii) (s : string) :
  ~ occurs c (last_segment c s) /\
  exists dir, s = (dir ++ last_segment c s)%string /\
              (dir = EmptyString \/ exists d, dir = (d ++ String c EmptyString)%string).
Proof.
  unfold last_segment. destruct (rsplit1 c s) as [[before after]|] eqn:E.
  - destruct (rsplit1_some _ _ _ _ E) as [-> Hn]. split; [exact Hn|].
    exists (before ++ String c EmptyString)%string. split.
    + now rewrite string_app_assoc.
    + right. now exists before.
  - split; [now apply rsplit1_none|]. exists EmptyString. split; [reflexivity | now left].
Qed.

(** When main computes the output path, the input path is a directory
    part (empty or ending in '/'), a name and an extension without '/' and
    with no '.' in the extension, and the video is written to
    ./output/<name>_<visualization>.<ext>: the directory of the input is
    dropped. *)
Theorem video_out_path_ok (video_in visualization path : string) :
  video_out_path video_in visualization = Ok path ->
  exists dir name ext,
    video_in = (dir ++ name ++ "." ++ ext)%string /\
    (dir = EmptyString \/ exists d, dir = (d ++ "/")%string) /\
    ~ occurs "/"%char name /\ ~ occurs "/"%char ext /\ ~ occurs "."%char ext /\
    path = ("./output/" ++ name ++ "_" ++ visualization ++ "." ++ ext)%string.
Proof.
  unfold video_out_path.
  destruct (rsplit1 "."%char (last_segment "/"%char video_in)) as [[name ext]|] eqn:E; [|discriminate].
  intros Hp. inversion Hp; subst path. clear Hp.
  destruct (rsplit1_some _ _ _ _ E) as [Hbase Hdot].
  destruct (last_segment_spec "/"%char video_in) as (Hslash & dir & Hv & Hdir).
  rewrite Hbase in Hslash, Hv.
  exists dir, name, ext. split; [exact Hv|]. split; [exact Hdir|].
  assert (Hn : ~ occurs "/"%char name /\ ~ occurs "/"%char ext).
  { split; intros Ho; apply Hslash; apply occurs_app; [now left | right; now right]. }
  destruct Hn as [Hn1 Hn2]. repeat split; assumption.
Qed.

Lemma video_out_path_ok_witness :
  video_out_path "./data/test_videos/test_video.mp4"%string "cars"%string
    = Ok "./output/test_video_cars.mp4"%string /\
  exists dir name ext,
    "./data/test_videos/test_video.mp4"%string = (dir ++ name ++ "." ++ ext)%string /\
    (dir = EmptyString \/ exists d, dir = (d ++ "/")%string) /\
    ~ occurs "/"%char name /\ ~ occurs "/"%char ext /\ ~ occurs "."%char ext /\
    "./output/test_video_cars.mp4"%string
      = ("./output/" ++ name ++ "_" ++ "cars" ++ "." ++ ext)%string.
Proof.
  assert (E : video_out_path "./data/test_videos/test_video.mp4"%string "cars"%string
              = Ok "./output/test_video_cars.mp4"%string) by reflexivity.
  split; [exact E|].
  exact (video_out_path_ok _ _ _ E).
Defined.

(** main fails with ValueError, before any frame is read, exactly when the
    last path component of the input video has no '.': a file name without
    extension, also below a directory whose name has a dot. *)
Theorem video_out_path_no_extension (video_in visualization : string) :
  video_out_path video_in visualization = Raise ValueError <->
  ~ occurs "."%char (last_segment "/"%char video_in).
Proof.
  unfold video_out_path. rewrite <- rsplit1_none.
  destruct (rsplit1 "."%char (last_segment "/"%char video_in)) as [[name ext]|]; split;
    intros E; try discriminate E; reflexivity.
Qed.

Lemma draw_rectangles_copies_witness :
  nth_error (heap (Toy.world "cars" 16)) 0 = Some Toy.frame_array /\
  draw_rectangles 0%nat Toy.boxes (0, 0, 255) 6 (Toy.world "cars" 16) =
  (Ok (length (heap (Toy.world "cars" 16))),
   mkWorld (self (Toy.world "cars" 16))
     (heap (Toy.world "cars" 16)
      ++ [AImg (@draw_all Toy.toy Toy.frame Toy.boxes (0, 0, 255) 6)])).
Proof.
  assert (Ha : nth_error (heap (Toy.world "cars" 16)) 0 = Some Toy.frame_array)
    by reflexivity.
  split; [exact Ha|].
  exact (@draw_rectangles_copies Toy.toy 0%nat Toy.boxes (0, 0, 255) 6 _ Toy.frame Ha).
Defined.
